(** * DataMimic: the JavaScript fallback path of the synthetic-data server

    A shallow embedding of the fallback code of [registerRoutes]
    (server routes): [jsParseCSV], [jsEvaluate], the suggestion
    derivation of [/api/analyze_dataset] and the controlled fallback
    generator of [/api/generate_controlled].  Around it the development
    covers the analysis made at upload ([/api/upload]), the in-memory
    storage and the two download routes, the unconstrained fallback
    [jsGenerate] of [/api/generate], the last resort of
    [/api/generate_controlled], the relations suggested by
    [/api/analyze_dataset], and what the client pages compute from
    these texts: the preview of the upload page, the request of the
    model selection page, the counts and samples of the results and
    download pages.

    Conventions of the embedding.
    - A JavaScript string is a [string]; the analysis only ever inspects
      ASCII characters (comma, newline, carriage return, bar, the
      letters of "year", white space).
    - [undefined] is [None]: an array read [r[idx]] is the list lookup
      [r !! idx], and a cell that may be [undefined] has type
      [option string].
    - A JavaScript number is a rational [Q]: arithmetic is exact, so
      binary64 rounding and the infinities are abstracted away.  [NaN]
      is [None] in [option Q].
    - [Number(s)] on a cell and [String(n)] on a number are builtins of
      the language; the generic development takes them as section
      variables and the concrete scenarios instantiate them with
      [NumberDec] and [StringDec], which agree with the builtins on
      plain decimal literals.
    - [Math.random()] is a stream [random : nat -> Q]; the number of
      draws made so far is threaded through the generator.
    - Objects used as dictionaries are finite maps ([gmap]), except
      [relationPools], whose key order is observed through
      [Object.keys] and is therefore an insertion-ordered association
      list.  The key [__proto__], which an object does not keep as an
      ordinary property, is outside the model.  A [Set] is a
      duplicate-free list in insertion order.
    - The request body is typed: [cols_to_synthesize] is a list of
      strings, [relations] a list of lists of strings, [constraints] a
      map to records of JSON values.  Entries of other types can never
      equal a header name and are skipped by the code.
    - [toLowerCase] and [Math.sqrt] are builtins taken as section
      variables as well; the scenarios use [toLowerCaseDec], which is
      the builtin on ASCII text, and [sqrtDec], which is the builtin on
      the squares of whole numbers.
    - [Array.prototype.sort] is stable, as the language requires since
      ES2019: the storage sorts by insertion into a sorted list. *)

From Stdlib Require Import QArith Qround Qminmax ZArith Ascii String List Lia.
From Stdlib Require Import DecimalString Qabs Lqa Sorted Qpower.
From stdpp Require Import gmap strings list fin_maps.

Local Open Scope string_scope.

(** ** Strings *)

Module Str.

(** White space removed by [String.prototype.trim] (ASCII part). *)
Definition is_space (c : ascii) : bool :=
  let n := nat_of_ascii c in
  (Nat.leb 9 n && Nat.leb n 13) || Nat.eqb n 32.

Fixpoint trim_left (s : string) : string :=
  match s with
  | String c s' => if is_space c then trim_left s' else s
  | EmptyString => EmptyString
  end.

Fixpoint trim_right (s : string) : string :=
  match s with
  | String c s' =>
      match trim_right s' with
      | EmptyString => if is_space c then EmptyString else String c EmptyString
      | t => String c t
      end
  | EmptyString => EmptyString
  end.

(** [s.trim()] *)
Definition trim (s : string) : string := trim_right (trim_left s).

(** [s.split(sep)] for a one-character separator: never empty. *)
Fixpoint split (sep : ascii) (s : string) : list string :=
  match s with
  | EmptyString => [EmptyString]
  | String c s' =>
      if Ascii.eqb c sep then EmptyString :: split sep s'
      else match split sep s' with
           | x :: r => String c x :: r
           | [] => [String c EmptyString]
           end
  end.

(** [l.join(sep)] *)
Fixpoint join (sep : string) (l : list string) : string :=
  match l with
  | [] => EmptyString
  | [x] => x
  | x :: r => x ++ sep ++ join sep r
  end.

Definition CR : ascii := ascii_of_nat 13.
Definition LF : ascii := ascii_of_nat 10.

Fixpoint drop_last_cr (s : string) : string :=
  match s with
  | EmptyString => EmptyString
  | String c EmptyString => if Ascii.eqb c CR then EmptyString else s
  | String c s' => String c (drop_last_cr s')
  end.

(** Every piece that is followed by a separator loses the carriage
    return the separator [/\r?\n/] has consumed. *)
Fixpoint strip_cr (l : list string) : list string :=
  match l with
  | [] => []
  | [x] => [x]
  | x :: r => drop_last_cr x :: strip_cr r
  end.

(** [s.split(/\r?\n/)] *)
Definition split_lines (s : string) : list string := strip_cr (split LF s).

Definition lower (c : ascii) : ascii :=
  let n := nat_of_ascii c in
  if Nat.leb 65 n && Nat.leb n 90 then ascii_of_nat (n + 32) else c.

Fixpoint prefix_ci (p s : string) : bool :=
  match p, s with
  | EmptyString, _ => true
  | String a p', String b s' => Ascii.eqb (lower a) (lower b) && prefix_ci p' s'
  | String _ _, EmptyString => false
  end.

(** [/p/i.test(s)] for a pattern [p] of ASCII letters: some position of
    [s] starts a case-insensitive occurrence of [p]. *)
Fixpoint contains_ci (p s : string) : bool :=
  prefix_ci p s ||
  match s with
  | EmptyString => false
  | String _ s' => contains_ci p s'
  end.

End Str.

(** ** Values *)

(** A cell read out of an array or an object: [None] is [undefined]. *)
Abbreviation cell := (option string).

(** [v ?? ''] *)
Definition nullish (v : cell) : string := default "" v.

(** [Array.from(new Set(l))]: first occurrences, in order. *)
Fixpoint uniq {A} `{EqDecision A} (l : list A) : list A :=
  match l with
  | [] => []
  | x :: r => x :: filter (λ y, y ≠ x) (uniq r)
  end.

(** [l.indexOf(x)]: [None] stands for [-1]. *)
Definition indexOf (l : list string) (x : string) : option nat :=
  fst <$> list_find (λ y, y = x) l.

(** [r[l.indexOf(x)]]: reading at [-1] gives [undefined]. *)
Definition at_indexOf (r : list string) (l : list string) (x : string) : cell :=
  i ← indexOf l x; r !! i.

Inductive ColType := numeric | categorical.

#[global] Instance ColType_eq_dec : EqDecision ColType.
Proof. solve_decision. Defined.

Record Column := mkColumn {
  name : string;
  type : ColType;
  values : list cell
}.

(** An output row, [Record<string,string>]: the own properties of a
    plain object; a stored value can be [undefined] at run time
    whatever the annotation says. *)
Abbreviation Row := (gmap string cell).

(** [r[k] = v] for a string or [undefined] [v].  Under the name
    [__proto__] a plain object has the accessor of [Object.prototype],
    whose setter ignores a value that is no object: nothing is stored.
    Under any other name the assignment makes or replaces an own
    property. *)
Definition set_prop (k : string) (v : cell) (r : Row) : Row :=
  if decide (k = "__proto__") then r else <[k := v]> r.

(** [r[h]], read to be printed by
    [headers.map(h => r[h] ?? '').join(',')], its only reader.  Under
    [__proto__] the read gives [Object.prototype], which is not
    nullish and which [join] prints as [[object Object]]: the object
    stands here as that text.  Under any other name the read gives
    the own property; the rows of the generators hold every header
    name but [__proto__] as an own property, so no other read
    reaches the prototype. *)
Definition get (r : Row) (h : string) : cell :=
  if decide (h = "__proto__") then Some "[object Object]" else mjoin (r !! h).

(** ** The evaluation report of [jsEvaluate] *)

Record CorrelationData := mkCorr {
  originalCorr : list (list Q);
  syntheticCorr : list (list Q);
  columnNames : list string
}.

Record Evaluation := mkEval {
  privacyScore : Q;
  utilityScore : Q;
  ksTestScore : Q;
  correlationDistance : Q;
  statisticalMetrics : gmap string Q;
  distributionData : list (list Q);
  correlationData : CorrelationData
}.

(** [jsEvaluate(columns, synth)] *)
Definition jsEvaluate (columns : list Column) (synth : list Row)
  : Evaluation :=
  {| privacyScore := 95;
     utilityScore := 92;
     ksTestScore := 0.02;
     correlationDistance := 0.05;
     statisticalMetrics := ∅;
     distributionData := [];
     correlationData :=
       {| originalCorr := [[1; 0.7]; [0.7; 1]]%Q;
          syntheticCorr := [[1; 0.68]; [0.68; 1]]%Q;
          columnNames := name <$> take 2 (filter (λ c, type c = numeric) columns) |} |}.

(** ** Numbers *)

(** [Number.isInteger(q)] *)
Definition isInteger (q : Q) : bool :=
  Z.eqb (Qnum q mod Zpos (Qden q)) 0.

(** [Math.round(q)]: nearest integer, a tie goes up. *)
Definition Math_round (q : Q) : Z := Qfloor (q + (1 # 2))%Q.

(** A number as the arithmetic of the language gives it: a finite
    value, an infinity or [NaN].  The sign of a zero is not kept: the
    code never divides by a computed number, and [String] prints both
    zeros alike. *)
Inductive num := Fin (q : Q) | PosInf | NegInf | NaN.

(** [-x] *)
Definition num_neg (x : num) : num :=
  match x with
  | Fin a => Fin (- a)
  | PosInf => NegInf
  | NegInf => PosInf
  | NaN => NaN
  end.

(** [Math.round(x)]: exact on a finite number, and the infinities and
    [NaN] are returned as they are. *)
Definition num_round (x : num) : num :=
  match x with
  | Fin a => Fin (inject_Z (Math_round a))
  | v => v
  end.

(** *** The rounding of binary64

    The value of the format that replaces the exact result of an
    operation: 53 significant bits, exponents from [-1022] to [1023],
    subnormal numbers below, to nearest with a tie going to the even
    significand, and an infinity beyond the finite values. *)

Module Binary64.

(** [2^e] *)
Definition pow2 (e : Z) : Q := (2 ^ e)%Q.

(** The exponent of a number above zero: the [e] with
    [2^e <= q < 2^(e+1)]. *)
Definition exponent (q : Q) : Z :=
  let e := (Z.log2 (Qnum q) - Z.log2 (Zpos (Qden q)))%Z in
  if Qle_bool (pow2 e) q then e else (e - 1)%Z.

(** The nearest whole number, a tie going to the even one. *)
Definition nearest_even (m : Q) : Z :=
  let f := Qfloor m in
  match (m - inject_Z f ?= 1 # 2)%Q with
  | Lt => f
  | Gt => (f + 1)%Z
  | Eq => if Z.even f then f else (f + 1)%Z
  end.

(** The exponent of the last place of a number above zero: 52 places
    below its own exponent, and [-1074] for a subnormal number. *)
Definition last_place (q : Q) : Z := (Z.max (exponent q) (-1022) - 52)%Z.

(** A number above zero rounded to 53 significant bits. *)
Definition round_pos (q : Q) : Q :=
  let u := pow2 (last_place q) in
  (inject_Z (nearest_even (q / u)) * u)%Q.

(** The value of binary64 nearest to [q]; a magnitude that rounds to
    [2^1024] or more overflows. *)
Definition round (q : Q) : num :=
  match (q ?= 0)%Q with
  | Eq => Fin 0
  | Gt =>
      let v := round_pos q in
      if Qle_bool (pow2 1024) v then PosInf else Fin (Qred v)
  | Lt =>
      let v := round_pos (- q) in
      if Qle_bool (pow2 1024) v then NegInf else Fin (Qred (- v))
  end.

End Binary64.

(** *** Arithmetic

    Each operation is the exact one followed by the rounding of
    binary64; the infinities and [NaN] combine as IEEE 754 has it. *)

(** [x + y] *)
Definition num_add (x y : num) : num :=
  match x, y with
  | NaN, _ | _, NaN => NaN
  | Fin a, Fin b => Binary64.round (a + b)
  | PosInf, NegInf | NegInf, PosInf => NaN
  | PosInf, _ | _, PosInf => PosInf
  | NegInf, _ | _, NegInf => NegInf
  end.

(** [x - y] *)
Definition num_sub (x y : num) : num := num_add x (num_neg y).

(** The product of an infinity and the finite number [a]. *)
Definition inf_times (inf : num) (a : Q) : num :=
  match (a ?= 0)%Q with
  | Eq => NaN
  | Gt => inf
  | Lt => num_neg inf
  end.

(** [x * y] *)
Definition num_mul (x y : num) : num :=
  match x, y with
  | NaN, _ | _, NaN => NaN
  | Fin a, Fin b => Binary64.round (a * b)
  | Fin a, inf | inf, Fin a => inf_times inf a
  | PosInf, PosInf | NegInf, NegInf => PosInf
  | PosInf, NegInf | NegInf, PosInf => NegInf
  end.

(** [x / d] for a finite [d] above zero: the divisors of the code are
    the literals 1000 and 100 and the length of a non-empty array. *)
Definition num_div (x : num) (d : Q) : num :=
  match x with
  | Fin a => Binary64.round (a / d)
  | v => v
  end.

(** [nums.length ? Math.min(...nums) : d], also written
    [Math.min(...(nums.length ? nums : [d]))]. *)
Definition min_or (d : Q) (nums : list Q) : Q :=
  match nums with
  | [] => d
  | x :: r => foldl Qmin x r
  end.

(** [nums.length ? Math.max(...nums) : d] *)
Definition max_or (d : Q) (nums : list Q) : Q :=
  match nums with
  | [] => d
  | x :: r => foldl Qmax x r
  end.

(** [Math.floor(r * len)] as an array index.  An index that is no
    whole number from zero on reads [undefined], as the index [len]
    does. *)
Definition rand_index (r : Q) (len : nat) : nat :=
  match num_mul (Fin r) (Fin (inject_Z (Z.of_nat len))) with
  | Fin v => if Qle_bool 0 v then Z.to_nat (Qfloor v) else len
  | _ => len
  end.

(** *** A concrete [Number] and [String] for decimal literals *)

Module Dec.

Definition digit (c : ascii) : option Z :=
  let n := nat_of_ascii c in
  if Nat.leb 48 n && Nat.leb n 57 then Some (Z.of_nat (n - 48)) else None.

(** Reads the longest prefix of digits: its value, its length, the rest. *)
Fixpoint read_digits (s : string) (acc : Z) (cnt : nat) : Z * nat * string :=
  match s with
  | String c s' =>
      match digit c with
      | Some d => read_digits s' (10 * acc + d) (S cnt)
      | None => (acc, cnt, s)
      end
  | EmptyString => (acc, cnt, s)
  end.

Definition unsigned (s : string) : option Q :=
  let '(ip, n1, rest) := read_digits s 0 0 in
  match rest with
  | EmptyString => if Nat.eqb n1 0 then None else Some (inject_Z ip)
  | String "." rest' =>
      let '(fp, n2, rest2) := read_digits rest' 0 0 in
      match rest2 with
      | EmptyString =>
          if Nat.eqb (n1 + n2) 0 then None
          else Some (Qred (Qmake (ip * 10 ^ Z.of_nat n2 + fp) (Z.to_pos (10 ^ Z.of_nat n2))))
      | _ => None
      end
  | _ => None
  end.

Definition string_of_N (n : N) : string :=
  NilZero.string_of_uint (N.to_uint n).

Fixpoint strip_zeros (s : string) : string :=
  match s with
  | EmptyString => EmptyString
  | String c s' =>
      match strip_zeros s' with
      | EmptyString => if Ascii.eqb c "0" then EmptyString else String c EmptyString
      | t => String c t
      end
  end.

Definition pad3 (n : N) : string :=
  let s := string_of_N n in
  match String.length s with
  | 1 => "00" ++ s
  | 2 => "0" ++ s
  | _ => s
  end.

End Dec.

(** The number that a plain decimal literal (optional sign, digits,
    optional fraction) or the empty string denotes. *)
Definition decimal_value (s : string) : option Q :=
  match Str.trim s with
  | EmptyString => Some 0%Q
  | String "-" s' => Qopp <$> Dec.unsigned s'
  | String "+" s' => Dec.unsigned s'
  | s' => Dec.unsigned s'
  end.

(** [Number(s)] on the plain decimal literals and on the empty string:
    the value of binary64 nearest to the number denoted.  Every other
    text is read as [NaN], which is what the builtin does except for
    exponent, radix-prefixed and [Infinity] forms; so is a literal
    beyond the finite values, which the builtin reads as an
    infinity. *)
Definition NumberDec (s : string) : option Q :=
  q ← decimal_value s;
  match Binary64.round q with
  | Fin v => Some v
  | _ => None
  end.

(** [String(q)] for the value of binary64 nearest to a number with at
    most three decimals (the numbers the generators print): that
    number. *)
Definition StringDec (q : Q) : string :=
  let n := Z.to_N (Math_round (Qabs q * 1000)%Q) in
  let ip := Dec.string_of_N (n / 1000) in
  let fp := Dec.strip_zeros (Dec.pad3 (n mod 1000)) in
  let body := match fp with EmptyString => ip | _ => ip ++ "." ++ fp end in
  if Qle_bool 0%Q q || N.eqb n 0 then body else "-" ++ body.

(** [s.toLowerCase()] on ASCII text. *)
Fixpoint toLowerCaseDec (s : string) : string :=
  match s with
  | EmptyString => EmptyString
  | String c s' => String (Str.lower c) (toLowerCaseDec s')
  end.

(** [Math.sqrt(q)] on the squares of whole numbers; the root of any
    other number is cut to a whole number. *)
Definition sqrtDec (q : Q) : Q := inject_Z (Z.sqrt (Qfloor q)).

(** ** The request body of [/api/generate_controlled] *)

(** A JSON value found in a constraint field, as far as [typeof]
    tells them apart. *)
Inductive jsval :=
  | JUndefined
  | JNull
  | JBool (b : bool)
  | JNumber (q : Q)
  | JString (s : string)
  | JObject.

Module User.
(** [constraints[col.name]]: the fields the request may carry. *)
Record t := mk { type : jsval; min : jsval; max : jsval }.
(** [{}] *)
Definition empty : t := mk JUndefined JUndefined JUndefined.
End User.

Module Meta.
(** An entry of [numericMeta]. *)
Record t := mk { min : Q; max : Q; int : bool }.
End Meta.

(** [typeof v === 'number' ? v : d] *)
Definition number_or (v : jsval) (d : Q) : Q :=
  match v with
  | JNumber q => q
  | _ => d
  end.

(** The number written for a numeric column from the draw [r]:
    [val = meta.min + r * (meta.max - meta.min)], then
    [meta.int ? Math.round(val) : Math.round(val * 1000) / 1000]. *)
Definition numeric_value (meta : Meta.t) (r : Q) : num :=
  let val := num_add (Fin (Meta.min meta))
               (num_mul (Fin r)
                  (num_sub (Fin (Meta.max meta)) (Fin (Meta.min meta)))) in
  if Meta.int meta then num_round val
  else num_div (num_round (num_mul val (Fin 1000))) 1000.

(** The generator's mutable state across rows: [synthSet] and the
    number of [Math.random()] calls made so far. *)
Record GenState := mkState {
  synthSet : list string;
  draws : nat
}.

(** [relationPools]: keys in insertion order. *)
Abbreviation Pools := (list (string * list (cell * cell))).

(** [pools[key] = pool]: a fresh key goes last, a known key keeps its
    place. *)
Fixpoint pools_set (key : string) (pool : list (cell * cell)) (pools : Pools) : Pools :=
  match pools with
  | [] => [(key, pool)]
  | (k, p) :: r =>
      if decide (k = key) then (k, pool) :: r else (k, p) :: pools_set key pool r
  end.

(** ** The analyzer's suggestions *)

(** ['int'], ['float'], ['categorical'] *)
Inductive SuggestedType := int_type | float_type | categorical_type.

Module Suggestions.
(** [suggestions]: [min] and [max] are absent for a categorical column. *)
Record t := mk { type : SuggestedType; min : option Q; max : option Q }.
End Suggestions.

Module DType.
(** An entry of [dtypes]. *)
Record t := mk {
  name : string;
  dtype : SuggestedType;
  suggestions : Suggestions.t
}.
End DType.

(** The request that the model selection page makes of the analysis. *)
Module ModelsPage.

Definition type_name (t : SuggestedType) : string :=
  match t with
  | int_type => "int"
  | float_type => "float"
  | categorical_type => "categorical"
  end.

(** A bound of the suggestions as the page reads it: a number, or
    [undefined] when the suggestion has none. *)
Definition field (q : option Q) : jsval :=
  match q with
  | Some x => JNumber x
  | None => JUndefined
  end.

(** [seeded]: one entry [{type, min, max}] per entry of [dtypes], a
    later entry replacing an earlier one of the same name. *)
Definition seed (dtypes : list DType.t) : gmap string User.t :=
  foldl (λ seeded d,
           <[DType.name d :=
               User.mk (JString (type_name (Suggestions.type (DType.suggestions d))))
                       (field (Suggestions.min (DType.suggestions d)))
                       (field (Suggestions.max (DType.suggestions d)))]> seeded)
        ∅ dtypes.

(** [colsToSynth.length > 0 ? colsToSynth : (analyze?.columns ?? [])] *)
Definition selected (colsToSynth columns : list string) : list string :=
  match colsToSynth with
  | [] => columns
  | _ => colsToSynth
  end.

End ModelsPage.

(** The result of [jsParseCSV]. *)
Record Parsed := mkParsed {
  headers : list string;
  rows : list (list string);
  columns : list Column
}.

(** ** The in-memory storage ([InMemoryStorage])

    The three arrays of the class are lists; an identifier returned by
    [this.id()] and a time returned by [new Date()] are arguments of
    the operation that asks for them.  A time is the number of
    milliseconds [getTime()] gives.  The JSON payloads the storage
    only carries around ([parameters], the evaluation report) are type
    parameters. *)

(** An entry of [columns] as the upload handler computes it. *)
Module UploadColumn.
Record t := mk { name : string; type : ColType; nullCount : nat }.
End UploadColumn.

(** What [parseCSV] of the upload page shows of a file. *)
Module Preview.
Record t := mk {
  headers : list string;
  rows : list (list string);
  columns : list UploadColumn.t;
  rowCount : nat
}.
End Preview.

(** The counts shown on the download page. *)
Module DownloadPage.

(** [generation?.syntheticData?.split('\n').length || 0] *)
Definition rows (syntheticData : option string) : nat :=
  match syntheticData with
  | Some s => List.length (Str.split Str.LF s)
  | None => 0%nat
  end.

(** [generation?.syntheticData?.split('\n')[0]?.split(',').length || 0] *)
Definition columns (syntheticData : option string) : nat :=
  match syntheticData with
  | Some s =>
      match Str.split Str.LF s !! 0%nat with
      | Some l => List.length (Str.split "," l)
      | None => 0%nat
      end
  | None => 0%nat
  end.

End DownloadPage.

(** The counts and the samples shown on the results page. *)
Module ResultsPage.

(** [generation?.syntheticData?.trim().split('\n') || []] *)
Definition syntheticLines (syntheticData : option string) : list string :=
  match syntheticData with
  | Some s => Str.split Str.LF (Str.trim s)
  | None => []
  end.

(** [syntheticLines[0]?.split(',') || []] *)
Definition syntheticHeaders (syntheticData : option string) : list string :=
  match syntheticLines syntheticData !! 0%nat with
  | Some l => Str.split "," l
  | None => []
  end.

(** [metrics.totalRows]: [syntheticLines.length - 1], the header
    excluded. *)
Definition totalRows (syntheticData : option string) : Z :=
  (Z.of_nat (List.length (syntheticLines syntheticData)) - 1)%Z.

(** [metrics.totalColumns] *)
Definition totalColumns (syntheticData : option string) : nat :=
  List.length (syntheticHeaders syntheticData).



End ResultsPage.

Module InsertDataset.
Record t := mk {
  name : string;
  originalFilename : string;
  rowCount : nat;
  columnCount : nat;
  columns : list UploadColumn.t;
  fileData : string
}.
End InsertDataset.

Module Dataset.
Record t := mk {
  id : string;
  uploadedAt : Z;
  name : string;
  originalFilename : string;
  rowCount : nat;
  columnCount : nat;
  columns : list UploadColumn.t;
  fileData : string
}.
End Dataset.

Module InsertGeneration.
Record t (P : Type) := mk {
  datasetId : string;
  modelType : string;
  status : string;
  parameters : P;
  syntheticData : option string;
  errorMessage : option string
}.
Arguments mk {P}.
Arguments datasetId {P}.
Arguments modelType {P}.
Arguments status {P}.
Arguments parameters {P}.
Arguments syntheticData {P}.
Arguments errorMessage {P}.
End InsertGeneration.

Module Generation.
Record t (P : Type) := mk {
  id : string;
  generatedAt : Z;
  datasetId : string;
  modelType : string;
  status : string;
  parameters : P;
  syntheticData : option string;
  errorMessage : option string;
  completedAt : option Z
}.
Arguments mk {P}.
Arguments id {P}.
Arguments generatedAt {P}.
Arguments datasetId {P}.
Arguments modelType {P}.
Arguments status {P}.
Arguments parameters {P}.
Arguments syntheticData {P}.
Arguments errorMessage {P}.
Arguments completedAt {P}.
End Generation.

(** [Partial<Generation>]: [None] is a field the object does not have. *)
Module GenerationPatch.
Record t (P : Type) := mk {
  id : option string;
  generatedAt : option Z;
  datasetId : option string;
  modelType : option string;
  status : option string;
  parameters : option P;
  syntheticData : option (option string);
  errorMessage : option (option string);
  completedAt : option (option Z)
}.
Arguments mk {P}.
Arguments id {P}.
Arguments generatedAt {P}.
Arguments datasetId {P}.
Arguments modelType {P}.
Arguments status {P}.
Arguments parameters {P}.
Arguments syntheticData {P}.
Arguments errorMessage {P}.
Arguments completedAt {P}.
End GenerationPatch.

Module InsertEvaluation.
Record t (R : Type) := mk { generationId : string; report : R }.
Arguments mk {R}.
Arguments generationId {R}.
Arguments report {R}.
End InsertEvaluation.

Module StoredEvaluation.
Record t (R : Type) := mk {
  id : string;
  evaluatedAt : Z;
  generationId : string;
  report : R
}.
Arguments mk {R}.
Arguments id {R}.
Arguments evaluatedAt {R}.
Arguments generationId {R}.
Arguments report {R}.
End StoredEvaluation.

Module Store.

Record t (P R : Type) := mk {
  datasets : list Dataset.t;
  generations : list (Generation.t P);
  evaluations : list (StoredEvaluation.t R)
}.
Arguments mk {P R}.
Arguments datasets {P R}.
Arguments generations {P R}.
Arguments evaluations {P R}.

(** [new InMemoryStorage()] *)
Definition empty {P R : Type} : t P R := mk [] [] [].

(** Where [x] goes into a list sorted by decreasing [key]: before the
    first element whose key is not greater. *)
Fixpoint insert_desc {A : Type} (key : A → Z) (x : A) (l : list A) : list A :=
  match l with
  | [] => [x]
  | y :: r => if (key y <=? key x)%Z then x :: y :: r else y :: insert_desc key x r
  end.

(** [[...l].sort((a, b) => key(b) - key(a))]: the sort of the language
    is stable, so the result is the one list that is sorted by
    decreasing key and keeps elements of equal key in their order. *)
Definition sort_desc {A : Type} (key : A → Z) (l : list A) : list A :=
  foldr (insert_desc key) [] l.

(** [{ ...g, ...data }] *)
Definition merge {P : Type} (g : Generation.t P) (data : GenerationPatch.t P)
  : Generation.t P :=
  Generation.mk
    (default (Generation.id g) (GenerationPatch.id data))
    (default (Generation.generatedAt g) (GenerationPatch.generatedAt data))
    (default (Generation.datasetId g) (GenerationPatch.datasetId data))
    (default (Generation.modelType g) (GenerationPatch.modelType data))
    (default (Generation.status g) (GenerationPatch.status data))
    (default (Generation.parameters g) (GenerationPatch.parameters data))
    (default (Generation.syntheticData g) (GenerationPatch.syntheticData data))
    (default (Generation.errorMessage g) (GenerationPatch.errorMessage data))
    (default (Generation.completedAt g) (GenerationPatch.completedAt data)).

Section Operations.

Context {P R : Type}.

Definition createDataset (newId : string) (now : Z) (insertDataset : InsertDataset.t)
    (st : t P R) : Dataset.t * t P R :=
  let item :=
    Dataset.mk newId now
      (InsertDataset.name insertDataset)
      (InsertDataset.originalFilename insertDataset)
      (InsertDataset.rowCount insertDataset)
      (InsertDataset.columnCount insertDataset)
      (InsertDataset.columns insertDataset)
      (InsertDataset.fileData insertDataset) in
  (item, mk (datasets st ++ [item])%list (generations st) (evaluations st)).

Definition getDataset (id : string) (st : t P R) : option Dataset.t :=
  find (λ d, bool_decide (Dataset.id d = id)) (datasets st).

Definition getAllDatasets (st : t P R) : list Dataset.t :=
  sort_desc Dataset.uploadedAt (datasets st).

Definition deleteDataset (id : string) (st : t P R) : t P R :=
  let datasets' := filter (λ d, Dataset.id d ≠ id) (datasets st) in
  let generations' := filter (λ g, Generation.datasetId g ≠ id) (generations st) in
  let evaluations' :=
    filter (λ e, find (λ g, bool_decide (Generation.id g = StoredEvaluation.generationId e))
                      generations' = None)
           (evaluations st) in
  mk datasets' generations' evaluations'.

Definition createGeneration (newId : string) (now : Z)
    (insertGeneration : InsertGeneration.t P) (st : t P R)
  : Generation.t P * t P R :=
  let item :=
    Generation.mk newId now
      (InsertGeneration.datasetId insertGeneration)
      (InsertGeneration.modelType insertGeneration)
      (InsertGeneration.status insertGeneration)
      (InsertGeneration.parameters insertGeneration)
      (InsertGeneration.syntheticData insertGeneration)
      (InsertGeneration.errorMessage insertGeneration)
      None in
  (item, mk (datasets st) (generations st ++ [item])%list (evaluations st)).

Definition getGeneration (id : string) (st : t P R) : option (Generation.t P) :=
  find (λ g, bool_decide (Generation.id g = id)) (generations st).

Definition getGenerationsByDataset (datasetId : string) (st : t P R)
  : list (Generation.t P) :=
  sort_desc Generation.generatedAt
    (filter (λ g, Generation.datasetId g = datasetId) (generations st)).

(** [None] is the [undefined] returned when [findIndex] gives [-1]. *)
Definition updateGeneration (id : string) (data : GenerationPatch.t P) (st : t P R)
  : option (Generation.t P) * t P R :=
  match list_find (λ g, Generation.id g = id) (generations st) with
  | None => (None, st)
  | Some (idx, g) =>
      let g' := merge g data in
      (Some g', mk (datasets st) (<[idx := g']> (generations st)) (evaluations st))
  end.

Definition getLatestGeneration (st : t P R) : option (Generation.t P) :=
  head (sort_desc Generation.generatedAt (generations st)).

Definition createEvaluation (newId : string) (now : Z)
    (insertEvaluation : InsertEvaluation.t R) (st : t P R)
  : StoredEvaluation.t R * t P R :=
  let item :=
    StoredEvaluation.mk newId now
      (InsertEvaluation.generationId insertEvaluation)
      (InsertEvaluation.report insertEvaluation) in
  (item, mk (datasets st) (generations st) (evaluations st ++ [item])%list).

Definition getEvaluationByGeneration (generationId : string) (st : t P R)
  : option (StoredEvaluation.t R) :=
  find (λ e, bool_decide (StoredEvaluation.generationId e = generationId))
       (evaluations st).

(** *** The handlers' use of the storage *)

(** What a fallback run of [/api/generate] or
    [/api/generate_controlled] stores: the generation record created
    as [processing], its update to [completed] with the synthetic
    table, and the evaluation record. *)
Definition store_fallback_run (generationId : string) (created : Z)
    (datasetId modelType : string) (parameters : P) (syntheticCsv : string)
    (completed : Z) (evaluationId : string) (evaluated : Z) (evaluation : R)
    (st : t P R)
  : option (Generation.t P) * StoredEvaluation.t R * t P R :=
  let '(generation, st1) :=
    createGeneration generationId created
      (InsertGeneration.mk datasetId modelType "processing" parameters None None)
      st in
  let '(updated, st2) :=
    updateGeneration (Generation.id generation)
      (GenerationPatch.mk None None None None (Some "completed") None
         (Some (Some syntheticCsv)) None (Some (Some completed)))
      st1 in
  let '(ev, st3) :=
    createEvaluation evaluationId evaluated
      (InsertEvaluation.mk (Generation.id generation) evaluation) st2 in
  (updated, ev, st3).

(** [/api/download_synthetic/:datasetId]: the body sent, [None] for the
    404 answer. *)
Definition download_synthetic (datasetId : string) (st : t P R) : option string :=
  match getGenerationsByDataset datasetId st with
  | latest :: _ =>
      match Generation.syntheticData latest with
      | Some data => if decide (data = "") then None else Some data
      | None => None
      end
  | [] => None
  end.

(** [/api/download/:id]: the body sent, [None] for a 404 answer. *)
Definition download (id : string) (st : t P R) : option string :=
  match getGeneration id st with
  | Some generation =>
      match Generation.syntheticData generation with
      | Some data => if decide (data = "") then None else Some data
      | None => None
      end
  | None => None
  end.

End Operations.

End Store.

(** ** Inputs of the scenarios *)

(** A generator that always returns [1/2]. *)
Definition random_half : nat → Q := λ _, (1 # 2)%Q.

(** A generator that always returns [0]. *)
Definition random_zero : nat → Q := λ _, 0%Q.


(** The table [name,age] of three people. *)
Definition people_csv : string :=
  "name,age
Alice,30
Bob,40
Carol,50".

Definition people_headers : list string := ["name"; "age"].

Definition people_rows : list (list string) :=
  [["Alice"; "30"]; ["Bob"; "40"]; ["Carol"; "50"]].

(** [{age: {type: "int", min: 25, max: 60}}] *)
Definition age_25_60 : gmap string User.t :=
  {["age" := User.mk (JString "int") (JNumber 25) (JNumber 60)]}.


(** [{age: {min: "25", max: null}}] *)
Definition age_not_numbers : gmap string User.t :=
  {["age" := User.mk JUndefined (JString "25") JNull]}.






(** A table whose second row has no cell for column [b]. *)
Definition ragged_csv : string :=
  "a,b
x,y
z".

Definition ragged_headers : list string := ["a"; "b"].

Definition ragged_rows : list (list string) := [["x"; "y"]; ["z"]].

(** A table with the header name [x] at two positions. *)
Definition twin_headers : list string := ["x"; "x"].

Definition twin_rows : list (list string) := [["1"; "2"]].

(** The table of countries as a file with Windows line ends and a
    third column. *)
Definition country_csv : string :=
  "country_code,Country_Name,zip" ++ String Str.CR (String Str.LF
  "US,United States,10001") ++ String Str.CR (String Str.LF
  "FR,France,75001").

(** A file with a year column whose values lie outside the calendar
    range, a fractional numeric column and a text column. *)
Definition kinds_csv : string :=
  "Birth_Year,price,city
1850.5,1.5,Paris
2030,2,Oslo".

(** A file of one numeric column with a blank cell. *)
Definition scores_csv : string :=
  "id,score
a,10
b,
c,20".

(** A store with one dataset, two generations made from it, one
    generation of a dataset since removed, and two evaluations. *)
Definition demo_parameters : list (string * Z) := [("epochs", 300%Z)].

Definition demo_dataset : Dataset.t :=
  Dataset.mk "d1" 1000%Z "people.csv" "people.csv" 3 2
    [UploadColumn.mk "name" categorical 0; UploadColumn.mk "age" numeric 0]
    people_csv.

Definition demo_generation (id : string) (at_ : Z) (datasetId : string)
  : Generation.t (list (string * Z)) :=
  Generation.mk id at_ datasetId "auto" "completed" demo_parameters
    (Some "name,age") None (Some (at_ + 5)%Z).

Definition demo_store : Store.t (list (string * Z)) Evaluation :=
  Store.mk [demo_dataset]
    [demo_generation "g1" 2000%Z "d1"; demo_generation "g2" 3000%Z "d1";
     demo_generation "g3" 2500%Z "d2"]
    [StoredEvaluation.mk "e1" 2010%Z "g1" (jsEvaluate [] []);
     StoredEvaluation.mk "e3" 2510%Z "g3" (jsEvaluate [] [])].

(** ** The fallback code *)

Section Fallback.

(** [Number(s)] on a string; [None] is [NaN]. *)
Variable Number : string → option Q.

(** [String(q)] on a number. *)
Variable String_ : Q → string.

(** The successive results of [Math.random()]. *)
Variable random : nat → Q.

(** [String(x)] *)
Definition String_num (x : num) : string :=
  match x with
  | Fin a => String_ a
  | PosInf => "Infinity"
  | NegInf => "-Infinity"
  | NaN => "NaN"
  end.

(** [Number(v)] on a cell: [Number(undefined)] is [NaN]. *)
Definition NumberCell (v : cell) : option Q := v ≫= Number.

(** [vals.map(v => Number(v)).filter(n => !Number.isNaN(n))] *)
Definition nums_of (vals : list cell) : list Q := omap NumberCell vals.

(** [vals.every(v => !isNaN(Number(v)))] *)
Definition all_numbers (vals : list cell) : bool :=
  forallb (λ v, bool_decide (is_Some (NumberCell v))) vals.

(** [rows.map(r => r[idx]).filter(v => v !== '')]: a row too short to
    have a cell at [idx] contributes [undefined], which the filter
    keeps. *)
Definition column_values (rows : list (list string)) (idx : nat) : list cell :=
  filter (λ v, v ≠ Some "") ((λ r, r !! idx) <$> rows).

(** The [columns] of [jsParseCSV]. *)
Definition jsColumns (headers : list string) (rows : list (list string))
  : list Column :=
  imap (λ idx name,
          let vals := column_values rows idx in
          let isNum := all_numbers (take 100 vals) in
          mkColumn name (if isNum then numeric else categorical) vals)
       headers.

(** [jsParseCSV(csv)] *)
Definition jsParseCSV (csv : string) : Parsed :=
  let lines := Str.split_lines (Str.trim csv) in
  let headers := Str.trim <$> Str.split "," (hd "" lines) in
  let rows := (λ l, Str.trim <$> Str.split "," l) <$> tail lines in
  mkParsed headers rows (jsColumns headers rows).

(** *** [/api/analyze_dataset]: one entry of [dtypes] *)

Definition suggest (name : string) (vals : list cell) : Suggestions.t :=
  let numeric := all_numbers (take 200 vals) in
  if Str.contains_ci "year" name then
    let nums := nums_of vals in
    let min := Qmax 1900 (inject_Z (Qfloor (min_or 1900 nums))) in
    let max := Qmin 2025 (inject_Z (Qceiling (max_or 2025 nums))) in
    Suggestions.mk int_type (Some min) (Some max)
  else if numeric then
    let nums := nums_of vals in
    let min := min_or 0 nums in
    let max := max_or 1 nums in
    Suggestions.mk
      (if isInteger min && isInteger max then int_type else float_type)
      (Some min) (Some max)
  else
    Suggestions.mk categorical_type None None.

Definition analyze_dtypes (headers : list string) (rows : list (list string))
  : list DType.t :=
  imap (λ idx name,
          let s := suggest name (column_values rows idx) in
          DType.mk name (Suggestions.type s) s)
       headers.

(** *** [/api/generate_controlled]: the controlled fallback *)

Section Controlled.

Variable headers : list string.
Variable rows : list (list string).
(** [dataset.rowCount] *)
Variable rowCount : nat.
(** [cols_to_synthesize || []] *)
Variable cols_to_synthesize : list string.
(** [constraints], the empty map when the request has none. *)
Variable constraints : gmap string User.t.
(** [relations], the empty list when it is not an array. *)
Variable relations : list (list string).

Definition columns_ : list Column := jsColumns headers rows.

(** [new Set(cols.filter(c => headers.includes(c)))] *)
Definition synthSet0 : list string :=
  uniq (filter (λ c, c ∈ headers) cols_to_synthesize).

(** [(constraints && constraints[name]) || {}] *)
Definition user_of (name : string) : User.t :=
  default User.empty (constraints !! name).

(** The entry of [numericMeta] computed for [col]. *)
Definition meta_of (col : Column) : Meta.t :=
  let nums := nums_of (values col) in
  let min := min_or 0 nums in
  let max := max_or 1 nums in
  let int := isInteger min && isInteger max in
  let user := user_of (name col) in
  Meta.mk (number_or (User.min user) min) (number_or (User.max user) max) int.

Definition numericMeta : gmap string Meta.t :=
  foldl (λ m col,
           if decide (name col ∈ synthSet0) then <[name col := meta_of col]> m
           else m)
        ∅ columns_.

(** [rows.map(r => [r[headers.indexOf(a)], r[headers.indexOf(b)]])] *)
Definition pool_of (a b : string) : list (cell * cell) :=
  (λ r, (at_indexOf r headers a, at_indexOf r headers b)) <$> rows.

Definition relationPools : Pools :=
  foldl (λ pools pair,
           match pair with
           | [a; b] =>
               if decide (a ∈ synthSet0 ∧ b ∈ synthSet0)
               then pools_set (a ++ "|" ++ b) (pool_of a b) pools
               else pools
           | _ => pools
           end)
        [] relations.

(** [original]: the loop [original[headers[h]] = rows[i]?.[h] ?? '']
    from position [h] on. *)
Fixpoint seed_from (h : nat) (hs : list string) (row : option (list string))
    (m : Row) : Row :=
  match hs with
  | [] => m
  | n :: hs' =>
      seed_from (S h) hs' row (set_prop n (Some (nullish (row ≫= (λ r, r !! h)))) m)
  end.

Definition original (i : nat) : Row := seed_from 0 headers (rows !! i) ∅.

(** One turn of the loop over [Object.keys(relationPools)].  A key is
    [a|b], so its split has two components at least; the pool is
    indexed within its length because a draw is below one. *)
Definition apply_relation (acc : Row * GenState) (kp : string * list (cell * cell))
  : Row * GenState :=
  let '(newRow, st) := acc in
  let '(key, pool) := kp in
  match Str.split "|" key, pool with
  | a :: b :: _, _ :: _ =>
      let pick := pool !! rand_index (random (draws st)) (length pool) in
      let newRow := set_prop a (Some (nullish (pick ≫= fst))) newRow in
      let newRow := set_prop b (Some (nullish (pick ≫= snd))) newRow in
      (newRow,
       mkState (filter (λ c, c ≠ b) (filter (λ c, c ≠ a) (synthSet st)))
               (S (draws st)))
  | _, _ => acc
  end.

(** One turn of the loop over [Array.from(synthSet)]. *)
Definition synth_column (acc : Row * nat) (colName : string) : Row * nat :=
  let '(newRow, k) := acc in
  let meta := numericMeta !! colName in
  match find (λ c, bool_decide (name c = colName)) columns_ with
  | None => acc
  | Some colInfo =>
      match type colInfo, meta with
      | numeric, Some meta =>
          (set_prop colName (Some (String_num (numeric_value meta (random k)))) newRow,
           S k)
      | _, _ =>
          match uniq (values colInfo) with
          | [] => (set_prop colName (Some "") newRow, k)
          | u =>
              (set_prop colName (mjoin (u !! rand_index (random k) (length u))) newRow,
               S k)
          end
      end
  end.

(** The relation phase of row [i]. *)
Definition after_relations (i : nat) (st : GenState) : Row * GenState :=
  foldl apply_relation (original i, st) relationPools.

(** The body of the row loop: the new row and the state it leaves. *)
Definition genRow (i : nat) (st : GenState) : Row * GenState :=
  let '(newRow, st1) := after_relations i st in
  let '(newRow, k) := foldl synth_column (newRow, draws st1) (synthSet st1) in
  (newRow, mkState (synthSet st1) k).

(** [n] turns of the row loop from row [i] on. *)
Fixpoint rowLoop (n i : nat) (st : GenState) : list Row * GenState :=
  match n with
  | O => ([], st)
  | S n' =>
      let '(r, st1) := genRow i st in
      let '(rs, st2) := rowLoop n' (S i) st1 in
      (r :: rs, st2)
  end.

Definition outRows : list Row :=
  fst (rowLoop rowCount 0 (mkState synthSet0 0)).

(** [headers.map(h => r[h] ?? '')] *)
Definition row_cells (r : Row) : list string :=
  (λ h, nullish (get r h)) <$> headers.

(** The array handed to the final [join]: header line, then the rows. *)
Definition csvLines : list string :=
  Str.join "," headers :: ((λ r, Str.join "," (row_cells r)) <$> outRows).

Definition syntheticCsv : string := Str.join (String Str.LF "") csvLines.

End Controlled.

(** The fallback of the handler, from the stored dataset. *)
Definition generate_controlled (fileData : string) (rowCount : nat)
    (cols_to_synthesize : list string) (constraints : gmap string User.t)
    (relations : list (list string)) : string * Evaluation :=
  let parsed := jsParseCSV fileData in
  let outs := outRows (headers parsed) (rows parsed) rowCount
                      cols_to_synthesize constraints relations in
  (syntheticCsv (headers parsed) (rows parsed) rowCount
                cols_to_synthesize constraints relations,
   jsEvaluate (columns parsed) outs).

(** *** [/api/generate_controlled]: the last resort

    The fallback taken when the answer of the external generator
    cannot be handled: the seeds of the rows, nothing synthesized. *)

(** [n] turns of the loop that pushes [base], from row [i] on. *)
Fixpoint baseRows (headers : list string) (rows : list (list string))
    (n i : nat) : list Row :=
  match n with
  | O => []
  | S n' => original headers rows i :: baseRows headers rows n' (S i)
  end.

Definition last_resort (fileData : string) (rowCount : nat) : string * Evaluation :=
  let parsed := jsParseCSV fileData in
  let outs := baseRows (headers parsed) (rows parsed) rowCount 0 in
  (Str.join (String Str.LF "")
     (Str.join "," (headers parsed)
      :: ((λ r, Str.join "," (row_cells (headers parsed) r)) <$> outs)),
   jsEvaluate (columns parsed) outs).

(** *** [/api/generate]: the unconstrained fallback [jsGenerate] *)

(** [Math.sqrt(q)] *)
Variable Math_sqrt : Q → Q.

(** [Math.sqrt(x)]: [NaN] below zero. *)
Definition num_sqrt (x : num) : num :=
  match x with
  | Fin a => if Qle_bool 0 a then Fin (Math_sqrt a) else NaN
  | PosInf => PosInf
  | NegInf | NaN => NaN
  end.

(** [nums.length ? nums.reduce((a, b) => a + b, 0) / nums.length : 0] *)
Definition mean_of (nums : list Q) : num :=
  match nums with
  | [] => Fin 0
  | _ =>
      num_div (foldl (λ a b, num_add a (Fin b)) (Fin 0) nums)
              (inject_Z (Z.of_nat (length nums)))
  end.

(** [nums.length
      ? Math.sqrt(nums.reduce((a, b) => a + (b - mean) * (b - mean), 0) / nums.length)
      : 1] *)
Definition std_of (nums : list Q) : num :=
  let mean := mean_of nums in
  match nums with
  | [] => Fin 1
  | _ =>
      num_sqrt
        (num_div
           (foldl (λ a b,
                     num_add a (num_mul (num_sub (Fin b) mean) (num_sub (Fin b) mean)))
                  (Fin 0) nums)
           (inject_Z (Z.of_nat (length nums))))
  end.

(** The number written for a numeric column from the draw [r]:
    [val = mean + std * 1.0 * (r * 2 - 1)], then
    [Math.round(val * 100) / 100]. *)
Definition generated_value (nums : list Q) (r : Q) : num :=
  let val := num_add (mean_of nums)
               (num_mul (num_mul (std_of nums) (Fin 1))
                  (num_sub (num_mul (Fin r) (Fin 2)) (Fin 1))) in
  num_div (num_round (num_mul val (Fin 100))) 100.

(** One turn of the loop over [columns]. *)
Definition generate_cell (acc : Row * nat) (col : Column) : Row * nat :=
  let '(row, k) := acc in
  match type col with
  | numeric =>
      let nums := nums_of (values col) in
      (set_prop (name col) (Some (String_num (generated_value nums (random k)))) row, S k)
  | categorical =>
      match uniq (values col) with
      | [] => (set_prop (name col) (Some "") row, k)
      | u =>
          (set_prop (name col) (mjoin (u !! rand_index (random k) (length u))) row, S k)
      end
  end.

(** [n] turns of the row loop of [jsGenerate], [k] draws having been
    made before. *)
Fixpoint generate_rows (columns : list Column) (n k : nat) : list Row * nat :=
  match n with
  | O => ([], k)
  | S n' =>
      let '(row, k1) := foldl generate_cell (∅, k) columns in
      let '(out, k2) := generate_rows columns n' k1 in
      (row :: out, k2)
  end.

(** [jsGenerate(rows, columns, rowCount)]; [rows] is not read. *)
Definition jsGenerate (rows : list (list string)) (columns : list Column)
    (rowCount : nat) : list Row :=
  fst (generate_rows columns rowCount 0).

(** The fallback of the [/api/generate] handler. *)
Definition generate (fileData : string) (rowCount : nat) : string * Evaluation :=
  let parsed := jsParseCSV fileData in
  let synthRows := jsGenerate (rows parsed) (columns parsed) rowCount in
  (Str.join (String Str.LF "")
     (Str.join "," (headers parsed)
      :: ((λ r, Str.join "," (row_cells (headers parsed) r)) <$> synthRows)),
   jsEvaluate (columns parsed) synthRows).

(** *** [/api/upload]: the analysis stored with the dataset *)

(** [cells[index]?.trim() || ''] for each line of [dataRows]. *)
Definition upload_values (dataRows : list string) (index : nat) : list string :=
  (λ row, default "" (Str.trim <$> (Str.split "," row !! index))) <$> dataRows.

Definition upload_columns (headers : list string) (dataRows : list string)
  : list UploadColumn.t :=
  imap (λ index name,
          let columnValues := upload_values dataRows index in
          let nonEmptyValues := filter (λ v, v ≠ "") columnValues in
          let nullCount := length columnValues - length nonEmptyValues in
          let isNumeric :=
            forallb (λ v, bool_decide (is_Some (Number v))) (take 100 nonEmptyValues) in
          UploadColumn.mk name (if isNumeric then numeric else categorical) nullCount)
       headers.

(** The record handed to [storage.createDataset]. *)
Definition upload (originalname : string) (csvData : string) : InsertDataset.t :=
  let lines := Str.split Str.LF (Str.trim csvData) in
  let headers := Str.trim <$> Str.split "," (hd "" lines) in
  let dataRows := tail lines in
  InsertDataset.mk originalname originalname (length dataRows) (length headers)
    (upload_columns headers dataRows) csvData.

(** *** The upload page: [parseCSV] *)

(** [v && v !== ''] *)
Definition non_null (v : cell) : Prop := v ≠ None ∧ v ≠ Some "".

#[global] Instance non_null_dec (v : cell) : Decision (non_null v).
Proof. unfold non_null. apply _. Defined.

Definition parseCSV (content : string) : Preview.t :=
  let lines := Str.split Str.LF (Str.trim content) in
  let headers := Str.trim <$> Str.split "," (hd "" lines) in
  let dataRows := (λ line, Str.trim <$> Str.split "," line) <$> tail lines in
  let columns :=
    imap (λ index name,
            let columnValues := (λ row, row !! index) <$> dataRows in
            let nullCount := length (filter (λ v, ¬ non_null v) columnValues) in
            let nonNullValues := filter non_null columnValues in
            let isNumeric := all_numbers nonNullValues in
            UploadColumn.mk name (if isNumeric then numeric else categorical) nullCount)
         headers in
  Preview.mk headers (take 10 dataRows) columns (length dataRows).

(** *** [/api/analyze_dataset]: the suggested relations *)

(** [s.toLowerCase()] *)
Variable toLowerCase : string → string.

(** [/p$/i.test(s)] for a pattern [p] of ASCII letters: [s] ends with a
    case-insensitive occurrence of [p]. *)
Fixpoint ends_with_ci (p s : string) : bool :=
  (Nat.eqb (String.length s) (String.length p) && Str.prefix_ci p s)
  || match s with
     | EmptyString => false
     | String _ s' => ends_with_ci p s'
     end.

(** [s.replace(/p$/, q)] for a pattern [p] of plain characters: the
    occurrence of [p] that ends [s], if there is one, becomes [q]. *)
Fixpoint replace_suffix (p q s : string) : string :=
  if String.eqb s p then q
  else match s with
       | EmptyString => EmptyString
       | String c s' => String c (replace_suffix p q s')
       end.

(** One turn of the loop over [codeCols]; an empty name found is not
    taken, being falsy. *)
Definition suggest_for (headers : list string) (relations : list (list string))
    (c : string) : list (list string) :=
  match find (λ h, bool_decide (toLowerCase h
                                = replace_suffix "code" "name" (toLowerCase c)))
             headers with
  | Some nameCol =>
      if decide (nameCol = "") then relations else (relations ++ [[c; nameCol]])%list
  | None => relations
  end.

Definition suggest_relations (headers : list string) : list (list string) :=
  let codeCols := filter (λ h, ends_with_ci "code" h = true) headers in
  foldl (suggest_for headers) [] codeCols.

(** The answer of [/api/analyze_dataset]: [columns], [dtypes],
    [relations]. *)
Definition analyze_dataset (fileData : string)
  : list string * list DType.t * list (list string) :=
  let lines := Str.split_lines (Str.trim fileData) in
  let headers := Str.trim <$> Str.split "," (hd "" lines) in
  let rows := (λ l, Str.trim <$> Str.split "," l) <$> tail lines in
  (headers, analyze_dtypes headers rows, suggest_relations headers).

(** *** Notions used to state the properties *)

(** The two names a key of [relationPools] is split into. *)
Definition key_names (key : string) : list string :=
  match Str.split "|" key with
  | a :: b :: _ => [a; b]
  | _ => []
  end.

(** Every name some relation key writes to. *)
Definition relation_targets (pools : Pools) : list string :=
  flat_map (λ kp, key_names (fst kp)) pools.

(** The character [c] does not occur in [s]. *)
Fixpoint free_of (c : ascii) (s : string) : bool :=
  match s with
  | EmptyString => true
  | String x s' => negb (Ascii.eqb x c) && free_of c s'
  end.

(** The name has no bar in it. *)
Definition no_bar (s : string) : bool := free_of "|" s.



(** A cell as the parsers leave it: trimmed, with no comma and no line
    feed in it. *)
Definition clean (s : string) : Prop :=
  Str.trim s = s ∧ free_of "," s = true ∧ free_of Str.LF s = true.

(** No blank and no comma occurs in [s]. *)
Fixpoint solid (s : string) : bool :=
  match s with
  | EmptyString => true
  | String c s' => negb (Str.is_space c) && negb (Ascii.eqb c ",") && solid s'
  end.

(** Every text stored in the row is clean. *)
Definition row_clean (r : Row) : Prop := ∀ h s, r !! h = Some (Some s) → clean s.

(** [[headers.join(','), ...rows.map(r => r.join(','))].join('\n')]:
    the text the handlers make of a table. *)
Definition table_text (hs : list string) (rws : list (list string)) : string :=
  Str.join (String Str.LF "") (Str.join "," hs :: (Str.join "," <$> rws)).

(** The text reads as a table of [n] rows under the header [hs], for
    the parser and for the counts of the download and results pages;
    the download page counts the header line as a row.  The text is
    not empty, so the download routes take it for data. *)
Definition shows_table (text : string) (hs : list string) (n : nat) : Prop :=
  headers (jsParseCSV text) = hs
  ∧ length (rows (jsParseCSV text)) = n
  ∧ Forall (λ row, length row = length hs) (rows (jsParseCSV text))
  ∧ DownloadPage.rows (Some text) = S n
  ∧ DownloadPage.columns (Some text) = length hs
  ∧ ResultsPage.totalRows (Some text) = Z.of_nat n
  ∧ ResultsPage.totalColumns (Some text) = length hs
  ∧ text ≠ "".

(** [m] is the least element of [nums]. *)
Definition is_minimum (m : Q) (nums : list Q) : Prop :=
  m ∈ nums ∧ ∀ x, x ∈ nums → (m <= x)%Q.

(** [m] is the greatest element of [nums]. *)
Definition is_maximum (m : Q) (nums : list Q) : Prop :=
  m ∈ nums ∧ ∀ x, x ∈ nums → (x <= m)%Q.


(** A result of [Math.random()]: a value of binary64 from zero up to,
    not including, one; the greatest such value is [1 - 2^-53]. *)
Definition is_draw (r : Q) : Prop := (0 <= r <= 1 - (1 # 2 ^ 53))%Q.


(** [q] is a whole number. *)
Definition integral (q : Q) : Prop := ∃ z : Z, (q == inject_Z z)%Q.

(** [q] has at most three decimals. *)
Definition milli (q : Q) : Prop := ∃ z : Z, (q == inject_Z z / 1000)%Q.

(** [p] is the last position of [headers] that bears the name [h]. *)
Definition last_position (headers : list string) (p : nat) (h : string) : Prop :=
  headers !! p = Some h ∧ ∀ q, p < q → headers !! q ≠ Some h.

(** The distinct non-empty values of the column at [idx], an absent
    cell read as the empty string. *)
Definition distinct_values (rows : list (list string)) (idx : nat) : list string :=
  uniq (filter (λ v, v ≠ "") ((λ r, nullish (r !! idx)) <$> rows)).

Local Open Scope list_scope.

(** ** Plain objects *)

Lemma set_prop_ne (k n : string) (v : cell) (r : Row) :
  n ≠ k → set_prop k v r !! n = r !! n.
Proof.
  intros H. unfold set_prop. case_decide; [done|]. by rewrite lookup_insert_ne.
Qed.

Lemma set_prop_eq (k : string) (v : cell) (r : Row) :
  k ≠ "__proto__" → set_prop k v r !! k = Some v.
Proof.
  intros H. unfold set_prop. rewrite decide_False by done. apply lookup_insert_eq.
Qed.


Lemma set_prop_is_Some (k n : string) (v : cell) (r : Row) :
  is_Some (r !! n) → is_Some (set_prop k v r !! n).
Proof.
  intros H. unfold set_prop. case_decide; [done|].
  destruct (decide (n = k)) as [->|Hn].
  - rewrite lookup_insert_eq. by eexists.
  - by rewrite lookup_insert_ne.
Qed.

Lemma get_own (r : Row) (h : string) : h ≠ "__proto__" → get r h = mjoin (r !! h).
Proof. intros H. unfold get. by rewrite decide_False. Qed.


(** ** The rounding of binary64 *)



























(** ** Splitting and joining *)

Lemma split_free (c : ascii) (s : string) :
  free_of c s = true → Str.split c s = [s].
Proof.
  induction s as [|x s IH]; cbn [free_of Str.split]; [done|].
  intros H. apply andb_true_iff in H as [Hx Hs].
  apply negb_true_iff in Hx. rewrite Hx, (IH Hs). done.
Qed.

Lemma split_app (c : ascii) (a b : string) :
  free_of c a = true →
  Str.split c (a ++ String c b)%string = a :: Str.split c b.
Proof.
  induction a as [|x a IH]; cbn [free_of]; intros H.
  - unfold String.append. cbn [Str.split]. by rewrite Ascii.eqb_refl.
  - apply andb_true_iff in H as [Hx Ha]. apply negb_true_iff in Hx.
    change (String x a ++ String c b)%string with (String x (a ++ String c b)%string).
    cbn [Str.split]. rewrite Hx, (IH Ha). done.
Qed.

(** Splitting a joined list of separator-free pieces gives the pieces
    back. *)
Lemma split_join (c : ascii) (l : list string) :
  l ≠ [] → Forall (λ s, free_of c s = true) l →
  Str.split c (Str.join (String c "") l) = l.
Proof.
  induction l as [|x l IH]; [done|]. intros _ Hall.
  apply Forall_cons in Hall as [Hx Hall]. destruct l as [|y l].
  - cbn [Str.join]. by apply split_free.
  - change (Str.join (String c "") (x :: y :: l))
      with (x ++ String c (Str.join (String c "") (y :: l)))%string.
    rewrite (split_app c x _ Hx), IH; done.
Qed.

Lemma split_no_bar (s : string) : no_bar s = true → Str.split "|" s = [s].
Proof. apply split_free. Qed.

Lemma split_key (a b : string) :
  no_bar a = true → Str.split "|" (a ++ "|" ++ b)%string = a :: Str.split "|" b.
Proof. apply (split_app "|" a b). Qed.

(** ** Properties of [jsEvaluate] *)

(** C9. The fallback evaluator returns one fixed report: privacy 95,
    utility 92, KS score 0.02, correlation distance 0.05, no
    statistical metrics, no distribution data and the two fixed
    correlation matrices; only [columnNames], the names of the first
    two numeric columns, depends on the columns, and nothing depends
    on the synthetic rows. *)
Theorem jsEvaluate_fixed_report (columns : list Column) (synth : list Row) :
  jsEvaluate columns synth =
    mkEval 95 92 0.02 0.05 ∅ []
      (mkCorr [[1; 0.7]; [0.7; 1]]%Q [[1; 0.68]; [0.68; 1]]%Q
         (name <$> take 2 (filter (λ c, type c = numeric) columns)))
  ∧ (∀ synth', jsEvaluate columns synth' = jsEvaluate columns synth)
  ∧ (∀ columns' synth',
       let e := jsEvaluate columns synth in
       let e' := jsEvaluate columns' synth' in
       privacyScore e' = privacyScore e ∧ utilityScore e' = utilityScore e
       ∧ ksTestScore e' = ksTestScore e
       ∧ correlationDistance e' = correlationDistance e
       ∧ statisticalMetrics e' = statisticalMetrics e
       ∧ distributionData e' = distributionData e
       ∧ originalCorr (correlationData e') = originalCorr (correlationData e)
       ∧ syntheticCorr (correlationData e') = syntheticCorr (correlationData e))
  ∧ (length (columnNames (correlationData (jsEvaluate columns synth))) ≤ 2)%nat.
Proof.
  repeat split.
  cbn [jsEvaluate correlationData columnNames].
  rewrite length_fmap, length_take. lia.
Qed.

(** C5, as the code has it. The utility score is 92 and the privacy
    score is 95 whatever the columns and the synthetic rows are: both
    are constants of the evaluator, so the utility score does not
    strictly decrease with any divergence. *)
Theorem jsEvaluate_scores_constant (columns : list Column) (synth : list Row) :
  utilityScore (jsEvaluate columns synth) = 92%Q
  ∧ privacyScore (jsEvaluate columns synth) = 95%Q.
Proof. split; reflexivity. Qed.

(** C5, refuted as stated. No two inputs give different utility scores
    and no two inputs give different privacy scores. *)
Lemma jsEvaluate_scores_not_varying :
  ¬ (∃ c1 s1 c2 s2,
        ¬ (utilityScore (jsEvaluate c1 s1) == utilityScore (jsEvaluate c2 s2))%Q)
  ∧ ¬ (∃ c1 s1 c2 s2,
        ¬ (privacyScore (jsEvaluate c1 s1) == privacyScore (jsEvaluate c2 s2))%Q).
Proof.
  split; intros (c1 & s1 & c2 & s2 & H); apply H; reflexivity.
Qed.

(** ** Numbers: minimum, maximum, integrality *)

Lemma Qmin_cases (x y : Q) : Qmin x y = x ∨ Qmin x y = y.
Proof.
  unfold Qmin, GenericMinMax.gmin. destruct (x ?= y)%Q; auto.
Qed.

Lemma Qmax_cases (x y : Q) : Qmax x y = x ∨ Qmax x y = y.
Proof.
  unfold Qmax, GenericMinMax.gmax. destruct (x ?= y)%Q; auto.
Qed.

Lemma foldl_Qmin_minimum (l : list Q) (x : Q) : is_minimum (foldl Qmin x l) (x :: l).
Proof.
  revert x. induction l as [|y l IH]; intros x; cbn [foldl].
  - split; [left|]. intros z Hz. apply list_elem_of_singleton in Hz as ->.
    apply Qle_refl.
  - destruct (IH (Qmin x y)) as [Hin Hle]. split.
    + apply elem_of_cons in Hin as [->|Hin].
      * destruct (Qmin_cases x y) as [->| ->]; [left | right; left].
      * do 2 right. exact Hin.
    + intros z Hz.
      assert (Hm : (foldl Qmin (Qmin x y) l <= Qmin x y)%Q) by (apply Hle; left).
      apply elem_of_cons in Hz as [->|Hz].
      * eapply Qle_trans; [exact Hm | apply Q.le_min_l].
      * apply elem_of_cons in Hz as [->|Hz].
        -- eapply Qle_trans; [exact Hm | apply Q.le_min_r].
        -- apply Hle. right. exact Hz.
Qed.

Lemma foldl_Qmax_maximum (l : list Q) (x : Q) : is_maximum (foldl Qmax x l) (x :: l).
Proof.
  revert x. induction l as [|y l IH]; intros x; cbn [foldl].
  - split; [left|]. intros z Hz. apply list_elem_of_singleton in Hz as ->.
    apply Qle_refl.
  - destruct (IH (Qmax x y)) as [Hin Hle]. split.
    + apply elem_of_cons in Hin as [->|Hin].
      * destruct (Qmax_cases x y) as [->| ->]; [left | right; left].
      * do 2 right. exact Hin.
    + intros z Hz.
      assert (Hm : (Qmax x y <= foldl Qmax (Qmax x y) l)%Q) by (apply Hle; left).
      apply elem_of_cons in Hz as [->|Hz].
      * eapply Qle_trans; [apply Q.le_max_l | exact Hm].
      * apply elem_of_cons in Hz as [->|Hz].
        -- eapply Qle_trans; [apply Q.le_max_r | exact Hm].
        -- apply Hle. right. exact Hz.
Qed.

Lemma min_or_minimum (d : Q) (nums : list Q) :
  nums ≠ [] → is_minimum (min_or d nums) nums.
Proof.
  destruct nums as [|x l]; [congruence|]. intros _. apply foldl_Qmin_minimum.
Qed.

Lemma max_or_maximum (d : Q) (nums : list Q) :
  nums ≠ [] → is_maximum (max_or d nums) nums.
Proof.
  destruct nums as [|x l]; [congruence|]. intros _. apply foldl_Qmax_maximum.
Qed.

Lemma is_minimum_unique (m m' : Q) (nums : list Q) :
  is_minimum m nums → is_minimum m' nums → (m == m')%Q.
Proof.
  intros [Hin Hle] [Hin' Hle']. apply Qle_antisym; auto.
Qed.

Lemma is_maximum_unique (m m' : Q) (nums : list Q) :
  is_maximum m nums → is_maximum m' nums → (m == m')%Q.
Proof.
  intros [Hin Hle] [Hin' Hle']. apply Qle_antisym; auto.
Qed.

Lemma is_minimum_nonempty (m : Q) (nums : list Q) : is_minimum m nums → nums ≠ [].
Proof. intros [Hin _] ->. by apply not_elem_of_nil in Hin. Qed.

Lemma is_maximum_nonempty (m : Q) (nums : list Q) : is_maximum m nums → nums ≠ [].
Proof. intros [Hin _] ->. by apply not_elem_of_nil in Hin. Qed.

Lemma min_or_observed (d m : Q) (nums : list Q) :
  is_minimum m nums → (min_or d nums == m)%Q.
Proof.
  intros Hm. eapply is_minimum_unique; [|exact Hm].
  apply min_or_minimum. by eapply is_minimum_nonempty.
Qed.

Lemma max_or_observed (d m : Q) (nums : list Q) :
  is_maximum m nums → (max_or d nums == m)%Q.
Proof.
  intros Hm. eapply is_maximum_unique; [|exact Hm].
  apply max_or_maximum. by eapply is_maximum_nonempty.
Qed.

Lemma isInteger_integral (q : Q) : isInteger q = true ↔ integral q.
Proof.
  unfold isInteger, integral. destruct q as [n d]. cbn [Qnum Qden].
  rewrite Z.eqb_eq. split.
  - intros H. exists (n / Zpos d)%Z. unfold Qeq, inject_Z. cbn [Qnum Qden].
    apply Z.div_exact in H; lia.
  - intros [z Hz]. unfold Qeq, inject_Z in Hz. cbn [Qnum Qden] in Hz.
    apply Z.mod_divide; [lia|]. exists z. lia.
Qed.

Lemma integral_proper (p q : Q) : (p == q)%Q → integral p → integral q.
Proof. intros Hpq [z Hz]. exists z. by rewrite <- Hpq. Qed.

Lemma isInteger_proper (p q : Q) : (p == q)%Q → isInteger p = isInteger q.
Proof.
  intros Hpq. apply eq_true_iff_eq. rewrite !isInteger_integral.
  split; apply integral_proper; [done | by symmetry].
Qed.

(** ** The analyzer's suggestions *)

(** The suggestion computed from a column's name and values, kind by
    kind. *)
Lemma suggest_kinds (name : string) (vals : list cell) :
  let s := suggest name vals in
  let nums := nums_of vals in
  (Str.contains_ci "year" name = true →
     Suggestions.type s = int_type
     ∧ (∀ m, is_minimum m nums →
          Suggestions.min s = Some (Qmax 1900 (inject_Z (Qfloor m))))
     ∧ (∀ m, is_maximum m nums →
          Suggestions.max s = Some (Qmin 2025 (inject_Z (Qceiling m)))))
  ∧ (Str.contains_ci "year" name = false →
     all_numbers (take 200 vals) = true →
     ∀ mn mx, is_minimum mn nums → is_maximum mx nums →
       (∃ lo, Suggestions.min s = Some lo ∧ (lo == mn)%Q)
       ∧ (∃ hi, Suggestions.max s = Some hi ∧ (hi == mx)%Q)
       ∧ (integral mn ∧ integral mx → Suggestions.type s = int_type)
       ∧ (¬ (integral mn ∧ integral mx) → Suggestions.type s = float_type))
  ∧ (Str.contains_ci "year" name = false →
     all_numbers (take 200 vals) = false →
     s = Suggestions.mk categorical_type None None).
Proof.
  cbv zeta. unfold suggest. split; [|split].
  - intros ->. split; [done|]. split; intros m Hm; cbn [Suggestions.min Suggestions.max].
    + by rewrite (Qfloor_comp _ _ (min_or_observed 1900 m _ Hm)).
    + by rewrite (Qceiling_comp _ _ (max_or_observed 2025 m _ Hm)).
  - intros -> -> mn mx Hmn Hmx.
    pose proof (min_or_observed 0 mn _ Hmn) as Emn.
    pose proof (max_or_observed 1 mx _ Hmx) as Emx.
    cbn [Suggestions.min Suggestions.max Suggestions.type].
    split; [eauto|]. split; [eauto|].
    rewrite (isInteger_proper _ _ Emn), (isInteger_proper _ _ Emx).
    split.
    + intros [Hi Hj]. apply isInteger_integral in Hi, Hj. by rewrite Hi, Hj.
    + intros Hn. destruct (isInteger mn) eqn:Hi, (isInteger mx) eqn:Hj; try done.
      exfalso. apply Hn. by rewrite <- !isInteger_integral.
  - by intros -> ->.
Qed.

(** Each entry of [dtypes] is the suggestion for the header at its
    position, computed from the values of that column. *)
Lemma analyze_dtypes_entry (headers : list string) (rows : list (list string))
    (idx : nat) (d : DType.t) :
  analyze_dtypes headers rows !! idx = Some d →
  headers !! idx = Some (DType.name d)
  ∧ DType.suggestions d = suggest (DType.name d) (column_values rows idx)
  ∧ DType.dtype d = Suggestions.type (DType.suggestions d).
Proof.
  unfold analyze_dtypes. rewrite list_lookup_imap.
  destruct (headers !! idx) as [h|]; [|done]. by intros [= <-].
Qed.

(** The analyzer reads the table out of the file as [jsParseCSV]
    does. *)
Lemma analyze_dataset_parse (fileData : string) :
  (analyze_dataset fileData).1.1 = headers (jsParseCSV fileData)
  ∧ (analyze_dataset fileData).1.2
    = analyze_dtypes (headers (jsParseCSV fileData)) (rows (jsParseCSV fileData)).
Proof. done. Qed.

(** C7. The analyzer answers with one entry of [dtypes] per column, in
    the order of the header, and the entry's suggestion is made of the
    column's own values.  A column whose name matches [/year/i] is
    suggested as [int] between [max(1900, floor(observed minimum))]
    and [min(2025, ceil(observed maximum))], whether or not its values
    are numeric (1900 and 2025 when no value reads as a number); any
    other numeric column is suggested with its observed minimum and
    maximum, as [int] when both are whole and as [float] otherwise;
    any other column is suggested as [categorical] without bounds. *)
Theorem suggest_by_kind (fileData : string) (idx : nat) (name : string) :
  (analyze_dataset fileData).1.1 !! idx = Some name →
  length (analyze_dataset fileData).1.2 = length (analyze_dataset fileData).1.1
  ∧ ∃ d,
      (analyze_dataset fileData).1.2 !! idx = Some d
      ∧ DType.name d = name
      ∧ DType.dtype d = Suggestions.type (DType.suggestions d)
      ∧ let s := DType.suggestions d in
        let vals := column_values (rows (jsParseCSV fileData)) idx in
        let nums := nums_of vals in
        (Str.contains_ci "year" name = true →
           Suggestions.type s = int_type
           ∧ (∀ m, is_minimum m nums →
                Suggestions.min s = Some (Qmax 1900 (inject_Z (Qfloor m))))
           ∧ (∀ m, is_maximum m nums →
                Suggestions.max s = Some (Qmin 2025 (inject_Z (Qceiling m))))
           ∧ (nums = [] →
                Suggestions.min s = Some (Qmax 1900 (inject_Z 1900))
                ∧ Suggestions.max s = Some (Qmin 2025 (inject_Z 2025))))
        ∧ (Str.contains_ci "year" name = false →
           all_numbers (take 200 vals) = true →
           ∀ mn mx, is_minimum mn nums → is_maximum mx nums →
             (∃ lo, Suggestions.min s = Some lo ∧ (lo == mn)%Q)
             ∧ (∃ hi, Suggestions.max s = Some hi ∧ (hi == mx)%Q)
             ∧ (integral mn ∧ integral mx → Suggestions.type s = int_type)
             ∧ (¬ (integral mn ∧ integral mx) → Suggestions.type s = float_type))
        ∧ (Str.contains_ci "year" name = false →
           all_numbers (take 200 vals) = false →
           s = Suggestions.mk categorical_type None None).
Proof.
  destruct (analyze_dataset_parse fileData) as [-> ->].
  generalize (headers (jsParseCSV fileData)) (rows (jsParseCSV fileData)).
  intros hs rws Hidx. split.
  { unfold analyze_dtypes. by rewrite length_imap. }
  exists (DType.mk name (Suggestions.type (suggest name (column_values rws idx)))
            (suggest name (column_values rws idx))).
  split.
  { unfold analyze_dtypes. by rewrite list_lookup_imap, Hidx. }
  split; [done|]. split; [done|]. cbn [DType.suggestions]. cbv zeta.
  destruct (suggest_kinds name (column_values rws idx)) as (Hyear & Hnum & Hcat).
  split; [|by split].
  intros Hy. destruct (Hyear Hy) as (Ht & Hmin & Hmax).
  split; [done|]. split; [done|]. split; [done|].
  intros Hnone. unfold suggest. rewrite Hy, Hnone. done.
Qed.

Section Properties.

Variable headers : list string.
Variable rows : list (list string).
Variable rowCount : nat.
Variable cols_to_synthesize : list string.
Variable constraints : gmap string User.t.
Variable relations : list (list string).

Local Abbreviation synthSet0' := (synthSet0 headers cols_to_synthesize).
Local Abbreviation columns' := (columns_ headers rows).
Local Abbreviation numericMeta' :=
  (numericMeta headers rows cols_to_synthesize constraints).
Local Abbreviation relationPools' :=
  (relationPools headers rows cols_to_synthesize relations).
Local Abbreviation outRows' :=
  (outRows headers rows rowCount cols_to_synthesize constraints relations).
Local Abbreviation genRow' :=
  (genRow headers rows cols_to_synthesize constraints relations).
Local Abbreviation csvLines' :=
  (csvLines headers rows rowCount cols_to_synthesize constraints relations).
Local Abbreviation syntheticCsv' :=
  (syntheticCsv headers rows rowCount cols_to_synthesize constraints relations).

(** ** The synthesize-set *)

Lemma synthSet0_selected (c : string) :
  c ∈ synthSet0' → c ∈ cols_to_synthesize ∧ c ∈ headers.
Proof.
  unfold synthSet0.
  assert (G : ∀ l : list string, c ∈ uniq l → c ∈ l).
  { induction l as [|x l IH]; cbn [uniq]; [done|].
    intros H. apply elem_of_cons in H as [->|H]; [left|right].
    apply IH. by apply list_elem_of_filter in H as [_ H]. }
  intros H. apply G in H. by apply list_elem_of_filter in H as [? ?].
Qed.

(** ** The entries of [numericMeta] *)

Lemma numericMeta_fold (cols : list Column) (m0 : gmap string Meta.t)
    (c : string) (m : Meta.t) :
  foldl (λ m col,
           if decide (name col ∈ synthSet0')
           then <[name col := meta_of constraints col]> m else m)
        m0 cols !! c = Some m →
  m0 !! c = Some m
  ∨ ∃ col, col ∈ cols ∧ name col = c ∧ c ∈ synthSet0'
           ∧ m = meta_of constraints col.
Proof.
  revert m0. induction cols as [|col cols IH]; intros m0; cbn [foldl]; [auto|].
  intros H. apply IH in H as [H|(col' & Hin & Hn & Hs & ->)].
  - case_decide as Hin; [|auto].
    rewrite lookup_insert in H. case_decide as Hc; [|auto].
    injection H as <-. right. exists col. subst c.
    repeat split; [left | done].
  - right. exists col'. repeat split; [by right | done..].
Qed.

Lemma numericMeta_entry (c : string) (m : Meta.t) :
  numericMeta' !! c = Some m →
  ∃ col, col ∈ columns' ∧ name col = c ∧ c ∈ synthSet0'
         ∧ m = meta_of constraints col.
Proof.
  intros H. apply numericMeta_fold in H as [H|H]; [|done].
  by rewrite lookup_empty in H.
Qed.

Lemma meta_of_bounds (col : Column) :
  let nums := nums_of (values col) in
  let user := user_of constraints (name col) in
  let m := meta_of constraints col in
  ((∀ q, User.min user ≠ JNumber q) →
     Meta.min m = min_or 0 nums
     ∧ ∀ o, is_minimum o nums → (Meta.min m == o)%Q)
  ∧ ((∀ q, User.max user ≠ JNumber q) →
     Meta.max m = max_or 1 nums
     ∧ ∀ o, is_maximum o nums → (Meta.max m == o)%Q)
  ∧ (constraints !! name col = None →
     Meta.min m = min_or 0 nums ∧ Meta.max m = max_or 1 nums)
  ∧ (∀ q, User.min user = JNumber q → Meta.min m = q)
  ∧ (∀ q, User.max user = JNumber q → Meta.max m = q).
Proof.
  cbv zeta. unfold meta_of. cbn [Meta.min Meta.max].
  split; [|split; [|split; [|split]]].
  - intros Hn. assert (E : ∀ d, number_or (User.min (user_of constraints (name col))) d = d).
    { intros d. destruct (User.min _) eqn:E; try done. by destruct (Hn q). }
    rewrite E. split; [done|]. intros o Ho. by apply min_or_observed.
  - intros Hn. assert (E : ∀ d, number_or (User.max (user_of constraints (name col))) d = d).
    { intros d. destruct (User.max _) eqn:E; try done. by destruct (Hn q). }
    rewrite E. split; [done|]. intros o Ho. by apply max_or_observed.
  - intros Hc. unfold user_of. by rewrite Hc.
  - by intros q ->.
  - by intros q ->.
Qed.




(** C8. When the request gives no number for [min] (or for [max]) of a
    column, because the constraint or the field is missing or because
    the field holds something else than a number, the bound kept in
    [numericMeta] is the minimum (or maximum) observed in the column
    the entry was computed from. *)
Theorem constraint_falls_back_to_observed (c : string) (m : Meta.t) :
  numericMeta' !! c = Some m →
  ∃ col, col ∈ columns' ∧ name col = c ∧
    let nums := nums_of (values col) in
    let user := user_of constraints c in
    ((∀ q, User.min user ≠ JNumber q) →
       Meta.min m = min_or 0 nums
       ∧ ∀ o, is_minimum o nums → (Meta.min m == o)%Q)
    ∧ ((∀ q, User.max user ≠ JNumber q) →
       Meta.max m = max_or 1 nums
       ∧ ∀ o, is_maximum o nums → (Meta.max m == o)%Q)
    ∧ (constraints !! c = None →
       Meta.min m = min_or 0 nums ∧ Meta.max m = max_or 1 nums).
Proof.
  intros H. apply numericMeta_entry in H as (col & Hin & Hname & _ & ->).
  exists col. split; [done|]. split; [done|]. subst c.
  destruct (meta_of_bounds col) as (Hmin & Hmax & Hnone & _).
  cbv zeta. split; [exact Hmin|]. split; [exact Hmax | exact Hnone].
Qed.

(** ** Seeding a row from the source *)

Lemma seed_from_notin (h : nat) (hs : list string) (row : option (list string))
    (m : Row) (n : string) :
  n ∉ hs → seed_from h hs row m !! n = m !! n.
Proof.
  revert h m. induction hs as [|x hs IH]; intros h m Hn; cbn [seed_from]; [done|].
  apply not_elem_of_cons in Hn as [Hx Hn].
  rewrite IH by done. by apply set_prop_ne.
Qed.

Lemma seed_from_last (h : nat) (hs : list string) (row : option (list string))
    (m : Row) (p : nat) (n : string) :
  n ≠ "__proto__" →
  last_position hs p n →
  seed_from h hs row m !! n = Some (Some (nullish (row ≫= (λ r, r !! (h + p))))).
Proof.
  intros Hproto.
  revert h m p. induction hs as [|x hs IH]; intros h m p [Hp Hlast]; [done|].
  cbn [seed_from]. destruct (decide (n ∈ hs)) as [Hin|Hin].
  - destruct p as [|p].
    + exfalso. apply list_elem_of_lookup in Hin as [q Hq].
      apply (Hlast (S q)); [lia | done].
    + rewrite (IH (S h) _ p).
      * by replace (S h + p) with (h + S p) by lia.
      * split; [done|]. intros q Hq. apply (Hlast (S q)). lia.
  - rewrite seed_from_notin by done. destruct p as [|p].
    + injection Hp as ->. rewrite set_prop_eq by done.
      by replace (h + 0) with h by lia.
    + exfalso. apply Hin. apply list_elem_of_lookup. by exists p.
Qed.


Lemma last_position_exists (hs : list string) (n : string) :
  n ∈ hs → ∃ p, last_position hs p n.
Proof.
  induction hs as [|x hs IH]; intros Hin; [by apply not_elem_of_nil in Hin|].
  destruct (decide (n ∈ hs)) as [Hn|Hn].
  - destruct (IH Hn) as [p [Hp Hlast]]. exists (S p). split; [done|].
    intros [|q] Hq; [lia|]. apply Hlast. lia.
  - exists 0. apply elem_of_cons in Hin as [->|]; [|done]. split; [done|].
    intros [|q] Hq; [lia|]. cbn. intros Hx. apply Hn.
    apply list_elem_of_lookup. by exists q.
Qed.


(** The seed of row [i] stores, under each header name, the cell of
    source row [i] at the last position bearing that name, and the
    empty string when the row has no such cell. *)
Lemma original_last (i p : nat) (n : string) :
  n ≠ "__proto__" →
  last_position headers p n →
  get (original headers rows i) n
  = Some (nullish (rows !! i ≫= (λ r, r !! p))).
Proof.
  intros Hproto Hp. rewrite get_own by done. unfold original.
  by rewrite (seed_from_last 0 _ _ _ p).
Qed.

(** ** What a step of the generator leaves alone *)

Lemma apply_relation_other (acc : Row * GenState)
    (kp : string * list (cell * cell)) (n : string) :
  n ∉ key_names kp.1 →
  (apply_relation acc kp).1 !! n = acc.1 !! n.
Proof.
  destruct acc as [row st], kp as [key pool]. unfold apply_relation, key_names.
  cbn [fst]. destruct (Str.split "|" key) as [|a [|b l]]; [done..|].
  destruct pool; [done|]. intros Hn. cbn [fst].
  apply not_elem_of_cons in Hn as [Ha Hn].
  apply not_elem_of_cons in Hn as [Hb _].
  by rewrite !set_prop_ne.
Qed.

Lemma apply_relation_synthSet (acc : Row * GenState)
    (kp : string * list (cell * cell)) :
  synthSet (apply_relation acc kp).2 ⊆ synthSet acc.2.
Proof.
  destruct acc as [row st], kp as [key pool]. unfold apply_relation.
  destruct (Str.split "|" key) as [|a [|b l]]; [done..|].
  destruct pool; [done|]. cbn [snd synthSet].
  intros x Hx. apply list_elem_of_filter in Hx as [_ Hx].
  by apply list_elem_of_filter in Hx as [_ Hx].
Qed.


Lemma relation_targets_cons (kp : string * list (cell * cell)) (pools : Pools)
    (n : string) :
  n ∉ relation_targets (kp :: pools) →
  (n ∉ key_names (kp.1)) ∧ (n ∉ relation_targets pools).
Proof.
  unfold relation_targets. cbn [flat_map]. by rewrite not_elem_of_app.
Qed.

Lemma relations_other (pools : Pools) (acc : Row * GenState) (n : string) :
  n ∉ relation_targets pools →
  (foldl apply_relation acc pools).1 !! n = acc.1 !! n.
Proof.
  revert acc. induction pools as [|kp pools IH]; intros acc Hn; [done|].
  cbn [foldl]. apply relation_targets_cons in Hn as [Hk Hn].
  rewrite IH by done. by apply apply_relation_other.
Qed.

Lemma relations_synthSet (pools : Pools) (acc : Row * GenState) :
  synthSet (foldl apply_relation acc pools).2 ⊆ synthSet acc.2.
Proof.
  revert acc. induction pools as [|kp pools IH]; intros acc; [done|].
  cbn [foldl]. etrans; [apply IH | apply apply_relation_synthSet].
Qed.


Lemma synth_column_other (acc : Row * nat) (c n : string) :
  n ≠ c →
  (synth_column headers rows cols_to_synthesize constraints acc c).1 !! n
  = acc.1 !! n.
Proof.
  intros Hn. destruct acc as [row k]. unfold synth_column.
  destruct (find _ _) as [colInfo|]; [|done].
  destruct (type colInfo), (numericMeta' !! c) as [meta|];
    try destruct (uniq (values colInfo)); cbn [fst];
    by rewrite set_prop_ne.
Qed.

Lemma synth_columns_other (cs : list string) (acc : Row * nat) (n : string) :
  n ∉ cs →
  (foldl (synth_column headers rows cols_to_synthesize constraints) acc cs).1 !! n
  = acc.1 !! n.
Proof.
  revert acc. induction cs as [|c cs IH]; intros acc Hn; [done|].
  cbn [foldl]. apply not_elem_of_cons in Hn as [Hc Hn].
  rewrite IH by done. by apply synth_column_other.
Qed.

(** ** The row loop *)

Lemma genRow_synthSet (i : nat) (st : GenState) :
  synthSet (genRow' i st).2 ⊆ synthSet st.
Proof.
  unfold genRow, after_relations.
  pose proof (relations_synthSet relationPools' (original headers rows i, st)) as H.
  destruct (foldl apply_relation _ relationPools') as [row1 st1].
  destruct (foldl _ _ (synthSet st1)) as [row2 k]. exact H.
Qed.

Lemma genRow_other (i : nat) (st : GenState) (n : string) :
  n ∉ relation_targets relationPools' → n ∉ synthSet st →
  (genRow' i st).1 !! n = original headers rows i !! n.
Proof.
  intros Ht Hs. unfold genRow, after_relations.
  pose proof (relations_synthSet relationPools' (original headers rows i, st)) as Hsub.
  pose proof (relations_other relationPools' (original headers rows i, st) n Ht) as Hrel.
  destruct (foldl apply_relation _ relationPools') as [row1 st1].
  pose proof (synth_columns_other (synthSet st1) (row1, draws st1) n) as Hcol.
  destruct (foldl _ _ (synthSet st1)) as [row2 k]. cbn [fst snd] in *.
  rewrite Hcol, Hrel; [done|]. intros Hin. apply Hs. by apply Hsub.
Qed.




(** Every step keeps the properties the row has. *)
Lemma apply_relation_is_Some (acc : Row * GenState)
    (kp : string * list (cell * cell)) (n : string) :
  is_Some (acc.1 !! n) → is_Some ((apply_relation acc kp).1 !! n).
Proof.
  destruct acc as [row st], kp as [key pool]. unfold apply_relation.
  destruct (Str.split "|" key) as [|a [|b l]]; [done..|].
  destruct pool; [done|]. cbn [fst]. intros H. by do 2 apply set_prop_is_Some.
Qed.

Lemma synth_column_is_Some (acc : Row * nat) (c n : string) :
  is_Some (acc.1 !! n) →
  is_Some ((synth_column headers rows cols_to_synthesize constraints acc c).1 !! n).
Proof.
  destruct acc as [row k]. unfold synth_column.
  destruct (find _ _) as [colInfo|]; [|done].
  destruct (type colInfo), (numericMeta' !! c) as [meta|];
    try destruct (uniq (values colInfo)); cbn [fst];
    by apply set_prop_is_Some.
Qed.

(** A finished row holds every header name but [__proto__] as a
    property of its own: printing it never reads an inherited
    property under another name. *)
Lemma genRow_own (i : nat) (st : GenState) (h : string) :
  h ∈ headers → h ≠ "__proto__" → is_Some ((genRow' i st).1 !! h).
Proof.
  intros Hin Hproto. unfold genRow, after_relations.
  assert (R : ∀ pools acc, is_Some (acc.1 !! h) →
            is_Some ((foldl apply_relation acc pools).1 !! h)).
  { induction pools as [|kp pools IH]; intros acc H; cbn [foldl]; [done|].
    by apply IH, apply_relation_is_Some. }
  assert (C : ∀ cs acc, is_Some (acc.1 !! h) →
            is_Some ((foldl (synth_column headers rows cols_to_synthesize constraints)
                        acc cs).1 !! h)).
  { induction cs as [|c cs IH]; intros acc H; cbn [foldl]; [done|].
    by apply IH, synth_column_is_Some. }
  specialize (R relationPools' (original headers rows i, st)).
  destruct (foldl apply_relation _ relationPools') as [row1 st1].
  specialize (C (synthSet st1) (row1, draws st1)).
  destruct (foldl _ _ (synthSet st1)) as [row2 k]. cbn [fst] in *.
  apply C, R. destruct (last_position_exists headers h Hin) as [p Hp].
  unfold original. rewrite (seed_from_last 0 _ _ _ p) by done. by eexists.
Qed.

Lemma rowLoop_length (n i : nat) (st : GenState) :
  length (rowLoop headers rows cols_to_synthesize constraints relations n i st).1 = n.
Proof.
  revert i st. induction n as [|n IH]; intros i st; cbn [rowLoop]; [done|].
  destruct (genRow' i st) as [r st1]. specialize (IH (S i) st1).
  destruct (rowLoop _ _ _ _ _ n (S i) st1) as [rs st2]. cbn [fst length] in *.
  by rewrite IH.
Qed.

(** Every row the loop pushes is the result of the loop body at its
    index, from a state that satisfies any invariant of the body. *)
Lemma rowLoop_lookup (Inv : GenState → Prop) :
  (∀ i st, Inv st → Inv (genRow' i st).2) →
  ∀ n i0 st, Inv st →
  ∀ j r,
    (rowLoop headers rows cols_to_synthesize constraints relations n i0 st).1 !! j
      = Some r →
    ∃ st', Inv st' ∧ r = (genRow' (i0 + j) st').1.
Proof.
  intros Hstep. induction n as [|n IH]; intros i0 st Hst j r; cbn [rowLoop]; [done|].
  pose proof (Hstep i0 st Hst) as Hst1.
  destruct (genRow' i0 st) as [r0 st1] eqn:E0. cbn [snd] in Hst1.
  specialize (IH (S i0) st1 Hst1).
  destruct (rowLoop _ _ _ _ _ n (S i0) st1) as [rs st2]. cbn [fst] in *.
  destruct j as [|j]; cbn.
  - intros [= <-]. exists st. split; [done|].
    replace (i0 + 0) with i0 by lia. by rewrite E0.
  - intros Hj. destruct (IH j r Hj) as (st' & Hinv & ->). exists st'.
    split; [done|]. by replace (i0 + S j) with (S i0 + j) by lia.
Qed.

Lemma outRows_lookup (Inv : GenState → Prop) (i : nat) (r : Row) :
  (∀ i st, Inv st → Inv (genRow' i st).2) →
  Inv (mkState synthSet0' 0) →
  outRows' !! i = Some r →
  ∃ st, Inv st ∧ r = (genRow' i st).1.
Proof.
  intros Hstep H0 Hi. unfold outRows in Hi.
  by apply (rowLoop_lookup Inv Hstep _ 0 _ H0) in Hi.
Qed.


Lemma outRows_own (i : nat) (r : Row) (h : string) :
  outRows' !! i = Some r → h ∈ headers → h ≠ "__proto__" → is_Some (r !! h).
Proof.
  intros Hi Hin Hproto.
  apply (outRows_lookup (λ _, True)) in Hi as (st & _ & ->); [|done..].
  by apply genRow_own.
Qed.

Lemma row_cells_lookup (r : Row) (p : nat) (h : string) :
  headers !! p = Some h → row_cells headers r !! p = Some (nullish (get r h)).
Proof. intros Hp. unfold row_cells. by rewrite list_lookup_fmap, Hp. Qed.

(** ** Shape of the synthetic table *)

(** C4. The loop pushes exactly [rowCount] rows; the first line of the
    table is the source header line, and the line of each row lists,
    position by position, the cell stored under the header name of
    that position.  When no line holds a newline of its own, the text
    splits back into these lines: the header line and [rowCount] data
    lines. *)
Theorem synthetic_table_shape :
  length outRows' = rowCount
  ∧ length csvLines' = S rowCount
  ∧ csvLines' !! 0 = Some (Str.join "," headers)
  ∧ (∀ i r, outRows' !! i = Some r →
      csvLines' !! (S i) = Some (Str.join "," (row_cells headers r))
      ∧ length (row_cells headers r) = length headers
      ∧ ∀ p h, headers !! p = Some h →
          row_cells headers r !! p = Some (nullish (get r h)))
  ∧ (Forall (λ s, free_of Str.LF s = true) csvLines' →
     Str.split Str.LF syntheticCsv' = csvLines'
     ∧ length (Str.split Str.LF syntheticCsv') = S rowCount).
Proof.
  assert (L : length outRows' = rowCount) by apply rowLoop_length.
  assert (L' : length csvLines' = S rowCount).
  { unfold csvLines. cbn [length]. by rewrite length_fmap, L. }
  split; [done|]. split; [done|]. split; [done|]. split.
  - intros i r Hi. split; [|split].
    + unfold csvLines. rewrite lookup_cons. by rewrite list_lookup_fmap, Hi.
    + unfold row_cells. by rewrite length_fmap.
    + intros p h. apply row_cells_lookup.
  - intros Hfree.
    assert (E : Str.split Str.LF syntheticCsv' = csvLines').
    { unfold syntheticCsv. by apply split_join. }
    by rewrite E.
Qed.

(** ** Columns that are not synthesized *)

Lemma unselected_get (i : nat) (r : Row) (h : string) :
  outRows' !! i = Some r →
  h ∉ cols_to_synthesize →
  h ∉ relation_targets relationPools' →
  get r h = get (original headers rows i) h.
Proof.
  intros Hi Hsel Htgt.
  apply (outRows_lookup (λ st, h ∉ synthSet st)) in Hi as (st & Hst & ->).
  - unfold get. case_decide; [done|]. by rewrite genRow_other.
  - intros j st Hst Hin. apply Hst. by apply (genRow_synthSet j st).
  - cbn [synthSet]. intros Hin. by apply synthSet0_selected in Hin as [? _].
Qed.



(** ** Numeric columns *)










(** ** Relation pairs *)

Lemma key_names_key (a b : string) :
  no_bar a = true → no_bar b = true →
  key_names (a ++ "|" ++ b)%string = [a; b].
Proof.
  intros Ha Hb. unfold key_names. by rewrite (split_key a b Ha), (split_no_bar b Hb).
Qed.

Lemma pools_set_elem (key : string) (pool : list (cell * cell)) (pools : Pools)
    (kp : string * list (cell * cell)) :
  kp ∈ pools_set key pool pools → kp = (key, pool) ∨ kp ∈ pools.
Proof.
  induction pools as [|[k p] pools IH]; cbn [pools_set].
  - intros H. apply list_elem_of_singleton in H. auto.
  - case_decide as Hk.
    + subst k. intros H. apply elem_of_cons in H as [H|H]; [auto|].
      right. by right.
    + intros H. apply elem_of_cons in H as [H|H]; [right; subst; left|].
      destruct (IH H); [auto|]. right. by right.
Qed.



(** The step function of the loop that fills [relationPools]. *)
Local Abbreviation add_pool :=
  (λ (pools : Pools) (pair : list string),
     match pair with
     | [a; b] =>
         if decide (a ∈ synthSet0' ∧ b ∈ synthSet0')
         then pools_set (a ++ "|" ++ b)%string (pool_of headers rows a b) pools
         else pools
     | _ => pools
     end).

Lemma relationPools_fold_elem (rels : list (list string)) (pools : Pools)
    (kp : string * list (cell * cell)) :
  kp ∈ foldl add_pool pools rels →
  kp ∈ pools
  ∨ ∃ a b, [a; b] ∈ rels ∧ a ∈ synthSet0' ∧ b ∈ synthSet0'
           ∧ kp = ((a ++ "|" ++ b)%string, pool_of headers rows a b).
Proof.
  revert pools. induction rels as [|pair rels IH]; intros pools; cbn [foldl]; [auto|].
  intros H. apply IH in H as [H|(a & b & Hin & Ha & Hb & ->)].
  - destruct pair as [|a [|b [|]]]; auto.
    case_decide as Hab; [|auto].
    apply pools_set_elem in H as [->|H]; [|auto].
    right. exists a, b. destruct Hab. repeat split; try done. left.
  - right. exists a, b. repeat split; try done. by right.
Qed.

Lemma relationPools_elem (kp : string * list (cell * cell)) :
  kp ∈ relationPools' →
  ∃ a b, [a; b] ∈ relations ∧ a ∈ synthSet0' ∧ b ∈ synthSet0'
         ∧ kp = ((a ++ "|" ++ b)%string, pool_of headers rows a b).
Proof.
  intros H. apply relationPools_fold_elem in H as [H|H]; [|done].
  by apply not_elem_of_nil in H.
Qed.









(** With no bar in a header name, a relation only writes to selected
    columns. *)
Lemma relation_targets_selected (x : string) :
  Forall (λ h, no_bar h = true) headers →
  x ∈ relation_targets relationPools' → x ∈ synthSet0'.
Proof.
  intros Hbar Hx. rewrite Forall_forall in Hbar.
  unfold relation_targets in Hx. apply list_elem_of_In, in_flat_map in Hx.
  destruct Hx as (kp & Hkp & Hx). apply list_elem_of_In in Hkp, Hx.
  apply relationPools_elem in Hkp as (a & b & _ & Ha & Hb & ->). cbn [fst] in Hx.
  rewrite key_names_key in Hx by (apply Hbar; by apply synthSet0_selected).
  apply elem_of_cons in Hx as [->|Hx]; [done|].
  by apply list_elem_of_singleton in Hx as ->.
Qed.

Local Abbreviation after_relations' :=
  (after_relations headers rows cols_to_synthesize relations).





(** ** Categorical columns *)

Lemma elem_of_uniq {A} `{EqDecision A} (l : list A) (x : A) : x ∈ uniq l ↔ x ∈ l.
Proof.
  induction l as [|y l IH]; cbn [uniq]; [done|].
  rewrite !elem_of_cons, list_elem_of_filter, IH. split.
  - intros [->|[_ H]]; auto.
  - intros [->|H]; [auto|]. destruct (decide (x = y)) as [->|Hn]; auto.
Qed.

Lemma find_column (c : string) (col : Column) :
  find (λ x, bool_decide (name x = c)) columns' = Some col →
  ∃ idx, headers !! idx = Some c ∧ values col = column_values rows idx.
Proof.
  intros H. apply find_some in H as [Hin Hname].
  apply bool_decide_eq_true in Hname. apply list_elem_of_In in Hin.
  unfold columns_, jsColumns in Hin.
  apply elem_of_lookup_imap_1 in Hin as (idx & h & -> & Hidx).
  exists idx. cbn in Hname. by subst h.
Qed.







End Properties.

(** ** Lines, cells and carriage returns *)

Lemma strip_cr_cons (x y : string) (l : list string) :
  Str.strip_cr (x :: y :: l) = Str.drop_last_cr x :: Str.strip_cr (y :: l).
Proof. reflexivity. Qed.

Lemma strip_cr_length (l : list string) : length (Str.strip_cr l) = length l.
Proof.
  induction l as [|x l IH]; [done|]. destruct l as [|y l]; [done|].
  rewrite strip_cr_cons. cbn [length]. by rewrite IH.
Qed.

Lemma strip_cr_tail (l : list string) : tail (Str.strip_cr l) = Str.strip_cr (tail l).
Proof. by destruct l as [|x [|y l]]. Qed.

Lemma trim_right_snoc_space (s : string) (c : ascii) :
  Str.is_space c = true → Str.trim_right (s ++ String c "") = Str.trim_right s.
Proof.
  intros Hc. induction s as [|a s IH].
  - unfold String.append. cbn [Str.trim_right]. by rewrite Hc.
  - change (String a s ++ String c "")%string with (String a (s ++ String c "")%string).
    cbn [Str.trim_right]. by rewrite IH.
Qed.

Lemma trim_left_snoc_space (s : string) (c : ascii) :
  Str.is_space c = true →
  Str.trim_left (s ++ String c "")
  = if decide (Str.trim_left s = "") then "" else (Str.trim_left s ++ String c "")%string.
Proof.
  intros Hc. induction s as [|a s IH].
  - unfold String.append. cbn [Str.trim_left]. by rewrite Hc.
  - change (String a s ++ String c "")%string with (String a (s ++ String c "")%string).
    cbn [Str.trim_left]. destruct (Str.is_space a); [exact IH|].
    by rewrite decide_False.
Qed.

(** A blank at the end does not survive the trim. *)
Lemma trim_snoc_space (s : string) (c : ascii) :
  Str.is_space c = true → Str.trim (s ++ String c "") = Str.trim s.
Proof.
  intros Hc. unfold Str.trim. rewrite trim_left_snoc_space by done.
  destruct (decide _) as [->|_]; [done|]. by apply trim_right_snoc_space.
Qed.

Lemma split_cons (sep c : ascii) (s : string) :
  Str.split sep (String c s)
  = if Ascii.eqb c sep then "" :: Str.split sep s
    else match Str.split sep s with
         | x :: r => String c x :: r
         | [] => [String c ""]
         end.
Proof. reflexivity. Qed.

(** Dropping the carriage return that ends a line changes its last
    cell only, by that carriage return. *)
Lemma split_drop_last_cr (s : string) :
  Forall2 (λ x x', x' = x ∨ x' = (x ++ String Str.CR "")%string)
    (Str.split "," (Str.drop_last_cr s)) (Str.split "," s).
Proof.
  induction s as [|c s IH]; [by repeat constructor|]. destruct s as [|d s].
  - cbn [Str.drop_last_cr]. destruct (Ascii.eqb c Str.CR) eqn:E.
    + apply Ascii.eqb_eq in E as ->. cbn. constructor; [by right | constructor].
    + apply Forall_Forall2_diag, Forall_forall. intros x _. by left.
  - change (Str.drop_last_cr (String c (String d s)))
      with (String c (Str.drop_last_cr (String d s))).
    rewrite !(split_cons _ c).
    destruct (Ascii.eqb c ","); [constructor; [by left | exact IH]|].
    destruct IH as [|x x' r r' Hx Hr].
    + constructor; [by left | constructor].
    + constructor; [|done]. destruct Hx as [->| ->]; [by left | by right].
Qed.

(** The cells of a line do not depend on a carriage return at its
    end. *)
Lemma cells_drop_last_cr (s : string) :
  Str.trim <$> Str.split "," (Str.drop_last_cr s) = Str.trim <$> Str.split "," s.
Proof.
  induction (split_drop_last_cr s) as [|x x' r r' Hx _ IH]; [done|].
  cbn [fmap list_fmap]. f_equal; [|exact IH].
  destruct Hx as [->| ->]; [done|]. symmetry. by apply trim_snoc_space.
Qed.

Lemma cells_strip_cr (l : list string) :
  (λ s, Str.trim <$> Str.split "," s) <$> Str.strip_cr l
  = (λ s, Str.trim <$> Str.split "," s) <$> l.
Proof.
  induction l as [|x l IH]; [done|]. destruct l as [|y l]; [done|].
  rewrite strip_cr_cons. rewrite !fmap_cons. rewrite IH, cells_drop_last_cr. done.
Qed.

(** The table read by [jsParseCSV] is the one read from the lines
    split at the line feeds alone: the trim of the cells takes the
    carriage returns away as well. *)
Lemma jsParseCSV_lines (csv : string) :
  jsParseCSV csv
  = let lines := Str.split Str.LF (Str.trim csv) in
    let headers := Str.trim <$> Str.split "," (hd "" lines) in
    let rows := (λ l, Str.trim <$> Str.split "," l) <$> tail lines in
    mkParsed headers rows (jsColumns headers rows).
Proof.
  unfold jsParseCSV, Str.split_lines. cbv zeta.
  set (l := Str.split Str.LF (Str.trim csv)).
  rewrite strip_cr_tail, cells_strip_cr.
  assert (Str.trim <$> Str.split "," (hd "" (Str.strip_cr l))
          = Str.trim <$> Str.split "," (hd "" l)) as ->; [|done].
  destruct l as [|x [|y l]]; [done..|]. apply cells_drop_last_cr.
Qed.

(** ** The analysis made at upload, the parse and the preview *)

Lemma filter_fmap_list {A B : Type} (f : A → B) (Q : B → Prop)
    `{∀ y, Decision (Q y)} (l : list A) :
  filter Q (f <$> l) = f <$> filter (λ x, Q (f x)) l.
Proof.
  induction l as [|x l IH]; [done|]. rewrite fmap_cons, !filter_cons.
  destruct (decide (Q (f x))); by rewrite IH.
Qed.

Lemma filter_complement_length {A : Type} (Q : A → Prop)
    `{∀ x, Decision (Q x)} (l : list A) :
  (length l - length (filter Q l))%nat = length (filter (λ x, ¬ Q x) l).
Proof.
  pose proof (Permutation_length (filter_app_complement Q l)) as E.
  rewrite length_app in E. lia.
Qed.

(** The upload handler reads, per line, the cells that [jsParseCSV]
    reads, an absent cell as the empty string. *)
Lemma upload_values_cells (lines : list string) (idx : nat) :
  upload_values lines idx
  = (λ r, nullish (r !! idx)) <$> ((λ l, Str.trim <$> Str.split "," l) <$> lines).
Proof.
  unfold upload_values. rewrite <- list_fmap_compose. apply list_fmap_ext.
  intros _ l _. cbn. by rewrite list_lookup_fmap.
Qed.

(** The number of rows with no text at [idx]. *)
Lemma blank_count (vals : list string) :
  (length vals - length (filter (λ v, v ≠ "") vals))%nat
  = length (filter (λ v, v = "") vals).
Proof.
  rewrite filter_complement_length. f_equal. apply list_filter_iff.
  intros v. split; [|by intros -> H].
  intros H. destruct (decide (v = "")); [done | by destruct H].
Qed.

(** Where no row is short the pool of a column is the list of its
    non-empty cells. *)
Lemma column_values_full (rows : list (list string)) (idx : nat) :
  Forall (λ r, idx < length r) rows →
  column_values rows idx
  = Some <$> filter (λ v, v ≠ "") ((λ r, nullish (r !! idx)) <$> rows).
Proof.
  unfold column_values. induction 1 as [|r rows Hr _ IH]; [done|].
  rewrite !fmap_cons, !filter_cons, IH.
  apply lookup_lt_is_Some_2 in Hr as [v Hv]. rewrite Hv.
  change (nullish (Some v)) with v.
  destruct (decide (v ≠ "")) as [Hne|He].
  - rewrite decide_True by congruence. done.
  - rewrite decide_False; [done|]. intros H. apply He. congruence.
Qed.

Lemma all_numbers_Some (l : list string) :
  all_numbers (Some <$> l) = forallb (λ v, bool_decide (is_Some (Number v))) l.
Proof. induction l as [|x l IH]; [done|]. cbn. by rewrite <- IH. Qed.

Lemma forallb_take {A : Type} (f : A → bool) (n : nat) (l : list A) :
  forallb f l = true → forallb f (take n l) = true.
Proof.
  revert n. induction l as [|x l IH]; intros [|n]; cbn; try done.
  intros H. apply andb_true_iff in H as [-> H]. by apply IH.
Qed.

(** The cells the preview does not count as null, against those the
    upload handler does not count as empty. *)
Lemma filter_non_null (cells : list cell) :
  filter non_null cells = Some <$> filter (λ v, v ≠ "") (nullish <$> cells).
Proof.
  induction cells as [|c cells IH]; [done|].
  rewrite fmap_cons, !filter_cons, IH. unfold non_null.
  destruct c as [v|]; [change (nullish (Some v)) with v|change (nullish None) with ""].
  - destruct (decide (v ≠ "")) as [Hne|He].
    + rewrite decide_True; [done|]. split; congruence.
    + rewrite decide_False; [done|]. intros [_ H]. apply He. congruence.
  - rewrite decide_False by (by intros [? _]). by rewrite decide_False by auto.
Qed.

Lemma filter_null_length (cells : list cell) :
  length (filter (λ v, ¬ non_null v) cells)
  = length (filter (λ v, v = "") (nullish <$> cells)).
Proof.
  rewrite <- blank_count, <- filter_complement_length, length_fmap. f_equal.
  by rewrite filter_non_null, !length_fmap.
Qed.

(** X7. The record stored at upload agrees with what [jsParseCSV]
    later reads from the same file: the row count is the number of
    parsed rows, the column count the number of headers, the column
    names are the headers, and the null count of a column is the
    number of rows whose cell is blank or absent.  For a column that
    no row is too short to reach, the stored type is the type the
    generators work with, and the pooled values and the nulls add up
    to the rows. *)
Theorem upload_agrees_with_parse (originalname csvData : string) :
  let d := upload originalname csvData in
  let p := jsParseCSV csvData in
  InsertDataset.rowCount d = length (rows p)
  ∧ InsertDataset.columnCount d = length (headers p)
  ∧ UploadColumn.name <$> InsertDataset.columns d = headers p
  ∧ ∀ idx uc col,
      InsertDataset.columns d !! idx = Some uc →
      columns p !! idx = Some col →
      UploadColumn.name uc = name col
      ∧ UploadColumn.nullCount uc
        = length (filter (λ r, nullish (r !! idx) = "") (rows p))
      ∧ (Forall (λ r, idx < length r) (rows p) →
           UploadColumn.type uc = type col
           ∧ (length (values col) + UploadColumn.nullCount uc)%nat = length (rows p)).
Proof.
  cbv zeta. rewrite jsParseCSV_lines. unfold upload. cbv zeta.
  cbn [InsertDataset.rowCount InsertDataset.columnCount InsertDataset.columns
       rows headers columns].
  set (lines := Str.split Str.LF (Str.trim csvData)).
  set (hs := Str.trim <$> Str.split "," (hd "" lines)).
  set (rs := (λ l, Str.trim <$> Str.split "," l) <$> tail lines).
  split; [by unfold rs; rewrite length_fmap|]. split; [done|].
  split.
  { unfold upload_columns. rewrite fmap_imap.
    rewrite <- (list_fmap_id hs) at 2. rewrite <- imap_const. by apply imap_ext. }
  intros idx uc col Hu Hc.
  unfold upload_columns in Hu. unfold jsColumns in Hc.
  rewrite list_lookup_imap in Hu. rewrite list_lookup_imap in Hc.
  destruct (hs !! idx) as [h|]; [|done]. cbn in Hu, Hc.
  injection Hu as <-. injection Hc as <-.
  cbn [UploadColumn.name UploadColumn.nullCount UploadColumn.type name type values].
  rewrite upload_values_cells. fold rs.
  split; [done|]. split.
  { by rewrite blank_count, filter_fmap_list, length_fmap. }
  intros Hfull. rewrite (column_values_full _ _ Hfull). split.
  - by rewrite <- fmap_take, all_numbers_Some.
  - pose proof (length_filter (λ v, v ≠ "") ((λ r, nullish (r !! idx)) <$> rs)) as Hle.
    rewrite !length_fmap in *. lia.
Qed.

(** X8. What the upload page shows before a file is sent agrees with
    what the server stores for it: the same headers, the first ten
    parsed rows, the same row count, and per column the same name and
    the same null count.  A column the page calls numeric is numeric
    on the server; the types are the same when the file has at most
    100 rows, the server looking at the first 100 non-empty values
    only. *)
Theorem preview_agrees_with_upload (originalname content : string) :
  let v := parseCSV content in
  let d := upload originalname content in
  Preview.headers v = headers (jsParseCSV content)
  ∧ Preview.rows v = take 10 (rows (jsParseCSV content))
  ∧ Preview.rowCount v = InsertDataset.rowCount d
  ∧ UploadColumn.name <$> Preview.columns v
    = UploadColumn.name <$> InsertDataset.columns d
  ∧ UploadColumn.nullCount <$> Preview.columns v
    = UploadColumn.nullCount <$> InsertDataset.columns d
  ∧ (∀ idx vc uc,
       Preview.columns v !! idx = Some vc →
       InsertDataset.columns d !! idx = Some uc →
       UploadColumn.type vc = numeric → UploadColumn.type uc = numeric)
  ∧ ((Preview.rowCount v ≤ 100)%nat → Preview.columns v = InsertDataset.columns d).
Proof.
  cbv zeta. rewrite jsParseCSV_lines. unfold parseCSV, upload. cbv zeta.
  cbn [Preview.headers Preview.rows Preview.rowCount Preview.columns
       InsertDataset.rowCount InsertDataset.columns rows headers].
  set (lines := Str.split Str.LF (Str.trim content)).
  set (hs := Str.trim <$> Str.split "," (hd "" lines)).
  set (rs := (λ l, Str.trim <$> Str.split "," l) <$> tail lines).
  unfold upload_columns.
  assert (Hvals : ∀ idx,
            filter non_null ((λ row, row !! idx) <$> rs)
            = Some <$> filter (λ v, v ≠ "") (upload_values (tail lines) idx)).
  { intros idx. rewrite filter_non_null, upload_values_cells. fold rs.
    by rewrite <- list_fmap_compose. }
  assert (Hnull : ∀ idx,
            length (filter (λ v, ¬ non_null v) ((λ row, row !! idx) <$> rs))
            = (length (upload_values (tail lines) idx)
               - length (filter (λ v, v ≠ "") (upload_values (tail lines) idx)))%nat).
  { intros idx. rewrite filter_null_length, blank_count, upload_values_cells.
    fold rs. by rewrite <- list_fmap_compose. }
  split; [done|]. split; [done|]. split; [by unfold rs; rewrite length_fmap|].
  split; [by rewrite !fmap_imap|].
  split.
  { rewrite !fmap_imap. apply imap_ext. intros idx h _. cbn. apply Hnull. }
  split.
  - intros idx vc uc Hv Hu. rewrite list_lookup_imap in Hv.
    rewrite list_lookup_imap in Hu.
    destruct (hs !! idx) as [h|]; [|done]. cbn in Hv, Hu.
    injection Hv as <-. injection Hu as <-. cbn [UploadColumn.type].
    rewrite Hvals, all_numbers_Some.
    destruct (forallb _ (filter _ _)) eqn:E; [|done]. intros _.
    by rewrite (forallb_take _ _ _ E).
  - intros Hle. apply imap_ext. intros idx h _. cbn beta zeta.
    rewrite Hnull, Hvals, all_numbers_Some. f_equal. rewrite take_ge; [done|].
    etrans; [apply length_filter|]. unfold upload_values. rewrite length_fmap.
    unfold rs in Hle. by rewrite length_fmap in Hle.
Qed.

(** ** The unconstrained fallback [jsGenerate] *)

Lemma Math_round_near (v : Q) :
  (v - (1 # 2) < inject_Z (Math_round v) <= v + (1 # 2))%Q.
Proof.
  unfold Math_round. split; [|apply Qfloor_le].
  pose proof (Qlt_floor (v + (1 # 2))) as H. rewrite inject_Z_plus in H.
  change (inject_Z 1) with 1%Q in H. lra.
Qed.









Lemma generate_rows_length (columns : list Column) (n k : nat) :
  length (generate_rows columns n k).1 = n.
Proof.
  revert k. induction n as [|n IH]; intros k; [done|]. cbn [generate_rows].
  destruct (foldl generate_cell (∅, k) columns) as [row k1].
  specialize (IH k1). destruct (generate_rows columns n k1) as [out k2].
  cbn [fst length] in *. by rewrite IH.
Qed.

(** Every row of [jsGenerate] is the result of the column loop on an
    empty object. *)
Lemma generate_rows_lookup (columns : list Column) (n k i : nat) (r : Row) :
  (generate_rows columns n k).1 !! i = Some r →
  ∃ k', r = (foldl generate_cell (∅, k') columns).1.
Proof.
  revert k i. induction n as [|n IH]; intros k i; [done|]. cbn [generate_rows].
  destruct (foldl generate_cell (∅, k) columns) as [row k1] eqn:E.
  specialize (IH k1). destruct (generate_rows columns n k1) as [out k2].
  cbn [fst] in *. destruct i as [|i]; cbn.
  - intros [= <-]. exists k. by rewrite E.
  - apply IH.
Qed.



(** ** Nothing to synthesize: the source table comes back *)

Lemma synthSet0_nothing (hs cols : list string) :
  (∀ c, c ∈ cols → c ∉ hs) → synthSet0 hs cols = [].
Proof.
  intros H. unfold synthSet0.
  assert (filter (λ c, c ∈ hs) cols = []) as ->; [|done].
  induction cols as [|c cols IH]; [done|]. rewrite filter_cons.
  rewrite decide_False by (apply H; by left).
  apply IH. intros c' Hc'. apply H. by right.
Qed.

Lemma relationPools_nothing (hs : list string) (rws : list (list string))
    (cols : list string) (rels : list (list string)) :
  synthSet0 hs cols = [] → relationPools hs rws cols rels = [].
Proof.
  intros H. unfold relationPools. generalize ([] : Pools).
  induction rels as [|pair rels IH]; intros pools; [done|]. cbn [foldl].
  destruct pair as [|a [|b [|c pair]]]; try apply IH.
  rewrite decide_False; [apply IH|]. rewrite H. intros [Ha _].
  by apply elem_of_nil in Ha.
Qed.

Lemma genRow_nothing (hs : list string) (rws : list (list string))
    (cols : list string) (cons : gmap string User.t) (rels : list (list string))
    (i k : nat) :
  synthSet0 hs cols = [] →
  genRow hs rws cols cons rels i (mkState [] k) = (original hs rws i, mkState [] k).
Proof.
  intros H. unfold genRow, after_relations. by rewrite relationPools_nothing.
Qed.

Lemma rowLoop_nothing (hs : list string) (rws : list (list string))
    (cols : list string) (cons : gmap string User.t) (rels : list (list string))
    (n i k : nat) :
  synthSet0 hs cols = [] →
  rowLoop hs rws cols cons rels n i (mkState [] k)
  = (baseRows hs rws n i, mkState [] k).
Proof.
  intros H. revert i. induction n as [|n IH]; intros i; [done|].
  cbn [rowLoop baseRows]. by rewrite genRow_nothing, IH.
Qed.

(** X11. When none of the selected names is a header (in particular
    when nothing is selected), the controlled fallback answers what
    the last resort answers: the seeds of the rows.  Constraints,
    relations and random draws then have no effect. *)
Theorem controlled_nothing_selected (fileData : string) (rowCount : nat)
    (cols_to_synthesize : list string) (constraints : gmap string User.t)
    (relations : list (list string)) :
  (∀ c, c ∈ cols_to_synthesize → c ∉ headers (jsParseCSV fileData)) →
  generate_controlled fileData rowCount cols_to_synthesize constraints relations
  = last_resort fileData rowCount.
Proof.
  intros H. apply synthSet0_nothing in H.
  unfold generate_controlled, last_resort, syntheticCsv, csvLines, outRows.
  cbv zeta. rewrite H. by rewrite rowLoop_nothing.
Qed.



Lemma upload_rowCount (originalname csvData : string) :
  InsertDataset.rowCount (upload originalname csvData)
  = length (rows (jsParseCSV csvData)).
Proof.
  rewrite jsParseCSV_lines. unfold upload. cbv zeta.
  cbn [InsertDataset.rowCount rows]. by rewrite length_fmap.
Qed.



(** ** The suggestions of [/api/analyze_dataset] *)

(** [find] answers the first element that passes the test. *)
Lemma find_first {A : Type} (f : A → bool) (l : list A) (x : A) :
  find f l = Some x
  ↔ ∃ before after,
      l = before ++ x :: after ∧ f x = true ∧ Forall (λ y, f y = false) before.
Proof.
  induction l as [|y l IH]; cbn [find].
  - split; [done|]. intros (b & a & E & _). by destruct b.
  - destruct (f y) eqn:Ey.
    + split.
      * intros [= ->]. exists [], l. by repeat split.
      * intros (b & a & E & Hx & Hb). destruct b as [|z b]; cbn in E.
        -- by injection E as ->.
        -- injection E as -> _. apply Forall_cons in Hb as [Hz _]. congruence.
    + rewrite IH. split.
      * intros (b & a & -> & Hx & Hb). exists (y :: b), a.
        split; [done|]. split; [done|]. by constructor.
      * intros (b & a & E & Hx & Hb). destruct b as [|z b]; cbn in E.
        -- injection E as -> _. congruence.
        -- injection E as -> ->. apply Forall_cons in Hb as [_ Hb]. by exists b, a.
Qed.

Lemma suggest_fold_elem (hs cs : list string) (acc : list (list string))
    (pair : list string) :
  pair ∈ foldl (suggest_for hs) acc cs
  ↔ pair ∈ acc
    ∨ ∃ c n, c ∈ cs ∧ n ≠ "" ∧ pair = [c; n]
             ∧ find (λ h, bool_decide (toLowerCase h
                                       = replace_suffix "code" "name" (toLowerCase c)))
                    hs = Some n.
Proof.
  revert acc. induction cs as [|c cs IH]; intros acc; cbn [foldl].
  - split; [by left|]. intros [H|(c & n & H & _)]; [done|].
    by apply elem_of_nil in H.
  - rewrite IH. unfold suggest_for. split.
    + intros [H|(c' & n & Hc' & Hn & -> & Hf)].
      * destruct (find _ hs) as [n|] eqn:Hf; [|by left].
        destruct (decide (n = "")) as [Hn|Hn]; [by left|].
        apply elem_of_app in H as [H|H]; [by left|].
        apply list_elem_of_singleton in H as ->. right. exists c, n.
        split; [by left|]. done.
      * right. exists c', n. split; [by right|]. done.
    + intros [H|(c' & n & Hc' & Hn & -> & Hf)].
      * left. destruct (find _ hs) as [n|]; [|done].
        destruct (decide (n = "")); [done|]. apply elem_of_app. by left.
      * apply elem_of_cons in Hc' as [->|Hc'].
        -- left. rewrite Hf, decide_False by done. apply elem_of_app. right.
           by apply list_elem_of_singleton.
        -- right. by exists c', n.
Qed.

(** X13. The relations suggested for a table are exactly the pairs
    [c, n] where [c] is a header that ends in [code], whatever the
    case, and [n] is the first header whose lower-case form is the
    lower-case form of [c] with a final [code] replaced by [name],
    provided [n] is not the empty string. *)
Theorem suggest_relations_spec (hs : list string) (pair : list string) :
  pair ∈ suggest_relations hs
  ↔ ∃ c n before after,
      pair = [c; n]
      ∧ c ∈ hs ∧ ends_with_ci "code" c = true
      ∧ n ≠ ""
      ∧ hs = before ++ n :: after
      ∧ toLowerCase n = replace_suffix "code" "name" (toLowerCase c)
      ∧ Forall (λ h, toLowerCase h ≠ replace_suffix "code" "name" (toLowerCase c))
               before.
Proof.
  unfold suggest_relations. cbv zeta. rewrite suggest_fold_elem. split.
  - intros [H|(c & n & Hc & Hn & -> & Hf)]; [by apply elem_of_nil in H|].
    apply list_elem_of_filter in Hc as [Hcode Hc].
    apply find_first in Hf as (before & after & -> & Hm & Hb).
    exists c, n, before, after. repeat split; try done.
    + by apply bool_decide_eq_true in Hm.
    + eapply Forall_impl; [exact Hb|]. intros h Hh. cbn in Hh.
      by apply bool_decide_eq_false in Hh.
  - intros (c & n & before & after & -> & Hc & Hcode & Hn & -> & Hm & Hb).
    right. exists c, n. split; [by apply list_elem_of_filter|].
    split; [done|]. split; [done|]. apply find_first. exists before, after.
    split; [done|]. split; [by apply bool_decide_eq_true|].
    eapply Forall_impl; [exact Hb|]. intros h Hh. cbn.
    by apply bool_decide_eq_false.
Qed.


Lemma elem_of_synthSet0 (hs cols : list string) (c : string) :
  c ∈ cols → c ∈ hs → c ∈ synthSet0 hs cols.
Proof.
  intros Hc Hh. unfold synthSet0. apply elem_of_uniq. by apply list_elem_of_filter.
Qed.


Lemma all_numbers_shorter (vals : list cell) (m n : nat) :
  (m ≤ n)%nat → all_numbers (take n vals) = true → all_numbers (take m vals) = true.
Proof.
  intros Hmn H. replace (take m vals) with (take m (take n vals)).
  - by apply forallb_take.
  - rewrite take_take. f_equal. lia.
Qed.

(** X15. A column for which the analysis suggests [int] or [float],
    and whose name does not make it a year column, is a numeric
    column for the generators; so a column that the generators treat
    as categorical is suggested as categorical, or is a year column. *)
Theorem numeric_suggestion_is_numeric_column (fileData : string) (idx : nat)
    (d : DType.t) (col : Column) :
  (analyze_dataset fileData).1.2 !! idx = Some d →
  columns (jsParseCSV fileData) !! idx = Some col →
  Str.contains_ci "year" (DType.name d) = false →
  DType.dtype d ≠ categorical_type →
  name col = DType.name d ∧ type col = numeric.
Proof.
  unfold analyze_dataset, jsParseCSV. cbv zeta. cbn [fst snd columns].
  intros Hd Hc Hyear Hty.
  apply analyze_dtypes_entry in Hd as (Hh & Hs & Hdt).
  unfold jsColumns in Hc. rewrite list_lookup_imap, Hh in Hc. injection Hc as <-.
  cbn [name type]. split; [done|].
  rewrite Hdt, Hs in Hty. unfold suggest in Hty. rewrite Hyear in Hty.
  destruct (all_numbers (take 200 _)) eqn:E; [|done].
  by rewrite (all_numbers_shorter _ 100 200) by (done || lia).
Qed.

(** ** From a table to its text and back *)

Lemma append_assoc (a b c : string) : ((a ++ b) ++ c = a ++ (b ++ c))%string.
Proof.
  induction a as [|x a IH]; [done|].
  change (String x ((a ++ b) ++ c) = String x (a ++ (b ++ c)))%string. by rewrite IH.
Qed.

Lemma append_nil_inv (a b : string) : (a ++ b)%string = "" → b = "".
Proof. by destruct a. Qed.

Lemma trim_left_length (s : string) :
  (String.length (Str.trim_left s) ≤ String.length s)%nat.
Proof.
  induction s as [|c s IH]; cbn [Str.trim_left String.length]; [lia|].
  destruct (Str.is_space c); cbn [String.length]; lia.
Qed.

Lemma trim_right_length (s : string) :
  (String.length (Str.trim_right s) ≤ String.length s)%nat.
Proof.
  induction s as [|c s IH]; cbn [Str.trim_right String.length]; [lia|].
  destruct (Str.trim_right s); [destruct (Str.is_space c)|]; cbn [String.length] in *; lia.
Qed.

Lemma trim_left_fixed (c : ascii) (s : string) :
  Str.trim_left (String c s) = String c s → Str.is_space c = false.
Proof.
  cbn [Str.trim_left]. destruct (Str.is_space c); [|done]. intros H.
  pose proof (trim_left_length s) as L. rewrite H in L. cbn [String.length] in L. lia.
Qed.

Lemma trim_left_app (a b : string) :
  Str.trim_left a = a → a ≠ "" → Str.trim_left (a ++ b) = (a ++ b)%string.
Proof.
  destruct a as [|c a]; [done|]. intros H _. apply trim_left_fixed in H.
  change (String c a ++ b)%string with (String c (a ++ b)%string).
  cbn [Str.trim_left]. by rewrite H.
Qed.

Lemma trim_right_app (a b : string) :
  Str.trim_right b = b → b ≠ "" → Str.trim_right (a ++ b) = (a ++ b)%string.
Proof.
  intros Hb Hne. induction a as [|c a IH]; [exact Hb|].
  change (String c a ++ b)%string with (String c (a ++ b)%string).
  cbn [Str.trim_right]. rewrite IH. destruct (a ++ b)%string eqn:E; [|done].
  by apply append_nil_inv in E.
Qed.

Lemma trim_fixed_left (s : string) : Str.trim s = s → Str.trim_left s = s.
Proof.
  destruct s as [|c s]; [done|]. unfold Str.trim. cbn [Str.trim_left].
  destruct (Str.is_space c); [|done]. intros H. exfalso.
  pose proof (trim_right_length (Str.trim_left s)) as L1.
  pose proof (trim_left_length s) as L2. rewrite H in L1.
  cbn [String.length] in L1. lia.
Qed.

Lemma trim_fixed_right (s : string) : Str.trim s = s → Str.trim_right s = s.
Proof.
  intros H. pose proof (trim_fixed_left s H) as E. unfold Str.trim in H.
  by rewrite E in H.
Qed.

Lemma trim_left_idem (s : string) : Str.trim_left (Str.trim_left s) = Str.trim_left s.
Proof.
  induction s as [|c s IH]; [done|]. cbn [Str.trim_left].
  destruct (Str.is_space c) eqn:E; [done|]. cbn [Str.trim_left]. by rewrite E.
Qed.

Lemma trim_right_idem (s : string) :
  Str.trim_right (Str.trim_right s) = Str.trim_right s.
Proof.
  induction s as [|c s IH]; [done|]. cbn [Str.trim_right].
  destruct (Str.trim_right s) as [|d t] eqn:E.
  - destruct (Str.is_space c) eqn:Ec; [done|]. cbn [Str.trim_right]. by rewrite Ec.
  - cbn [Str.trim_right] in *. by rewrite IH.
Qed.

Lemma trim_left_right (s : string) :
  Str.trim_left s = s → Str.trim_left (Str.trim_right s) = Str.trim_right s.
Proof.
  destruct s as [|c s]; [done|]. intros H. apply trim_left_fixed in H.
  cbn [Str.trim_right]. destruct (Str.trim_right s); rewrite ?H; cbn [Str.trim_left];
    by rewrite H.
Qed.

(** Trimming twice is trimming once. *)
Lemma trim_idem (s : string) : Str.trim (Str.trim s) = Str.trim s.
Proof.
  unfold Str.trim. rewrite trim_left_right by apply trim_left_idem.
  apply trim_right_idem.
Qed.

Lemma free_of_app (c : ascii) (a b : string) :
  free_of c (a ++ b) = free_of c a && free_of c b.
Proof.
  induction a as [|x a IH]; [done|].
  change (String x a ++ b)%string with (String x (a ++ b)%string).
  cbn [free_of]. rewrite IH. by rewrite andb_assoc.
Qed.

Lemma free_of_join (c : ascii) (sep : string) (l : list string) :
  free_of c sep = true → Forall (λ s, free_of c s = true) l →
  free_of c (Str.join sep l) = true.
Proof.
  intros Hsep. induction 1 as [|x l Hx Hl IH]; [done|].
  destruct l as [|y l]; [done|].
  change (Str.join sep (x :: y :: l)) with (x ++ sep ++ Str.join sep (y :: l))%string.
  rewrite !free_of_app, Hx, Hsep, IH. done.
Qed.

Lemma free_of_trim_left (c : ascii) (s : string) :
  free_of c s = true → free_of c (Str.trim_left s) = true.
Proof.
  induction s as [|x s IH]; [done|]. cbn [Str.trim_left]. intros H.
  destruct (Str.is_space x); [|done]. apply IH.
  cbn [free_of] in H. by apply andb_true_iff in H as [_ H].
Qed.

Lemma free_of_trim_right (c : ascii) (s : string) :
  free_of c s = true → free_of c (Str.trim_right s) = true.
Proof.
  induction s as [|x s IH]; [done|]. cbn [free_of Str.trim_right]. intros H.
  apply andb_true_iff in H as [Hx Hs]. specialize (IH Hs).
  destruct (Str.trim_right s); [destruct (Str.is_space x)|]; cbn [free_of] in *;
    by rewrite ?Hx, ?IH.
Qed.

Lemma free_of_trim (c : ascii) (s : string) :
  free_of c s = true → free_of c (Str.trim s) = true.
Proof. intros H. by apply free_of_trim_right, free_of_trim_left. Qed.

(** The pieces of a split have no separator in them. *)
Lemma split_pieces_free (sep : ascii) (s : string) :
  Forall (λ x, free_of sep x = true) (Str.split sep s).
Proof.
  induction s as [|c s IH]; [by repeat constructor|]. rewrite split_cons.
  destruct (Ascii.eqb c sep) eqn:E; [by constructor|].
  destruct IH as [|x r Hx Hr]; repeat constructor; cbn [free_of]; by rewrite ?E, ?Hx.
Qed.

Lemma split_pieces_free_of (c sep : ascii) (s : string) :
  free_of c s = true → Forall (λ x, free_of c x = true) (Str.split sep s).
Proof.
  induction s as [|x s IH]; [by repeat constructor|]. cbn [free_of]. intros H.
  apply andb_true_iff in H as [Hx Hs]. specialize (IH Hs). rewrite split_cons.
  destruct (Ascii.eqb x sep); [by constructor|].
  destruct IH as [|y r Hy Hr]; repeat constructor; cbn [free_of]; by rewrite ?Hx, ?Hy.
Qed.

(** The cells read from a line are clean. *)
Lemma line_cells_clean (l : string) :
  free_of Str.LF l = true → Forall clean (Str.trim <$> Str.split "," l).
Proof.
  intros Hl. apply Forall_fmap.
  pose proof (split_pieces_free "," l) as H1.
  pose proof (split_pieces_free_of Str.LF "," l Hl) as H2.
  induction H1 as [|x r Hx _ IH]; [constructor|].
  apply Forall_cons in H2 as [Hy H2]. constructor; [|by apply IH].
  split; [apply trim_idem|]. split; by apply free_of_trim.
Qed.

(** Every cell of a parsed table is clean. *)
Lemma parsed_clean (csv : string) :
  Forall clean (headers (jsParseCSV csv))
  ∧ Forall (Forall clean) (rows (jsParseCSV csv)).
Proof.
  rewrite jsParseCSV_lines. cbv zeta. cbn [headers rows].
  pose proof (split_pieces_free Str.LF (Str.trim csv)) as H.
  destruct (Str.split Str.LF (Str.trim csv)) as [|l ls]; cbn [hd tail].
  - split; [by apply line_cells_clean|constructor].
  - apply Forall_cons in H as [Hl Hls]. split; [by apply line_cells_clean|].
    apply Forall_fmap. eapply Forall_impl; [exact Hls|]. apply line_cells_clean.
Qed.

Lemma join_snoc (sep : string) (l : list string) (x : string) :
  l ≠ [] → Str.join sep (l ++ [x]) = (Str.join sep l ++ sep ++ x)%string.
Proof.
  induction l as [|y l IH]; [done|]. intros _. destruct l as [|z l]; [done|].
  change (Str.join sep ((y :: z :: l) ++ [x]))
    with (y ++ sep ++ Str.join sep ((z :: l) ++ [x]))%string.
  rewrite IH by done.
  change (Str.join sep (y :: z :: l)) with (y ++ sep ++ Str.join sep (z :: l))%string.
  by rewrite !append_assoc.
Qed.

Lemma join_left_solid (sep : string) (x : string) (l : list string) :
  Str.trim_left x = x → x ≠ "" →
  Str.trim_left (Str.join sep (x :: l)) = Str.join sep (x :: l)
  ∧ Str.join sep (x :: l) ≠ "".
Proof.
  intros Hx Hne. destruct l as [|y l]; [done|].
  change (Str.join sep (x :: y :: l)) with (x ++ (sep ++ Str.join sep (y :: l)))%string.
  split; [by apply trim_left_app|]. by destruct x.
Qed.

Lemma join_right_solid (sep : string) (x : string) (l : list string) :
  Str.trim_right x = x → x ≠ "" →
  Str.trim_right (Str.join sep (l ++ [x])) = Str.join sep (l ++ [x])
  ∧ Str.join sep (l ++ [x]) ≠ "".
Proof.
  intros Hx Hne. destruct l as [|y l]; [done|].
  rewrite join_snoc by done. rewrite <- append_assoc.
  split; [by apply trim_right_app|]. intros E. by apply append_nil_inv in E.
Qed.

(** A line of two clean cells or more neither starts nor ends with a
    blank, and is not empty. *)
Lemma line_solid (row : list string) :
  (2 ≤ length row)%nat → Forall clean row →
  Str.trim_left (Str.join "," row) = Str.join "," row
  ∧ Str.trim_right (Str.join "," row) = Str.join "," row
  ∧ Str.join "," row ≠ "".
Proof.
  intros Hlen Hclean. split; [|apply and_comm; split].
  - destruct row as [|c0 [|c1 row]]; [cbn in Hlen; lia..|].
    apply Forall_cons in Hclean as [(Hc & _) _].
    destruct (decide (c0 = "")) as [->|Hne]; [done|].
    by apply join_left_solid; [apply trim_fixed_left|].
  - destruct row as [|c0 [|c1 row]]; [cbn in Hlen; lia..|].
    change (Str.join "," (c0 :: c1 :: row))
      with (c0 ++ String "," (Str.join "," (c1 :: row)))%string.
    intros E. by apply append_nil_inv in E.
  - destruct row as [|cl init _] using rev_ind; [cbn in Hlen; lia|].
    assert (init ≠ []) as Hinit.
    { intros ->. cbn in Hlen. lia. }
    apply Forall_app in Hclean as [_ Hcl]. apply Forall_cons in Hcl as [(Hc & _) _].
    destruct (decide (cl = "")) as [->|Hne].
    + rewrite join_snoc by done. by apply trim_right_app.
    + by apply join_right_solid; [apply trim_fixed_right|].
Qed.

Lemma fmap_fixed {A : Type} (f : A → A) (l : list A) :
  Forall (λ x, f x = x) l → f <$> l = l.
Proof. induction 1 as [|x l Hx _ IH]; [done|]. by rewrite fmap_cons, Hx, IH. Qed.

Lemma row_reads_back (row : list string) :
  row ≠ [] → Forall clean row → Str.trim <$> Str.split "," (Str.join "," row) = row.
Proof.
  intros Hne Hclean. rewrite split_join; [|done|].
  - apply fmap_fixed. eapply Forall_impl; [exact Hclean|]. by intros x (? & _).
  - eapply Forall_impl; [exact Hclean|]. by intros x (_ & ? & _).
Qed.

Lemma row_line_free (row : list string) :
  Forall clean row → free_of Str.LF (Str.join "," row) = true.
Proof.
  intros Hclean. apply free_of_join; [done|].
  eapply Forall_impl; [exact Hclean|]. by intros x (_ & _ & ?).
Qed.

(** The text of such a table neither starts nor ends with a blank. *)
Lemma table_text_trimmed (hs : list string) (rws : list (list string)) :
  (2 ≤ length hs)%nat → Forall clean hs →
  Forall (λ row, (2 ≤ length row)%nat ∧ Forall clean row) rws →
  Str.trim (table_text hs rws) = table_text hs rws.
Proof.
  intros Hlen Hhs Hrws. destruct (line_solid hs Hlen Hhs) as (Hl & Hr & Hne).
  unfold Str.trim, table_text.
  destruct (join_left_solid (String Str.LF "") _ (Str.join "," <$> rws) Hl Hne)
    as [-> _].
  destruct rws as [|row rws _] using rev_ind; [exact Hr|].
  apply Forall_app in Hrws as [_ Hrow]. apply Forall_cons in Hrow as [[Hrl Hrc] _].
  destruct (line_solid row Hrl Hrc) as (_ & Hr' & Hne').
  rewrite fmap_app. cbn [fmap list_fmap]. rewrite app_comm_cons.
  by apply join_right_solid.
Qed.

Lemma table_text_nonempty (hs : list string) (rws : list (list string)) :
  (2 ≤ length hs)%nat → Forall clean hs → table_text hs rws ≠ "".
Proof.
  intros Hlen Hhs. destruct (line_solid hs Hlen Hhs) as (Hl & _ & Hne).
  unfold table_text. by apply join_left_solid.
Qed.

Lemma table_lines_free (hs : list string) (rws : list (list string)) :
  Forall clean hs → Forall (Forall clean) rws →
  Forall (λ s, free_of Str.LF s = true) (Str.join "," hs :: (Str.join "," <$> rws)).
Proof.
  intros Hhs Hrws. constructor; [by apply row_line_free|]. apply Forall_fmap.
  eapply Forall_impl; [exact Hrws|]. intros row H. by apply row_line_free.
Qed.

(** A table of clean cells, with two columns or more in every line, is
    read back from its text. *)
Lemma table_reads_back (hs : list string) (rws : list (list string)) :
  (2 ≤ length hs)%nat → Forall clean hs →
  Forall (λ row, (2 ≤ length row)%nat ∧ Forall clean row) rws →
  jsParseCSV (table_text hs rws) = mkParsed hs rws (jsColumns hs rws).
Proof.
  intros Hlen Hhs Hrws. rewrite jsParseCSV_lines. cbv zeta.
  rewrite table_text_trimmed by done. unfold table_text.
  rewrite split_join; [|done|].
  2:{ apply table_lines_free; [done|]. eapply Forall_impl; [exact Hrws|].
      by intros row [_ ?]. }
  cbn [hd tail].
  assert (Hs : hs ≠ []) by (intros ->; cbn in Hlen; lia).
  rewrite (row_reads_back hs Hs Hhs).
  assert ((λ l, Str.trim <$> Str.split "," l) <$> (Str.join "," <$> rws) = rws) as ->;
    [|done].
  rewrite <- list_fmap_compose. apply fmap_fixed.
  eapply Forall_impl; [exact Hrws|]. intros row [Hl Hc]. cbn.
  apply row_reads_back; [|done]. intros ->. cbn in Hl. lia.
Qed.

(** X16. Printing and parsing are inverse on clean tables: a table of
    clean cells (trimmed, with no comma and no line feed), with two
    cells or more in the header and in every row, is what
    [jsParseCSV] reads from the text the handlers print for it. *)
Theorem parse_table_text (hs : list string) (rws : list (list string)) :
  (2 ≤ length hs)%nat → Forall clean hs →
  Forall (λ row, (2 ≤ length row)%nat ∧ Forall clean row) rws →
  jsParseCSV (table_text hs rws) = mkParsed hs rws (jsColumns hs rws)
  ∧ Str.split Str.LF (table_text hs rws)
    = Str.join "," hs :: (Str.join "," <$> rws).
Proof.
  intros Hlen Hhs Hrws. split; [by apply table_reads_back|].
  unfold table_text. apply split_join; [done|].
  apply table_lines_free; [done|]. eapply Forall_impl; [exact Hrws|].
  by intros row [_ ?].
Qed.


(** ** The text of a synthetic table is well formed *)

Lemma clean_empty : clean "".
Proof. by repeat split. Qed.

Lemma nullish_clean (c : cell) : (∀ s, c = Some s → clean s) → clean (nullish c).
Proof. destruct c as [s|]; intros H; [by apply H | apply clean_empty]. Qed.

Lemma row_clean_insert (r : Row) (h : string) (c : cell) :
  row_clean r → (∀ s, c = Some s → clean s) → row_clean (<[h := c]> r).
Proof.
  intros Hr Hc h' s. destruct (decide (h = h')) as [->|Hne].
  - rewrite lookup_insert_eq. intros [= ->]. by apply Hc.
  - rewrite lookup_insert_ne by done. apply Hr.
Qed.

Lemma row_clean_set_prop (r : Row) (h : string) (c : cell) :
  row_clean r → (∀ s, c = Some s → clean s) → row_clean (set_prop h c r).
Proof.
  intros Hr Hc. unfold set_prop. case_decide; [done|]. by apply row_clean_insert.
Qed.

(** The texts of the infinities and of [NaN] are clean as well. *)
Lemma String_num_clean (x : num) : (∀ q, clean (String_ q)) → clean (String_num x).
Proof. intros H. destruct x as [q| | |]; [apply H|by repeat split..]. Qed.

Lemma seed_from_clean (h : nat) (hs : list string) (row : option (list string))
    (m : Row) :
  (∀ r, row = Some r → Forall clean r) → row_clean m →
  row_clean (seed_from h hs row m).
Proof.
  intros Hrow. revert h m. induction hs as [|n hs IH]; intros h m Hm; [done|].
  cbn [seed_from]. apply IH. apply row_clean_set_prop; [done|].
  intros s [= <-]. apply nullish_clean. intros c Hc.
  destruct row as [r|]; [|done]. cbn in Hc.
  specialize (Hrow r eq_refl). rewrite Forall_forall in Hrow. apply Hrow.
  by eapply list_elem_of_lookup_2.
Qed.

Lemma original_clean (hs : list string) (rws : list (list string)) (i : nat) :
  Forall (Forall clean) rws → row_clean (original hs rws i).
Proof.
  intros H. unfold original. apply seed_from_clean.
  - intros r Hr. rewrite Forall_forall in H. apply H. by eapply list_elem_of_lookup_2.
  - intros h s. by rewrite lookup_empty.
Qed.

Lemma at_indexOf_clean (r hs : list string) (a s : string) :
  Forall clean r → at_indexOf r hs a = Some s → clean s.
Proof.
  intros Hr. unfold at_indexOf. destruct (indexOf hs a) as [i|]; [|done]. cbn.
  intros Hi. rewrite Forall_forall in Hr. apply Hr. by eapply list_elem_of_lookup_2.
Qed.

Lemma apply_relation_clean (acc : Row * GenState) (kp : string * list (cell * cell)) :
  row_clean acc.1 →
  (∀ x y, (x, y) ∈ kp.2 →
          (∀ s, x = Some s → clean s) ∧ (∀ s, y = Some s → clean s)) →
  row_clean (apply_relation acc kp).1.
Proof.
  destruct acc as [row st], kp as [key pool]. cbn [fst snd]. intros Hrow Hpool.
  unfold apply_relation. destruct (Str.split "|" key) as [|a [|b ?]]; [done..|].
  destruct pool as [|p0 pool]; [done|]. cbn [fst].
  destruct ((p0 :: pool) !! _) as [[x y]|] eqn:Hpick.
  - apply list_elem_of_lookup_2 in Hpick. destruct (Hpool x y Hpick) as [Hx Hy].
    apply row_clean_set_prop; [apply row_clean_set_prop; [done|]|];
      intros s [= <-]; by apply nullish_clean.
  - apply row_clean_set_prop; [apply row_clean_set_prop; [done|]|];
      intros s [= <-]; apply clean_empty.
Qed.

Lemma relations_clean (pools : Pools) (acc : Row * GenState) :
  row_clean acc.1 →
  Forall (λ kp : string * list (cell * cell),
            ∀ x y, (x, y) ∈ kp.2 →
                   (∀ s, x = Some s → clean s) ∧ (∀ s, y = Some s → clean s)) pools →
  row_clean (foldl apply_relation acc pools).1.
Proof.
  intros Hacc Hpools. revert acc Hacc.
  induction Hpools as [|kp pools Hkp _ IH]; intros acc Hacc; [done|].
  cbn [foldl]. apply IH. by apply apply_relation_clean.
Qed.

Lemma relationPools_clean (hs : list string) (rws : list (list string))
    (cols : list string) (rels : list (list string)) :
  Forall (Forall clean) rws →
  Forall (λ kp : string * list (cell * cell),
            ∀ x y, (x, y) ∈ kp.2 →
                   (∀ s, x = Some s → clean s) ∧ (∀ s, y = Some s → clean s))
         (relationPools hs rws cols rels).
Proof.
  intros Hrws. apply Forall_forall. intros kp Hkp.
  apply relationPools_elem in Hkp as (a & b & _ & _ & _ & ->). cbn [snd].
  intros x y Hxy. unfold pool_of in Hxy.
  apply list_elem_of_fmap in Hxy as (r & [= -> ->] & Hr).
  rewrite Forall_forall in Hrws. split; intros s; apply at_indexOf_clean; by apply Hrws.
Qed.

Lemma column_values_clean (rws : list (list string)) (idx : nat) (s : string) :
  Forall (Forall clean) rws → Some s ∈ column_values rws idx → clean s.
Proof.
  intros Hrws Hs. unfold column_values in Hs. apply list_elem_of_filter in Hs as [_ Hs].
  apply list_elem_of_fmap in Hs as (r & Hs & Hr). rewrite Forall_forall in Hrws.
  specialize (Hrws r Hr). rewrite Forall_forall in Hrws. apply Hrws.
  by eapply list_elem_of_lookup_2.
Qed.

(** A cell drawn from the distinct values of a pool of clean texts. *)
Lemma pool_pick_clean (vals : list cell) (u : list cell) (i : nat) (s : string) :
  (∀ s, Some s ∈ vals → clean s) → uniq vals = u → mjoin (u !! i) = Some s → clean s.
Proof.
  intros Hvals <- Hs. apply Hvals. apply elem_of_uniq.
  destruct (uniq vals !! i) as [c|] eqn:E; [|done]. cbn in Hs. subst c.
  by eapply list_elem_of_lookup_2.
Qed.

Lemma synth_column_clean (hs : list string) (rws : list (list string))
    (cols : list string) (cons : gmap string User.t) (acc : Row * nat) (c : string) :
  (∀ q, clean (String_ q)) → Forall (Forall clean) rws →
  row_clean acc.1 → row_clean (synth_column hs rws cols cons acc c).1.
Proof.
  intros Hstr Hrws. destruct acc as [row k]. cbn [fst]. intros Hrow.
  unfold synth_column. destruct (find _ _) as [colInfo|] eqn:Hf; [|done].
  apply find_column in Hf as (idx & _ & Hvals).
  assert (Hpool : ∀ s, Some s ∈ values colInfo → clean s).
  { intros s. rewrite Hvals. by apply column_values_clean. }
  destruct (type colInfo), (numericMeta hs rws cols cons !! c) as [meta|];
    try (cbn [fst]; apply row_clean_set_prop; [done|]; intros s [= <-];
         by apply String_num_clean).
  all: destruct (uniq (values colInfo)) as [|u0 u] eqn:E; cbn [fst];
    (apply row_clean_set_prop; [done|]); intros s Hs;
    [injection Hs as <-; apply clean_empty | by eapply pool_pick_clean].
Qed.

Lemma synth_columns_clean (hs : list string) (rws : list (list string))
    (cols : list string) (cons : gmap string User.t) (cs : list string)
    (acc : Row * nat) :
  (∀ q, clean (String_ q)) → Forall (Forall clean) rws →
  row_clean acc.1 → row_clean (foldl (synth_column hs rws cols cons) acc cs).1.
Proof.
  intros Hstr Hrws. revert acc. induction cs as [|c cs IH]; intros acc Hacc; [done|].
  cbn [foldl]. apply IH. by apply synth_column_clean.
Qed.

Lemma genRow_clean (hs : list string) (rws : list (list string))
    (cols : list string) (cons : gmap string User.t) (rels : list (list string))
    (i : nat) (st : GenState) :
  (∀ q, clean (String_ q)) → Forall (Forall clean) rws →
  row_clean (genRow hs rws cols cons rels i st).1.
Proof.
  intros Hstr Hrws. unfold genRow, after_relations.
  pose proof (relations_clean (relationPools hs rws cols rels) (original hs rws i, st)
                (original_clean hs rws i Hrws)
                (relationPools_clean hs rws cols rels Hrws)) as H1.
  destruct (foldl apply_relation _ _) as [row1 st1]. cbn [fst] in H1.
  pose proof (synth_columns_clean hs rws cols cons (synthSet st1) (row1, draws st1)
                Hstr Hrws H1) as H2.
  by destruct (foldl _ _ (synthSet st1)) as [row2 k].
Qed.

Lemma generate_cell_clean (acc : Row * nat) (col : Column) :
  (∀ q, clean (String_ q)) → (∀ s, Some s ∈ values col → clean s) →
  row_clean acc.1 → row_clean (generate_cell acc col).1.
Proof.
  intros Hstr Hpool. destruct acc as [row k]. cbn [fst]. intros Hrow.
  unfold generate_cell. destruct (type col).
  - cbn [fst]. apply row_clean_set_prop; [done|]. intros s [= <-].
    by apply String_num_clean.
  - destruct (uniq (values col)) as [|u0 u] eqn:E; cbn [fst];
      (apply row_clean_set_prop; [done|]); intros s Hs;
      [injection Hs as <-; apply clean_empty | by eapply pool_pick_clean].
Qed.

Lemma generate_cells_clean (cols : list Column) (acc : Row * nat) :
  (∀ q, clean (String_ q)) →
  Forall (λ col, ∀ s, Some s ∈ values col → clean s) cols →
  row_clean acc.1 → row_clean (foldl generate_cell acc cols).1.
Proof.
  intros Hstr Hcols. revert acc.
  induction Hcols as [|col cols Hcol _ IH]; intros acc Hacc; [done|].
  cbn [foldl]. apply IH. by apply generate_cell_clean.
Qed.

Lemma jsColumns_clean (hs : list string) (rws : list (list string)) :
  Forall (Forall clean) rws →
  Forall (λ col, ∀ s, Some s ∈ values col → clean s) (jsColumns hs rws).
Proof.
  intros Hrws. apply Forall_forall. intros col Hcol. unfold jsColumns in Hcol.
  apply elem_of_lookup_imap_1 in Hcol as (idx & h & -> & _). cbn [values].
  intros s. by apply column_values_clean.
Qed.

Lemma row_cells_clean (hs : list string) (r : Row) :
  row_clean r → Forall clean (row_cells hs r).
Proof.
  intros Hr. unfold row_cells. apply Forall_fmap, Forall_forall. intros h _. cbn.
  apply nullish_clean. intros s Hs. unfold get in Hs.
  case_decide; [injection Hs as <-; by repeat split|].
  destruct (r !! h) as [c|] eqn:E; [|done]. cbn in Hs. subst c. by apply (Hr h).
Qed.

(** The text printed for rows of clean cells reads as the table of
    these rows. *)
Lemma rows_text_shows_table (hs : list string) (outs : list Row) :
  (2 ≤ length hs)%nat → Forall clean hs → Forall row_clean outs →
  shows_table
    (Str.join (String Str.LF "")
       (Str.join "," hs :: ((λ r, Str.join "," (row_cells hs r)) <$> outs)))
    hs (length outs).
Proof.
  intros Hlen Hhs Houts.
  assert (Str.join (String Str.LF "")
            (Str.join "," hs :: ((λ r, Str.join "," (row_cells hs r)) <$> outs))
          = table_text hs (row_cells hs <$> outs)) as ->.
  { unfold table_text. by rewrite <- list_fmap_compose. }
  assert (Hrws : Forall (λ row, (2 ≤ length row)%nat ∧ Forall clean row)
                        (row_cells hs <$> outs)).
  { apply Forall_fmap. eapply Forall_impl; [exact Houts|]. intros r Hr. cbn. split.
    - unfold row_cells. by rewrite length_fmap.
    - by apply row_cells_clean. }
  assert (Hlines : Str.split Str.LF (table_text hs (row_cells hs <$> outs))
                   = Str.join "," hs :: (Str.join "," <$> (row_cells hs <$> outs))).
  { unfold table_text. apply split_join; [done|]. apply table_lines_free; [done|].
    eapply Forall_impl; [exact Hrws|]. by intros row [_ ?]. }
  assert (Hcells : Str.split "," (Str.join "," hs) = hs).
  { apply split_join; [intros ->; cbn in Hlen; lia|].
    eapply Forall_impl; [exact Hhs|]. by intros x (_ & ? & _). }
  pose proof (table_text_nonempty hs (row_cells hs <$> outs) Hlen Hhs) as Hne.
  unfold shows_table. rewrite table_reads_back by done. cbn [headers rows].
  unfold DownloadPage.rows, DownloadPage.columns, ResultsPage.totalRows,
    ResultsPage.totalColumns, ResultsPage.syntheticHeaders, ResultsPage.syntheticLines.
  rewrite table_text_trimmed by done. rewrite Hlines. cbn [lookup list_lookup length].
  rewrite Hcells, !length_fmap.
  split; [done|]. split; [done|]. split.
  { apply Forall_fmap, Forall_forall. intros r _. cbn. unfold row_cells.
    by rewrite length_fmap. }
  split; [done|]. split; [done|]. split; [lia|]. split; done.
Qed.

(** X18. When [String] prints clean text and the file has two columns
    or more, the text of the controlled fallback reads as a table: the
    parser finds the source header and [rowCount] rows of full width
    in it, the results page counts [rowCount] rows, and the download
    page counts one more, the header line included.  The text is not
    empty. *)
Theorem controlled_text_shows_table (fileData : string) (rowCount : nat)
    (cols_to_synthesize : list string) (constraints : gmap string User.t)
    (relations : list (list string)) :
  (2 ≤ length (headers (jsParseCSV fileData)))%nat →
  (∀ q, clean (String_ q)) →
  shows_table
    (generate_controlled fileData rowCount cols_to_synthesize constraints relations).1
    (headers (jsParseCSV fileData)) rowCount.
Proof.
  intros Hlen Hstr. destruct (parsed_clean fileData) as [Hhs Hrws].
  unfold generate_controlled, syntheticCsv, csvLines. cbv zeta. cbn [fst].
  set (p := jsParseCSV fileData) in *.
  set (outs := outRows (headers p) (rows p) rowCount cols_to_synthesize
                 constraints relations).
  assert (Hn : length outs = rowCount) by apply rowLoop_length.
  rewrite <- Hn. apply rows_text_shows_table; [done..|].
  apply Forall_lookup. intros i r Hi.
  apply (outRows_lookup _ _ _ _ _ _ (λ _, True)) in Hi as (st & _ & ->); [|done..].
  by apply genRow_clean.
Qed.

(** X19. Under the same conditions the text of the unconstrained
    fallback of [/api/generate] reads as a table of [rowCount] rows
    under the source header. *)
Theorem generate_text_shows_table (fileData : string) (rowCount : nat) :
  (2 ≤ length (headers (jsParseCSV fileData)))%nat →
  (∀ q, clean (String_ q)) →
  shows_table (generate fileData rowCount).1 (headers (jsParseCSV fileData)) rowCount.
Proof.
  intros Hlen Hstr. destruct (parsed_clean fileData) as [Hhs Hrws].
  unfold generate. cbv zeta. cbn [fst].
  set (p := jsParseCSV fileData) in *.
  set (outs := jsGenerate (rows p) (columns p) rowCount).
  assert (Hn : length outs = rowCount) by apply generate_rows_length.
  rewrite <- Hn. apply rows_text_shows_table; [done..|].
  apply Forall_lookup. intros i r Hi. apply generate_rows_lookup in Hi as [k ->].
  apply generate_cells_clean; [done| |by intros h s; cbn [fst]; rewrite lookup_empty].
  apply jsColumns_clean. exact Hrws.
Qed.




(** A text without blank and comma is clean. *)
Lemma solid_clean (s : string) : solid s = true → clean s.
Proof.
  intros H. split; [|split].
  - unfold Str.trim.
    assert (Str.trim_left s = s) as ->.
    { destruct s as [|c s]; [done|]. cbn [solid Str.trim_left] in *.
      by destruct (Str.is_space c). }
    induction s as [|c s IH]; [done|]. cbn [solid] in H.
    apply andb_true_iff in H as [H Hs]. apply andb_true_iff in H as [Hc _].
    cbn [Str.trim_right]. rewrite (IH Hs). destruct s; [|done].
    by destruct (Str.is_space c).
  - induction s as [|c s IH]; [done|]. cbn [solid free_of] in *.
    apply andb_true_iff in H as [H Hs]. apply andb_true_iff in H as [_ Hc].
    by rewrite Hc, (IH Hs).
  - induction s as [|c s IH]; [done|]. cbn [solid free_of] in *.
    apply andb_true_iff in H as [H Hs]. apply andb_true_iff in H as [Hc _].
    rewrite (IH Hs), andb_true_r. destruct (Ascii.eqb c Str.LF) eqn:E; [|done].
    apply Ascii.eqb_eq in E. by subst c.
Qed.

Lemma solid_app (a b : string) : solid (a ++ b) = solid a && solid b.
Proof.
  induction a as [|c a IH]; [done|].
  change (String c a ++ b)%string with (String c (a ++ b)%string).
  cbn [solid]. by rewrite IH, andb_assoc.
Qed.

(** ** The pool of a column *)

(** X21. The pool that [jsParseCSV] keeps for the column at position
    [idx] holds exactly the non-empty cells that the rows have at
    [idx], and holds [undefined] exactly when some row is too short to
    reach [idx]; it is never longer than the table.  A column with an
    empty pool is numeric, and [undefined] among the first hundred
    pooled values makes the column categorical. *)
Theorem pool_of_column (fileData : string) (idx : nat) (col : Column) :
  let p := jsParseCSV fileData in
  columns p !! idx = Some col →
  (∀ s, Some s ∈ values col ↔ s ≠ "" ∧ ∃ row, row ∈ rows p ∧ row !! idx = Some s)
  ∧ (None ∈ values col ↔ ∃ row, row ∈ rows p ∧ (length row ≤ idx)%nat)
  ∧ (length (values col) ≤ length (rows p))%nat
  ∧ (values col = [] → type col = numeric)
  ∧ (None ∈ take 100 (values col) → type col = categorical).
Proof.
  cbv zeta. unfold jsParseCSV. cbv zeta. cbn [columns rows].
  set (hs := Str.trim <$> _). set (rs := _ <$> tail _).
  unfold jsColumns. rewrite list_lookup_imap.
  destruct (hs !! idx) as [h|]; [|done]. cbn. intros [= <-]. cbn [values type].
  unfold column_values. split; [|split; [|split; [|split]]].
  - intros s. rewrite list_elem_of_filter, list_elem_of_fmap. split.
    + intros [Hne (row & Hs & Hrow)]. split; [congruence|]. by exists row.
    + intros [Hne (row & Hrow & Hs)]. split; [congruence|]. by exists row.
  - rewrite list_elem_of_filter, list_elem_of_fmap. split.
    + intros [_ (row & Hs & Hrow)]. exists row. split; [done|].
      by apply lookup_ge_None.
    + intros (row & Hrow & Hlen). split; [done|]. exists row. split; [|done].
      symmetry. by apply lookup_ge_None.
  - etrans; [apply length_filter|]. by rewrite length_fmap.
  - by intros ->.
  - intros Hnone. destruct (all_numbers _) eqn:E; [|done]. exfalso.
    unfold all_numbers in E. rewrite forallb_forall in E.
    apply list_elem_of_In in Hnone. by apply E in Hnone.
Qed.

(** ** The suggestions against the generator *)


(** ** A blank file *)

Lemma blank_file_parse (fileData : string) :
  Str.trim fileData = "" →
  jsParseCSV fileData = mkParsed [""] [] [mkColumn "" numeric []].
Proof. intros H. unfold jsParseCSV. by rewrite H. Qed.

Lemma blank_file_text (fileData : string) (cols_to_synthesize : list string)
    (constraints : gmap string User.t) (relations : list (list string)) :
  Str.trim fileData = "" →
  (generate_controlled fileData 0 cols_to_synthesize constraints relations).1 = "".
Proof.
  intros H. unfold generate_controlled. cbv zeta. by rewrite blank_file_parse.
Qed.

(** ** The request of the model selection page *)

Lemma seed_snoc (dtypes : list DType.t) (d : DType.t) :
  ModelsPage.seed (dtypes ++ [d])
  = <[DType.name d :=
        User.mk (JString (ModelsPage.type_name (Suggestions.type (DType.suggestions d))))
                (ModelsPage.field (Suggestions.min (DType.suggestions d)))
                (ModelsPage.field (Suggestions.max (DType.suggestions d)))]>
      (ModelsPage.seed dtypes).
Proof. unfold ModelsPage.seed. by rewrite foldl_app. Qed.

(** Under distinct names the seeded entry of a name is the entry made
    of its own suggestions. *)
Lemma seed_lookup (dtypes : list DType.t) (d : DType.t) :
  NoDup (DType.name <$> dtypes) → d ∈ dtypes →
  ModelsPage.seed dtypes !! DType.name d
  = Some (User.mk
            (JString (ModelsPage.type_name (Suggestions.type (DType.suggestions d))))
            (ModelsPage.field (Suggestions.min (DType.suggestions d)))
            (ModelsPage.field (Suggestions.max (DType.suggestions d)))).
Proof.
  induction dtypes as [|x dtypes IH] using rev_ind; intros Hnd Hd.
  - by apply elem_of_nil in Hd.
  - rewrite seed_snoc. rewrite fmap_app in Hnd. apply NoDup_app in Hnd as (Hnd & Hx & _).
    apply elem_of_app in Hd as [Hd|Hd].
    + rewrite lookup_insert_ne; [by apply IH|]. intros E.
      apply (Hx (DType.name d)); [by apply list_elem_of_fmap_2|].
      rewrite <- E. cbn. left.
    + apply list_elem_of_singleton in Hd as ->. by rewrite lookup_insert_eq.
Qed.

Lemma analyze_dtypes_names (hs : list string) (rws : list (list string)) :
  DType.name <$> analyze_dtypes hs rws = hs.
Proof.
  unfold analyze_dtypes. rewrite fmap_imap.
  rewrite <- (list_fmap_id hs) at 2. rewrite <- imap_const. by apply imap_ext.
Qed.

(** X25. The request the model selection page sends when the seeded
    constraints are left as they are: for a file with distinct header
    names, the bounds in force for a selected column are the clamped
    year range when the name makes it a year column, and the observed
    range of the column otherwise.  When no column is ticked, every
    column of the file is selected. *)
Theorem seeded_constraints_effect (fileData : string) (colsToSynth : list string)
    (c : string) (meta : Meta.t) :
  let p := jsParseCSV fileData in
  let a := analyze_dataset fileData in
  NoDup (headers p) →
  (∀ h, h ∈ headers p → h ∈ synthSet0 (headers p) (ModelsPage.selected [] a.1.1))
  ∧ (numericMeta (headers p) (rows p) (ModelsPage.selected colsToSynth a.1.1)
       (ModelsPage.seed a.1.2) !! c = Some meta →
     ∃ idx col,
       columns p !! idx = Some col ∧ name col = c
       ∧ (Str.contains_ci "year" c = true →
          Meta.min meta
          = Qmax 1900 (inject_Z (Qfloor (min_or 1900 (nums_of (values col)))))
          ∧ Meta.max meta
            = Qmin 2025 (inject_Z (Qceiling (max_or 2025 (nums_of (values col))))))
       ∧ (Str.contains_ci "year" c = false →
          Meta.min meta = min_or 0 (nums_of (values col))
          ∧ Meta.max meta = max_or 1 (nums_of (values col)))).
Proof.
  cbv zeta. unfold analyze_dataset, jsParseCSV. cbv zeta.
  cbn [fst snd headers rows columns].
  set (hs := Str.trim <$> _). set (rs := _ <$> tail _). intros Hnd. split.
  { intros h Hh. by apply elem_of_synthSet0. }
  intros Hm. apply numericMeta_entry in Hm as (col & Hcol & Hname & _ & ->).
  unfold columns_, jsColumns in Hcol.
  apply elem_of_lookup_imap_1 in Hcol as (idx & h & -> & Hidx).
  cbn [name] in Hname. subst h.
  exists idx, (mkColumn c (if all_numbers (take 100 (column_values rs idx))
                           then numeric else categorical) (column_values rs idx)).
  split.
  { unfold jsColumns. by rewrite list_lookup_imap, Hidx. }
  split; [done|]. cbn [values name].
  set (d := DType.mk c (Suggestions.type (suggest c (column_values rs idx)))
              (suggest c (column_values rs idx))).
  assert (Hd : d ∈ analyze_dtypes hs rs).
  { unfold analyze_dtypes. apply list_elem_of_lookup. exists idx.
    by rewrite list_lookup_imap, Hidx. }
  assert (Hseed := seed_lookup (analyze_dtypes hs rs) d).
  rewrite analyze_dtypes_names in Hseed. specialize (Hseed Hnd Hd).
  cbn [DType.name DType.suggestions d] in Hseed.
  unfold meta_of, user_of. cbn [name values]. rewrite Hseed.
  cbn [default User.min User.max Meta.min Meta.max].
  unfold suggest. split; intros Hyear; rewrite Hyear.
  - done.
  - by destruct (all_numbers _).
Qed.

(** ** Categorical cells *)


End Fallback.

(** ** Scenarios *)

(** Closes a decidable goal on concrete data by evaluating its
    decision procedure. *)
Local Ltac by_evaluation := apply (bool_decide_unpack _); vm_compute; exact I.

Example people_parsed :
  headers (jsParseCSV NumberDec people_csv) = people_headers
  ∧ rows (jsParseCSV NumberDec people_csv) = people_rows
  ∧ type <$> columns (jsParseCSV NumberDec people_csv) = [categorical; numeric].
Proof. repeat split. Qed.

Example ragged_parsed :
  headers (jsParseCSV NumberDec ragged_csv) = ragged_headers
  ∧ rows (jsParseCSV NumberDec ragged_csv) = ragged_rows
  ∧ columns (jsParseCSV NumberDec ragged_csv)
    = [mkColumn "a" categorical [Some "x"; Some "z"];
       mkColumn "b" categorical [Some "y"; None]].
Proof. repeat split. Qed.

(** The scenario of the specification: only [age] is selected, with
    the constraint [int] in [25, 60]; whatever the draws are worth,
    the [name] column of the output is the one of the source. *)
Example people_names_pass_through (random : nat → Q) (i : nat) (r : Row) :
  outRows NumberDec StringDec random people_headers people_rows 3
          ["age"] age_25_60 [] !! i = Some r →
  row_cells people_headers r !! 0
  = Some (nullish (people_rows !! i ≫= (λ row, row !! 0))).
Proof.
  intros Hi.
  rewrite (row_cells_lookup people_headers r 0 "name" eq_refl).
  rewrite (unselected_get NumberDec StringDec random people_headers people_rows
             3 ["age"] age_25_60 [] i r "name" Hi).
  - rewrite (original_last people_headers people_rows i 0 "name"); [done|done|].
    split; [done|]. intros [|[|q]] Hq; [lia | done..].
  - by_evaluation.
  - by_evaluation.
Qed.


Lemma random_zero_range (n : nat) : is_draw (random_zero n).
Proof. split; discriminate. Qed.




(** A column of fractional numbers needs no constraint to leave its
    bounds: the only observed value 0.0004 is both bounds, and the
    value written is [Math.round(0.4) / 1000 = 0]. *)
Example fraction_rounds_below_minimum :
  ∃ r m,
    outRows NumberDec StringDec random_zero ["x"] [["0.0004"]] 1 ["x"] ∅ [] !! 0
      = Some r
    ∧ numericMeta NumberDec ["x"] [["0.0004"]] ["x"] ∅ !! "x" = Some m
    ∧ Meta.int m = false
    ∧ get r "x" = Some "0"
    ∧ numeric_value m (random_zero 0) = Fin 0
    ∧ (0 < Meta.min m)%Q.
Proof.
  eexists _, _.
  split; [vm_compute; reflexivity|]. split; [vm_compute; reflexivity|].
  split; [done|]. split; [by vm_compute|]. split; by vm_compute.
Qed.

(** With an [int] column and the bounds [-2^1023] and [2^1023], both
    whole and values of the format, the width of the interval
    overflows: the cell is [NaN] when the draw is 0, and
    [Infinity] when it is 1/2. *)
Example wide_bounds_overflow :
  let m := Meta.mk (- inject_Z (2 ^ 1023)) (inject_Z (2 ^ 1023)) true in
  numeric_value m 0 = NaN
  ∧ numeric_value m (1 # 2) = PosInf
  ∧ String_num StringDec (numeric_value m (1 # 2)) = "Infinity".
Proof. by vm_compute. Qed.




(** C6, refuted as stated.  Nothing is selected, so both columns are
    to be passed through; the two header positions bear one name, the
    row keeps one cell for both, and the first position prints the
    cell of the second: the line of the source row [1,2] is [2,2]. *)
Lemma twin_column_not_passed_through :
  ∃ r,
    outRows NumberDec StringDec random_half twin_headers twin_rows 1 [] ∅ [] !! 0
      = Some r
    ∧ twin_headers !! 0 = Some "x"
    ∧ twin_rows !! 0 ≫= (λ row, row !! 0) = Some "1"
    ∧ row_cells twin_headers r !! 0 = Some "2"
    ∧ syntheticCsv NumberDec StringDec random_half twin_headers twin_rows 1 [] ∅ []
      = "x,x
2,2".
Proof. eexists. repeat split; reflexivity. Qed.

(** The same for a column named [__proto__], which an object does not
    store: the line of the source row [1,2] is [[object Object],2]. *)
Example proto_column_not_passed_through :
  syntheticCsv NumberDec StringDec random_half ["__proto__"; "b"] [["1"; "2"]] 1
               [] ∅ []
  = "__proto__,b
[object Object],2".
Proof. reflexivity. Qed.


(** C10, refuted as stated.  Two columns are named [__proto__]: the
    finished row stores nothing under that name, so what the two
    positions print is not a value stored under the key, last or
    otherwise, and is no cell of the source. *)
Lemma proto_headers_store_nothing :
  ∃ r,
    outRows NumberDec StringDec random_half ["__proto__"; "__proto__"] [["1"; "2"]] 1
            [] ∅ [] !! 0 = Some r
    ∧ r !! "__proto__" = None
    ∧ row_cells ["__proto__"; "__proto__"] r = ["[object Object]"; "[object Object]"]
    ∧ syntheticCsv NumberDec StringDec random_half ["__proto__"; "__proto__"]
        [["1"; "2"]] 1 [] ∅ []
      = "__proto__,__proto__
[object Object],[object Object]".
Proof. eexists. repeat split; reflexivity. Qed.

(** C7 on a file with a year column whose values lie outside the
    calendar range, a fractional numeric column and a text column: the
    analyzer answers, in the order of the header, the clamped year
    range, a [float] suggestion and a [categorical] one. *)
Lemma suggest_by_kind_witness :
  ∃ d0 d1 d2,
    (analyze_dataset NumberDec toLowerCaseDec kinds_csv).1.2 = [d0; d1; d2]
    ∧ DType.name <$> [d0; d1; d2] = ["Birth_Year"; "price"; "city"]
    ∧ DType.suggestions d0 = Suggestions.mk int_type (Some 1900%Q) (Some 2025%Q)
    ∧ DType.dtype d1 = float_type
    ∧ DType.suggestions d2 = Suggestions.mk categorical_type None None.
Proof.
  destruct (suggest_by_kind NumberDec toLowerCaseDec kinds_csv 0 "Birth_Year" eq_refl)
    as (Hlen & d0 & H0 & Hn0 & Ht0 & Hyear & _ & _).
  destruct (suggest_by_kind NumberDec toLowerCaseDec kinds_csv 1 "price" eq_refl)
    as (_ & d1 & H1 & Hn1 & Ht1 & _ & Hnum & _).
  destruct (suggest_by_kind NumberDec toLowerCaseDec kinds_csv 2 "city" eq_refl)
    as (_ & d2 & H2 & Hn2 & Ht2 & _ & _ & Hcat).
  exists d0, d1, d2.
  destruct (analyze_dataset NumberDec toLowerCaseDec kinds_csv).1.2
    as [|e0 [|e1 [|e2 [|e3 l]]]]; try discriminate Hlen.
  injection H0 as ->. injection H1 as ->. injection H2 as ->.
  split; [done|]. split; [by rewrite !fmap_cons, Hn0, Hn1, Hn2|].
  assert (Ey : nums_of NumberDec
                 (column_values (rows (jsParseCSV NumberDec kinds_csv)) 0)
               = [(3701 # 2)%Q; 2030%Q]) by (by vm_compute).
  assert (Ep : nums_of NumberDec
                 (column_values (rows (jsParseCSV NumberDec kinds_csv)) 1)
               = [(3 # 2)%Q; 2%Q]) by (by vm_compute).
  rewrite Ey in Hyear. rewrite Ep in Hnum.
  split; [|split].
  - destruct (Hyear eq_refl) as (Ht & Hmin & Hmax & _).
    destruct (DType.suggestions d0) as [t lo hi]. cbn in Ht, Hmin, Hmax.
    rewrite Ht, (Hmin (3701 # 2)%Q), (Hmax 2030%Q); [done| |].
    + split; [right; left|]. apply Forall_forall. by repeat constructor.
    + split; [left|]. apply Forall_forall. by repeat constructor.
  - rewrite Ht1.
    destruct (Hnum eq_refl ltac:(by vm_compute) (3 # 2)%Q 2%Q) as (_ & _ & _ & Hfloat).
    + split; [left|]. apply Forall_forall. by repeat constructor.
    + split; [right; left|]. apply Forall_forall. by repeat constructor.
    + apply Hfloat. intros [Hi _]. apply isInteger_integral in Hi. done.
  - apply Hcat; [done | by vm_compute].
Defined.

(** C8 on a constraint whose [min] is a string and whose [max] is
    [null]: the bounds of [age] are the observed 30 and 50. *)
Lemma constraint_falls_back_to_observed_witness :
  ∃ m,
    numericMeta NumberDec people_headers people_rows ["age"] age_not_numbers
      !! "age" = Some m
    ∧ Meta.min m = 30%Q ∧ Meta.max m = 50%Q.
Proof.
  destruct (numericMeta NumberDec people_headers people_rows ["age"]
              age_not_numbers !! "age") as [m|] eqn:E; [|by vm_compute in E].
  exists m. split; [done|].
  destruct (constraint_falls_back_to_observed NumberDec people_headers
              people_rows ["age"] age_not_numbers "age" m E)
    as (col & Hin & Hname & Hmin & Hmax & _).
  apply elem_of_cons in Hin as [->|Hin]; [discriminate Hname|].
  apply list_elem_of_singleton in Hin as ->.
  split.
  - by destruct Hmin as [-> _].
  - by destruct Hmax as [-> _].
Defined.

(** C3, at an input where the code departs from it. The second row of
    the table has no cell for column [b]; the pool of [b] keeps the
    resulting [undefined] beside ["y"], a draw of 1/2 picks it, and the
    synthesized cell is printed empty although the only non-empty
    value observed in the column is ["y"]. *)
Theorem categorical_pool_keeps_absent_cell :
  let p := jsParseCSV NumberDec ragged_csv in
  ∃ r,
    outRows NumberDec StringDec random_half (headers p) (rows p) 2 ["b"] ∅ [] !! 0
      = Some r
    ∧ find (λ c, bool_decide (name c = "b")) (columns p)
      = Some (mkColumn "b" categorical [Some "y"; None])
    ∧ get r "b" = None
    ∧ row_cells (headers p) r !! 1 = Some ""
    ∧ distinct_values (rows p) 1 = ["y"]
    ∧ ("" ∉ distinct_values (rows p) 1)
    ∧ fst (generate_controlled NumberDec StringDec random_half ragged_csv 2
             ["b"] ∅ [])
      = "a,b
x,
z,".
Proof.
  eexists. repeat split; try reflexivity.
  by_evaluation.
Qed.

(** C4 on the scenario of the specification: three rows under the
    header line [name,age], and a text of four lines. *)
Lemma synthetic_table_shape_witness :
  length (outRows NumberDec StringDec random_half people_headers people_rows 3
                  ["age"] age_25_60 []) = 3
  ∧ csvLines NumberDec StringDec random_half people_headers people_rows 3
             ["age"] age_25_60 [] !! 0 = Some "name,age"
  ∧ length (Str.split Str.LF
              (syntheticCsv NumberDec StringDec random_half people_headers
                            people_rows 3 ["age"] age_25_60 [])) = 4
  ∧ syntheticCsv NumberDec StringDec random_half people_headers people_rows 3
                 ["age"] age_25_60 []
    = "name,age
Alice,43
Bob,43
Carol,43".
Proof.
  destruct (synthetic_table_shape NumberDec StringDec random_half
              people_headers people_rows 3 ["age"] age_25_60 [])
    as (Hlen & _ & Hhead & _ & Htext).
  split; [exact Hlen|]. split; [exact Hhead|]. split; [|reflexivity].
  apply Htext. by_evaluation.
Defined.

Local Open Scope list_scope.

(** ** The in-memory storage *)

Section StoreFacts.

Context {P R : Type}.

Implicit Types st : Store.t P R.

(** *** Sorting by decreasing time *)

Lemma insert_desc_perm {A : Type} (key : A → Z) (x : A) (l : list A) :
  Store.insert_desc key x l ≡ₚ x :: l.
Proof.
  induction l as [|y l IH]; cbn [Store.insert_desc]; [done|].
  destruct (key y <=? key x)%Z; [done|]. rewrite IH. apply Permutation_swap.
Qed.

Lemma sort_desc_perm {A : Type} (key : A → Z) (l : list A) :
  Store.sort_desc key l ≡ₚ l.
Proof.
  induction l as [|x l IH]; [done|]. unfold Store.sort_desc in *. cbn [foldr].
  by rewrite insert_desc_perm, IH.
Qed.

Lemma insert_desc_sorted {A : Type} (key : A → Z) (x : A) (l : list A) :
  StronglySorted (λ a b, (key b ≤ key a)%Z) l →
  StronglySorted (λ a b, (key b ≤ key a)%Z) (Store.insert_desc key x l).
Proof.
  induction 1 as [|y l Hs IH Hy]; cbn [Store.insert_desc].
  - constructor; [constructor | constructor].
  - destruct (key y <=? key x)%Z eqn:E.
    + apply Z.leb_le in E. constructor; [by constructor|].
      constructor; [done|]. eapply Forall_impl; [exact Hy|]. cbn. lia.
    + apply Z.leb_gt in E. constructor; [done|].
      rewrite (insert_desc_perm key x l). constructor; [lia | done].
Qed.

Lemma sort_desc_sorted {A : Type} (key : A → Z) (l : list A) :
  StronglySorted (λ a b, (key b ≤ key a)%Z) (Store.sort_desc key l).
Proof.
  induction l as [|x l IH]; [constructor|].
  unfold Store.sort_desc in *. cbn [foldr]. by apply insert_desc_sorted.
Qed.

(** The first element of the sorted list is the first element of the
    list that has the greatest key. *)
Lemma sort_desc_head {A : Type} (key : A → Z) (l : list A) (g : A) :
  head (Store.sort_desc key l) = Some g →
  ∃ l1 l2, l = l1 ++ g :: l2
           ∧ Forall (λ x, (key x < key g)%Z) l1
           ∧ Forall (λ x, (key x ≤ key g)%Z) l2.
Proof.
  revert g. induction l as [|a l IH]; intros g; [done|].
  unfold Store.sort_desc in *. cbn [foldr].
  destruct (foldr (Store.insert_desc key) [] l) as [|y s] eqn:E; cbn [Store.insert_desc].
  - intros [= <-]. exists [], l. split; [done|]. split; [constructor|].
    assert (Hl : l = []).
    { apply Permutation_nil_r. rewrite <- (sort_desc_perm key l).
      unfold Store.sort_desc. by rewrite E. }
    subst l. constructor.
  - destruct (IH y eq_refl) as (l1 & l2 & -> & H1 & H2).
    destruct (key y <=? key a)%Z eqn:Hya; cbn [head]; intros [= <-].
    + apply Z.leb_le in Hya. exists [], (l1 ++ y :: l2). split; [done|].
      split; [constructor|]. apply Forall_app. split.
      * eapply Forall_impl; [exact H1|]. cbn. lia.
      * constructor; [done|]. eapply Forall_impl; [exact H2|]. cbn. lia.
    + apply Z.leb_gt in Hya. exists (a :: l1), l2. split; [done|].
      split; [|done]. by constructor.
Qed.

Lemma sort_desc_head_None {A : Type} (key : A → Z) (l : list A) :
  head (Store.sort_desc key l) = None ↔ l = [].
Proof.
  split; [|by intros ->]. intros H.
  destruct (Store.sort_desc key l) as [|x s] eqn:E; [|done].
  apply Permutation_nil_r. by rewrite <- (sort_desc_perm key l), E.
Qed.

(** *** Lookups *)

Lemma find_snoc {A : Type} (f : A → bool) (l : list A) (x : A) :
  find f (l ++ [x]) = match find f l with
                      | Some y => Some y
                      | None => if f x then Some x else None
                      end.
Proof.
  induction l as [|y l IH]; cbn [find app]; [done|]. by destruct (f y).
Qed.

Lemma find_id_None {A : Type} (ident : A → string) (id : string) (l : list A) :
  find (λ x, bool_decide (ident x = id)) l = None ↔ Forall (λ x, ident x ≠ id) l.
Proof.
  induction l as [|y l IH]; cbn [find]; [by split; [constructor|]|].
  case_bool_decide as Hy.
  - split; [done|]. intros H. by apply Forall_cons in H as [? _].
  - rewrite IH. split; [by constructor|]. intros H. by apply Forall_cons in H as [_ ?].
Qed.

Lemma find_id_Some {A : Type} (ident : A → string) (id : string) (l : list A) (x : A) :
  find (λ x, bool_decide (ident x = id)) l = Some x → x ∈ l ∧ ident x = id.
Proof.
  intros H. apply find_some in H as [Hin Hid].
  split; [by apply list_elem_of_In | by apply bool_decide_eq_true in Hid].
Qed.

Lemma find_filter_ne {A : Type} (ident : A → string) (Q : A → Prop)
    `{∀ x, Decision (Q x)} (id : string) (l : list A) :
  (∀ x, ident x = id → Q x) →
  find (λ x, bool_decide (ident x = id)) (filter Q l)
  = find (λ x, bool_decide (ident x = id)) l.
Proof.
  intros HQ. induction l as [|y l IH]; [done|].
  rewrite filter_cons. destruct (decide (Q y)) as [Hy|Hy]; cbn [find].
  - by rewrite IH.
  - rewrite IH. case_bool_decide as E; [|done]. by destruct Hy; apply HQ.
Qed.

Lemma filter_none {A : Type} (Q : A → Prop) `{∀ x, Decision (Q x)} (l : list A) :
  Forall (λ x, ¬ Q x) l → filter Q l = [].
Proof.
  induction 1 as [|x l Hx _ IH]; [done|]. rewrite filter_cons.
  by destruct (decide (Q x)).
Qed.

(** X1. A record just created is found under its identifier when the
    identifier was not in use; a record found before a creation is
    still the one found after it, also when the new record bears the
    same identifier; creating touches no other array. *)
Theorem create_then_get (newId : string) (now : Z)
    (insertDataset : InsertDataset.t) (insertGeneration : InsertGeneration.t P)
    (insertEvaluation : InsertEvaluation.t R) st :
  (let '(item, st') := Store.createDataset newId now insertDataset st in
   (Store.getDataset newId st = None → Store.getDataset newId st' = Some item)
   ∧ (∀ id d, Store.getDataset id st = Some d → Store.getDataset id st' = Some d)
   ∧ (∀ id, id ≠ newId → Store.getDataset id st' = Store.getDataset id st)
   ∧ Dataset.id item = newId
   ∧ Store.datasets st' = Store.datasets st ++ [item]
   ∧ Store.generations st' = Store.generations st
   ∧ Store.evaluations st' = Store.evaluations st)
  ∧ (let '(item, st') := Store.createGeneration newId now insertGeneration st in
     (Store.getGeneration newId st = None → Store.getGeneration newId st' = Some item)
     ∧ (∀ id g, Store.getGeneration id st = Some g → Store.getGeneration id st' = Some g)
     ∧ (∀ id, id ≠ newId → Store.getGeneration id st' = Store.getGeneration id st)
     ∧ Generation.id item = newId
     ∧ Generation.completedAt item = None
     ∧ Store.datasets st' = Store.datasets st
     ∧ Store.generations st' = Store.generations st ++ [item]
     ∧ Store.evaluations st' = Store.evaluations st)
  ∧ (let '(item, st') := Store.createEvaluation newId now insertEvaluation st in
     let gid := InsertEvaluation.generationId insertEvaluation in
     (Store.getEvaluationByGeneration gid st = None →
        Store.getEvaluationByGeneration gid st' = Some item)
     ∧ (∀ id e, Store.getEvaluationByGeneration id st = Some e →
          Store.getEvaluationByGeneration id st' = Some e)
     ∧ (∀ id, id ≠ gid →
          Store.getEvaluationByGeneration id st' = Store.getEvaluationByGeneration id st)
     ∧ Store.datasets st' = Store.datasets st
     ∧ Store.generations st' = Store.generations st
     ∧ Store.evaluations st' = Store.evaluations st ++ [item]).
Proof.
  unfold Store.createDataset, Store.createGeneration, Store.createEvaluation,
    Store.getDataset, Store.getGeneration, Store.getEvaluationByGeneration.
  cbn [Store.datasets Store.generations Store.evaluations].
  split; [|split]; (split; [|split; [|split]]).
  all: try (intros H; rewrite find_snoc, H; cbn; by rewrite bool_decide_eq_true_2).
  all: try (intros id x H; by rewrite find_snoc, H).
  all: try (intros id Hid; rewrite find_snoc; destruct (find _ _); [done|];
            cbn; by rewrite bool_decide_eq_false_2).
  all: done.
Qed.

(** X2. Deleting a dataset removes it and the generations made from
    it, and leaves the other datasets and generations as they were.
    Of the evaluations it keeps exactly those whose generation is not
    among the generations that remain, so no remaining generation has
    an evaluation afterwards. *)
Theorem deleteDataset_effect (id : string) st :
  let st' := Store.deleteDataset id st in
  Store.getDataset id st' = None
  ∧ (∀ id', id' ≠ id → Store.getDataset id' st' = Store.getDataset id' st)
  ∧ (∀ g, g ∈ Store.generations st'
          ↔ g ∈ Store.generations st ∧ Generation.datasetId g ≠ id)
  ∧ Store.getGenerationsByDataset id st' = []
  ∧ (∀ e, e ∈ Store.evaluations st'
          ↔ e ∈ Store.evaluations st
            ∧ ∀ g, g ∈ Store.generations st' →
                   Generation.id g ≠ StoredEvaluation.generationId e)
  ∧ (∀ g, g ∈ Store.generations st' →
          Store.getEvaluationByGeneration (Generation.id g) st' = None).
Proof.
  cbv zeta. unfold Store.deleteDataset, Store.getDataset,
    Store.getGenerationsByDataset, Store.getEvaluationByGeneration.
  cbn [Store.datasets Store.generations Store.evaluations].
  assert (Hev : ∀ e : StoredEvaluation.t R,
            e ∈ filter (λ e, find (λ g, bool_decide (Generation.id g
                                      = StoredEvaluation.generationId e))
                               (filter (λ g : Generation.t P, Generation.datasetId g ≠ id)
                                       (Store.generations st)) = None)
                       (Store.evaluations st)
            ↔ e ∈ Store.evaluations st
              ∧ ∀ g, g ∈ filter (λ g : Generation.t P, Generation.datasetId g ≠ id)
                                (Store.generations st) →
                     Generation.id g ≠ StoredEvaluation.generationId e).
  { intros e. rewrite list_elem_of_filter, find_id_None, Forall_forall. tauto. }
  split; [|split; [|split; [|split; [|split]]]].
  - apply find_id_None, Forall_forall. intros d Hd.
    by apply list_elem_of_filter in Hd as [Hd _].
  - intros id' Hne. apply find_filter_ne. intros d -> ->. by apply Hne.
  - intros g. rewrite list_elem_of_filter. tauto.
  - rewrite filter_none; [done|].
    apply Forall_forall. intros g Hg. by apply list_elem_of_filter in Hg as [Hg _].
  - exact Hev.
  - intros g Hg. apply find_id_None, Forall_forall. intros e He.
    apply Hev in He as [_ He]. intros Heq. by apply (He g Hg).
Qed.

Lemma find_list_find {A : Type} (ident : A → string) (id : string) (l : list A) :
  find (λ x, bool_decide (ident x = id)) l
  = snd <$> list_find (λ x, ident x = id) l.
Proof.
  induction l as [|y l IH]; [done|]. cbn [find list_find].
  case_bool_decide as Hy; [by rewrite decide_True | rewrite decide_False by done].
  rewrite IH. by destruct (list_find _ l) as [[i x]|].
Qed.

Lemma find_id_insert_same {A : Type} (ident : A → string) (id : string)
    (l : list A) (idx : nat) (g g' : A) :
  l !! idx = Some g →
  (∀ j y, l !! j = Some y → j < idx → ident y ≠ id) →
  ident g' = id →
  find (λ x, bool_decide (ident x = id)) (<[idx := g']> l) = Some g'.
Proof.
  revert idx. induction l as [|y l IH]; intros idx Hidx Hbefore Hg'; [done|].
  destruct idx as [|idx]; cbn [find insert list_insert].
  - by rewrite bool_decide_eq_true_2.
  - rewrite bool_decide_eq_false_2 by (apply (Hbefore 0 y); [done | lia]).
    apply IH; [done| |done]. intros j z Hj Hlt. apply (Hbefore (S j) z); [done | lia].
Qed.

Lemma find_id_insert_other {A : Type} (ident : A → string) (id' : string)
    (l : list A) (idx : nat) (g g' : A) :
  l !! idx = Some g → ident g ≠ id' → ident g' ≠ id' →
  find (λ x, bool_decide (ident x = id')) (<[idx := g']> l)
  = find (λ x, bool_decide (ident x = id')) l.
Proof.
  revert idx. induction l as [|y l IH]; intros idx Hidx Hg Hg'; [done|].
  destruct idx as [|idx]; cbn [find insert list_insert].
  - injection Hidx as ->. by rewrite !bool_decide_eq_false_2.
  - case_bool_decide; [done|]. by apply IH.
Qed.

(** X3. Updating a generation that is not stored answers [undefined]
    and changes nothing.  Updating a stored one replaces, at its
    position, the first generation bearing the identifier by its merge
    with the given fields, and answers that merge; the array keeps its
    length and its other entries, the other arrays are untouched, and
    unless the fields rename the generation it is what a lookup of the
    identifier finds afterwards. *)
Theorem updateGeneration_effect (id : string) (data : GenerationPatch.t P) st :
  (Store.getGeneration id st = None → Store.updateGeneration id data st = (None, st))
  ∧ (∀ g, Store.getGeneration id st = Some g →
       let g' := Store.merge g data in
       let st' := (Store.updateGeneration id data st).2 in
       (Store.updateGeneration id data st).1 = Some g'
       ∧ (∃ idx, Store.generations st !! idx = Some g
                 ∧ Store.generations st' = <[idx := g']> (Store.generations st)
                 ∧ Store.generations st' !! idx = Some g'
                 ∧ ∀ j, j ≠ idx →
                     Store.generations st' !! j = Store.generations st !! j)
       ∧ length (Store.generations st') = length (Store.generations st)
       ∧ Store.datasets st' = Store.datasets st
       ∧ Store.evaluations st' = Store.evaluations st
       ∧ (GenerationPatch.id data = None →
            Store.getGeneration id st' = Some g'
            ∧ ∀ id', id' ≠ id →
                Store.getGeneration id' st' = Store.getGeneration id' st)).
Proof.
  unfold Store.getGeneration, Store.updateGeneration. rewrite find_list_find.
  split.
  - intros H. by destruct (list_find _ _) as [[idx g]|].
  - intros g H. destruct (list_find _ _) as [[idx g0]|] eqn:E; [|done].
    injection H as ->. cbn [fst snd Store.datasets Store.generations Store.evaluations].
    apply list_find_Some in E as (Hidx & Hid & Hbefore).
    assert (Hlt : idx < length (Store.generations st)) by by eapply lookup_lt_Some.
    split; [done|]. split; [|split; [|split; [done|split; [done|]]]].
    + exists idx. split; [done|]. split; [done|].
      split; [by apply list_lookup_insert_eq|].
      intros j Hj. by apply list_lookup_insert_ne.
    + apply length_insert.
    + intros Hpatch.
      assert (Hid' : Generation.id (Store.merge g data) = id).
      { unfold Store.merge. cbn. by rewrite Hpatch. }
      split.
      * eapply find_id_insert_same; [done| |done].
        intros j y Hj Hjlt. by apply (Hbefore j y).
      * intros id' Hne. eapply find_id_insert_other; [done|congruence..].
Qed.

(** X4. The generations listed for a dataset are exactly the stored
    generations of that dataset, newest first; the datasets listed are
    all the stored datasets, newest first. *)
Theorem listings_newest_first (datasetId : string) st :
  Store.getGenerationsByDataset datasetId st
    ≡ₚ filter (λ g, Generation.datasetId g = datasetId) (Store.generations st)
  ∧ (∀ g, g ∈ Store.getGenerationsByDataset datasetId st
          ↔ g ∈ Store.generations st ∧ Generation.datasetId g = datasetId)
  ∧ StronglySorted (λ a b, (Generation.generatedAt b ≤ Generation.generatedAt a)%Z)
                   (Store.getGenerationsByDataset datasetId st)
  ∧ Store.getAllDatasets st ≡ₚ Store.datasets st
  ∧ StronglySorted (λ a b, (Dataset.uploadedAt b ≤ Dataset.uploadedAt a)%Z)
                   (Store.getAllDatasets st).
Proof.
  unfold Store.getGenerationsByDataset, Store.getAllDatasets.
  split; [apply sort_desc_perm|]. split; [|split; [apply sort_desc_sorted|]].
  - intros g. rewrite sort_desc_perm, list_elem_of_filter. tauto.
  - split; [apply sort_desc_perm | apply sort_desc_sorted].
Qed.

(** X5. The latest generation is absent exactly when nothing is
    stored; otherwise it is a stored generation no other is newer
    than, and among several of that same time the one stored first. *)
Theorem latest_generation st :
  (Store.getLatestGeneration st = None ↔ Store.generations st = [])
  ∧ ∀ g, Store.getLatestGeneration st = Some g →
      ∃ before after,
        Store.generations st = before ++ g :: after
        ∧ Forall (λ x, (Generation.generatedAt x < Generation.generatedAt g)%Z) before
        ∧ Forall (λ x, (Generation.generatedAt x ≤ Generation.generatedAt g)%Z) after.
Proof.
  unfold Store.getLatestGeneration. split; [apply sort_desc_head_None|].
  intros g. apply sort_desc_head.
Qed.

Lemma sort_desc_head_snoc {A : Type} (key : A → Z) (l : list A) (x : A) :
  Forall (λ y, (key y < key x)%Z) l →
  head (Store.sort_desc key (l ++ [x])) = Some x.
Proof.
  intros Hl. destruct (head (Store.sort_desc key (l ++ [x]))) as [g|] eqn:E.
  - apply sort_desc_head in E as (l1 & l2 & Heq & H1 & H2).
    destruct l2 as [|z l2 _] using rev_ind.
    + by apply app_inj_tail in Heq as [_ ->].
    + rewrite app_comm_cons, app_assoc in Heq.
      apply app_inj_tail in Heq as [-> ->].
      apply Forall_app in Hl as [_ Hg]. apply Forall_cons in Hg as [Hg _].
      apply Forall_app in H2 as [_ Hz]. apply Forall_cons in Hz as [Hz _]. lia.
  - apply sort_desc_head_None in E. by destruct l.
Qed.

Lemma store_fallback_run_fresh (generationId : string) (created : Z)
    (datasetId modelType : string) (parameters : P) (syntheticCsv : string)
    (completed : Z) (evaluationId : string) (evaluated : Z) (evaluation : R) st :
  Store.getGeneration generationId st = None →
  let g := Generation.mk generationId created datasetId modelType "completed"
             parameters (Some syntheticCsv) None (Some completed) in
  let ev := StoredEvaluation.mk evaluationId evaluated generationId evaluation in
  Store.store_fallback_run generationId created datasetId modelType parameters
    syntheticCsv completed evaluationId evaluated evaluation st
  = (Some g, ev,
     Store.mk (Store.datasets st) (Store.generations st ++ [g])
              (Store.evaluations st ++ [ev])).
Proof.
  intros Hfresh. apply find_id_None in Hfresh. cbv zeta.
  unfold Store.store_fallback_run, Store.createGeneration.
  cbv beta iota zeta. unfold Store.updateGeneration.
  cbn [Generation.id Store.generations Store.datasets Store.evaluations].
  rewrite (proj2 (list_find_Some _ _ (length (Store.generations st))
                    (Generation.mk generationId created datasetId modelType
                       "processing" parameters None None None))).
  - cbv beta iota zeta. unfold Store.createEvaluation. cbv beta iota zeta.
    cbn [Store.generations Store.datasets Store.evaluations
         InsertEvaluation.generationId InsertEvaluation.report].
    rewrite insert_app_r_alt by lia. rewrite Nat.sub_diag. reflexivity.
  - split; [|split].
    + by rewrite lookup_app_r, Nat.sub_diag.
    + done.
    + intros j y Hj Hlt. rewrite lookup_app_l in Hj by done.
      rewrite Forall_forall in Hfresh. apply Hfresh.
      apply list_elem_of_lookup. eauto.
Qed.

(** X6. After a fallback run has been stored under a generation
    identifier not yet in use, at a creation time later than that of
    every stored generation of the dataset, and with a non-empty
    table: the generation is [completed] and carries the table, both
    download handlers send that table, and the evaluation is found
    under the generation when no evaluation bore its identifier
    before. *)
Theorem fallback_run_is_downloadable (generationId : string) (created : Z)
    (datasetId modelType : string) (parameters : P) (syntheticCsv : string)
    (completed : Z) (evaluationId : string) (evaluated : Z) (evaluation : R) st :
  Store.getGeneration generationId st = None →
  (∀ g, g ∈ Store.generations st → Generation.datasetId g = datasetId →
        (Generation.generatedAt g < created)%Z) →
  syntheticCsv ≠ "" →
  let '(updated, ev, st') :=
    Store.store_fallback_run generationId created datasetId modelType parameters
      syntheticCsv completed evaluationId evaluated evaluation st in
  (∃ g, updated = Some g
        ∧ Store.getGeneration generationId st' = Some g
        ∧ Generation.status g = "completed"
        ∧ Generation.syntheticData g = Some syntheticCsv
        ∧ Generation.completedAt g = Some completed
        ∧ Generation.generatedAt g = created
        ∧ Generation.datasetId g = datasetId)
  ∧ Store.download_synthetic datasetId st' = Some syntheticCsv
  ∧ Store.download generationId st' = Some syntheticCsv
  ∧ StoredEvaluation.report ev = evaluation
  ∧ (Store.getEvaluationByGeneration generationId st = None →
       Store.getEvaluationByGeneration generationId st' = Some ev)
  ∧ Store.datasets st' = Store.datasets st.
Proof.
  intros Hfresh Hnewer Hdata.
  rewrite store_fallback_run_fresh by done. cbv zeta.
  set (g' := Generation.mk generationId created datasetId modelType "completed"
               parameters (Some syntheticCsv) None (Some completed)).
  assert (Hget : Store.getGeneration generationId
                   (Store.mk (Store.datasets st) (Store.generations st ++ [g'])
                      (Store.evaluations st
                       ++ [StoredEvaluation.mk evaluationId evaluated generationId
                             evaluation]))
                 = Some g').
  { unfold Store.getGeneration in *. cbn [Store.generations].
    rewrite find_snoc, Hfresh. cbn. by rewrite bool_decide_eq_true_2. }
  split; [|split; [|split; [|split; [|split]]]].
  - exists g'. by repeat split.
  - unfold Store.download_synthetic, Store.getGenerationsByDataset.
    cbn [Store.generations]. rewrite filter_app, filter_cons, decide_True by done.
    rewrite filter_nil.
    pose proof (sort_desc_head_snoc Generation.generatedAt
                  (filter (λ g : Generation.t P, Generation.datasetId g = datasetId)
                          (Store.generations st)) g') as Hh.
    destruct (Store.sort_desc _ _) as [|latest rest].
    + discriminate Hh. apply Forall_forall. intros g Hg.
      apply list_elem_of_filter in Hg as [Hd Hg]. by apply Hnewer.
    + cbn [head] in Hh. injection Hh as ->.
      * cbn. by rewrite decide_False.
      * apply Forall_forall. intros g Hg.
        apply list_elem_of_filter in Hg as [Hd Hg]. by apply Hnewer.
  - unfold Store.download. rewrite Hget. cbn. by rewrite decide_False.
  - done.
  - intros Hev. unfold Store.getEvaluationByGeneration in *.
    cbn [Store.evaluations]. rewrite find_snoc, Hev. cbn.
    by rewrite bool_decide_eq_true_2.
  - done.
Qed.

(** X26. [/api/download_synthetic/:datasetId] sends the table of the
    newest generation of the dataset and of no other: a table that is
    sent is the non-empty table of a generation of the dataset that
    none is newer than; and when the generation that is strictly the
    newest of the dataset has no table, or an empty one, the answer
    is 404 even if older generations of the dataset have tables; so it
    is when the dataset has no generation. *)
Theorem download_synthetic_serves_newest (datasetId : string) st :
  (∀ data, Store.download_synthetic datasetId st = Some data →
     ∃ g, g ∈ Store.generations st
          ∧ Generation.datasetId g = datasetId
          ∧ Generation.syntheticData g = Some data
          ∧ data ≠ ""
          ∧ ∀ g', g' ∈ Store.generations st → Generation.datasetId g' = datasetId →
                  (Generation.generatedAt g' ≤ Generation.generatedAt g)%Z)
  ∧ (∀ before g after,
       Store.generations st = before ++ g :: after →
       Generation.datasetId g = datasetId →
       Generation.syntheticData g = None ∨ Generation.syntheticData g = Some "" →
       Forall (λ g', Generation.datasetId g' = datasetId →
                     (Generation.generatedAt g' < Generation.generatedAt g)%Z)
              (before ++ after) →
       Store.download_synthetic datasetId st = None)
  ∧ ((∀ g, g ∈ Store.generations st → Generation.datasetId g ≠ datasetId) →
     Store.download_synthetic datasetId st = None).
Proof.
  unfold Store.download_synthetic, Store.getGenerationsByDataset.
  set (l := filter (λ g, Generation.datasetId g = datasetId) (Store.generations st)).
  pose proof (sort_desc_head Generation.generatedAt l) as Hhead.
  split; [|split].
  - intros data. destruct (Store.sort_desc _ l) as [|latest rest]; [done|].
    destruct (Hhead latest eq_refl) as (l1 & l2 & Hl & H1 & H2).
    destruct (Generation.syntheticData latest) as [d|] eqn:Hd; [|done].
    destruct (decide (d = "")) as [|Hne]; [done|]. intros [= <-].
    assert (Hin : latest ∈ l) by (rewrite Hl; apply elem_of_app; right; left).
    apply list_elem_of_filter in Hin as [Hds Hin].
    exists latest. split; [done|]. split; [done|]. split; [done|]. split; [done|].
    intros g' Hg' Hd'.
    assert (Hg'l : g' ∈ l) by by apply list_elem_of_filter.
    rewrite Hl in Hg'l. apply elem_of_app in Hg'l as [Hg'l|Hg'l].
    + rewrite Forall_forall in H1. specialize (H1 g' Hg'l). cbn in H1. lia.
    + apply elem_of_cons in Hg'l as [->|Hg'l]; [lia|].
      rewrite Forall_forall in H2. by apply H2.
  - intros before g after Hst Hds Hdata Hold.
    assert (Hl : l = filter (λ g, Generation.datasetId g = datasetId) before
                     ++ g :: filter (λ g, Generation.datasetId g = datasetId) after).
    { unfold l. rewrite Hst, filter_app, filter_cons. by rewrite decide_True. }
    apply Forall_app in Hold as [Hb Ha]. rewrite Forall_forall in Hb, Ha.
    destruct (Store.sort_desc _ l) as [|latest rest] eqn:E; [done|].
    destruct (Hhead latest eq_refl) as (l1 & l2 & Hl' & H1 & H2).
    assert (Hg : (Generation.generatedAt g ≤ Generation.generatedAt latest)%Z).
    { assert (Hin : g ∈ l) by (rewrite Hl; apply elem_of_app; right; left).
      rewrite Hl' in Hin. apply elem_of_app in Hin as [Hin|Hin].
      - rewrite Forall_forall in H1. specialize (H1 g Hin). cbn in H1. lia.
      - apply elem_of_cons in Hin as [->|Hin]; [lia|].
        rewrite Forall_forall in H2. by apply H2. }
    assert (Hlatest : latest ∈ l) by (rewrite Hl'; apply elem_of_app; right; left).
    rewrite Hl in Hlatest. apply elem_of_app in Hlatest as [Hin|Hin].
    + apply list_elem_of_filter in Hin as [Hd Hin]. specialize (Hb latest Hin Hd). lia.
    + apply elem_of_cons in Hin as [->|Hin].
      * destruct Hdata as [-> | ->]; [done|]. by rewrite decide_True.
      * apply list_elem_of_filter in Hin as [Hd Hin]. specialize (Ha latest Hin Hd). lia.
  - intros Hnone.
    assert (l = []) as ->; [|done]. apply filter_none. apply Forall_forall. exact Hnone.
Qed.

End StoreFacts.

(** X1 on the demonstration store: a generation created under the
    unused identifier [g9] is found, and [g1] is still found when a
    second record is created under [g1]. *)
Lemma create_then_get_witness :
  Store.getGeneration "g9"
    (Store.createGeneration "g9" 4000%Z
       (InsertGeneration.mk "d1" "auto" "processing" demo_parameters None None)
       demo_store).2
  = Some (Generation.mk "g9" 4000%Z "d1" "auto" "processing" demo_parameters
            None None None)
  ∧ Store.getGeneration "g1"
      (Store.createGeneration "g1" 4000%Z
         (InsertGeneration.mk "d1" "auto" "processing" demo_parameters None None)
         demo_store).2
    = Some (demo_generation "g1" 2000%Z "d1").
Proof.
  split.
  - destruct (create_then_get "g9" 4000%Z
                (InsertDataset.mk "x" "x" 0 1 [] "")
                (InsertGeneration.mk "d1" "auto" "processing" demo_parameters None None)
                (InsertEvaluation.mk "g9" (jsEvaluate [] [])) demo_store)
      as (_ & Hg & _).
    unfold Store.createGeneration in *. cbv beta iota zeta in Hg.
    destruct Hg as (Hfresh & _). apply Hfresh. reflexivity.
  - destruct (create_then_get "g1" 4000%Z
                (InsertDataset.mk "x" "x" 0 1 [] "")
                (InsertGeneration.mk "d1" "auto" "processing" demo_parameters None None)
                (InsertEvaluation.mk "g1" (jsEvaluate [] [])) demo_store)
      as (_ & Hg & _).
    unfold Store.createGeneration in *. cbv beta iota zeta in Hg.
    destruct Hg as (_ & Hkeep & _). apply Hkeep. reflexivity.
Defined.

(** X2 on the demonstration store: after [d1] is deleted only [g3]
    remains, and its evaluation [e3] is gone while [e1] stays. *)
Lemma deleteDataset_effect_witness :
  Generation.id <$> Store.generations (Store.deleteDataset "d1" demo_store) = ["g3"]
  ∧ Store.getEvaluationByGeneration "g3" (Store.deleteDataset "d1" demo_store) = None
  ∧ StoredEvaluation.id <$> Store.evaluations (Store.deleteDataset "d1" demo_store)
    = ["e1"].
Proof.
  destruct (deleteDataset_effect "d1" demo_store) as (_ & _ & _ & _ & _ & Hnone).
  split; [reflexivity|]. split; [|reflexivity].
  apply (Hnone (demo_generation "g3" 2500%Z "d2")).
  apply list_elem_of_In. vm_compute. auto.
Defined.

(** X3 on the demonstration store: marking [g2] as failed keeps three
    generations and is what the lookup of [g2] then finds; updating
    the unknown [g9] answers [undefined]. *)
Lemma updateGeneration_effect_witness :
  let data :=
    GenerationPatch.mk None None None None (Some "failed") None None
      (Some (Some "boom")) None in
  let st' := (Store.updateGeneration "g2" data demo_store).2 in
  Store.getGeneration "g2" st'
  = Some (Store.merge (demo_generation "g2" 3000%Z "d1") data)
  ∧ length (Store.generations st') = 3
  ∧ Store.updateGeneration "g9" data demo_store = (None, demo_store).
Proof.
  cbv zeta.
  destruct (updateGeneration_effect "g2"
              (GenerationPatch.mk None None None None (Some "failed") None None
                 (Some (Some "boom")) None) demo_store) as [_ Hsome].
  destruct (Hsome (demo_generation "g2" 3000%Z "d1") eq_refl)
    as (_ & _ & Hlen & _ & _ & Hget).
  destruct (updateGeneration_effect "g9"
              (GenerationPatch.mk None None None None (Some "failed") None None
                 (Some (Some "boom")) None) demo_store) as [Hnone _].
  split; [exact (proj1 (Hget eq_refl))|]. split; [exact Hlen | exact (Hnone eq_refl)].
Defined.

(** X5 on the demonstration store: the latest generation is [g2]. *)
Lemma latest_generation_witness :
  ∃ g, Store.getLatestGeneration demo_store = Some g
       ∧ Generation.id g = "g2"
       ∧ Forall (λ x, (Generation.generatedAt x ≤ Generation.generatedAt g)%Z)
                (Store.generations demo_store).
Proof.
  exists (demo_generation "g2" 3000%Z "d1"). split; [reflexivity|]. split; [reflexivity|].
  destruct (latest_generation demo_store) as [_ Hmax].
  destruct (Hmax _ eq_refl) as (before & after & Heq & Hb & Ha).
  rewrite Heq. apply Forall_app. split.
  - eapply Forall_impl; [exact Hb|]. cbn. lia.
  - constructor; [lia | exact Ha].
Defined.

(** X6 on the demonstration store: a fallback run stored for [d1] at
    time 5000 is what [/api/download_synthetic/d1] sends. *)
Lemma fallback_run_is_downloadable_witness :
  Store.download_synthetic "d1"
    (Store.store_fallback_run "g9" 5000%Z "d1" "auto" demo_parameters
       "name,age
Alice,43" 5001%Z "e9" 5002%Z (jsEvaluate [] []) demo_store).2
  = Some "name,age
Alice,43".
Proof.
  pose proof (fallback_run_is_downloadable "g9" 5000%Z "d1" "auto" demo_parameters
                "name,age
Alice,43" 5001%Z "e9" 5002%Z (jsEvaluate [] []) demo_store) as H.
  destruct (Store.store_fallback_run _ _ _ _ _ _ _ _ _ _ _) as [[updated ev] st'].
  apply H.
  - reflexivity.
  - intros g Hg Hd. apply list_elem_of_In in Hg. cbn in Hg.
    destruct Hg as [<-|[<-|[<-|[]]]]; cbn in *; (lia || discriminate).
  - discriminate.
Defined.

(** ** Scenarios of the upload, the analysis and the generators *)

(** [StringDec] prints digits, a point and a sign only. *)
Lemma string_of_uint_solid (d : Decimal.uint) :
  solid (NilEmpty.string_of_uint d) = true.
Proof. induction d; cbn [NilEmpty.string_of_uint solid]; by rewrite ?IHd. Qed.

Lemma string_of_N_solid (n : N) : solid (Dec.string_of_N n) = true.
Proof.
  unfold Dec.string_of_N, NilZero.string_of_uint.
  destruct (N.to_uint n); try done; apply (string_of_uint_solid (_ _)).
Qed.

Lemma strip_zeros_solid (s : string) :
  solid s = true → solid (Dec.strip_zeros s) = true.
Proof.
  induction s as [|c s IH]; [done|]. cbn [solid Dec.strip_zeros]. intros H.
  apply andb_true_iff in H as [Hc Hs]. specialize (IH Hs).
  destruct (Dec.strip_zeros s); [destruct (Ascii.eqb c "0")|]; cbn [solid] in *;
    by rewrite ?Hc, ?IH.
Qed.

Lemma pad3_solid (n : N) : solid (Dec.pad3 n) = true.
Proof.
  unfold Dec.pad3. pose proof (string_of_N_solid n) as H.
  destruct (String.length (Dec.string_of_N n)) as [|[|[|?]]];
    rewrite ?solid_app, ?H; done.
Qed.

Lemma StringDec_clean (q : Q) : clean (StringDec q).
Proof.
  apply solid_clean. unfold StringDec. cbv zeta.
  set (n := Z.to_N (Math_round (Qabs q * 1000))).
  pose proof (string_of_N_solid (n / 1000)) as Hip.
  pose proof (strip_zeros_solid _ (pad3_solid (n mod 1000))) as Hfp.
  assert (Hbody : solid (match Dec.strip_zeros (Dec.pad3 (n mod 1000)) with
                         | EmptyString => Dec.string_of_N (n / 1000)
                         | String _ _ =>
                             Dec.string_of_N (n / 1000) ++ "."
                             ++ Dec.strip_zeros (Dec.pad3 (n mod 1000))
                         end) = true).
  { destruct (Dec.strip_zeros (Dec.pad3 (n mod 1000))) eqn:E; [done|].
    by rewrite !solid_app, Hip, Hfp. }
  destruct (Qle_bool 0 q || N.eqb n 0); [done|]. by rewrite solid_app, Hbody.
Qed.

(** X7 on the file of scores: the column [score], which no row is too
    short to reach, is stored as numeric with one null, as the parse
    has it. *)
Lemma upload_agrees_with_parse_witness :
  let uc := UploadColumn.mk "score" numeric 1 in
  let col := mkColumn "score" numeric [Some "10"; Some "20"] in
  UploadColumn.type uc = type col
  ∧ (length (values col) + UploadColumn.nullCount uc)%nat
    = length (rows (jsParseCSV NumberDec scores_csv)).
Proof.
  cbv zeta.
  destruct (upload_agrees_with_parse NumberDec "s.csv" scores_csv) as (_ & _ & _ & H).
  destruct (H 1%nat (UploadColumn.mk "score" numeric 1)
              (mkColumn "score" numeric [Some "10"; Some "20"])) as (_ & _ & Hfull).
  - by vm_compute.
  - by vm_compute.
  - apply Hfull. by_evaluation.
Defined.

(** A row too short to reach a column of numbers makes the parse call
    the column categorical, while the upload has stored it as
    numeric. *)
Example short_row_changes_type :
  UploadColumn.type <$> InsertDataset.columns (upload NumberDec "t.csv" "a,b
1,2
3") = [numeric; numeric]
  ∧ type <$> columns (jsParseCSV NumberDec "a,b
1,2
3") = [numeric; categorical].
Proof. split; by vm_compute. Qed.

(** X8 on the file of countries, which has Windows line ends: the
    preview shows the columns that the server stores. *)
Lemma preview_agrees_with_upload_witness :
  Preview.columns (parseCSV NumberDec country_csv)
  = InsertDataset.columns (upload NumberDec "c.csv" country_csv).
Proof.
  destruct (preview_agrees_with_upload NumberDec "c.csv" country_csv)
    as (_ & _ & _ & _ & _ & _ & H).
  apply H. vm_compute. lia.
Defined.


(** A column named [__proto__] leaves no key in the rows of
    [jsGenerate], and its cell prints as [[object Object]]. *)
Example jsGenerate_proto_column :
  jsGenerate NumberDec StringDec random_half sqrtDec [["1"; "x"]]
    [mkColumn "__proto__" numeric [Some "1"]; mkColumn "b" categorical [Some "x"]] 1
  = [{["b" := Some "x"]}]
  ∧ (generate NumberDec StringDec random_half sqrtDec "__proto__,b
1,x" 1).1 = "__proto__,b
[object Object],x".
Proof. split; by vm_compute. Qed.


(** X11 on the table of people: with the unknown column [salary]
    selected, the controlled fallback answers what the last resort
    answers. *)
Lemma controlled_nothing_selected_witness :
  generate_controlled NumberDec StringDec random_half people_csv 3
    ["salary"] age_25_60 [["name"; "age"]]
  = last_resort NumberDec people_csv 3.
Proof.
  apply controlled_nothing_selected. intros c Hc.
  apply list_elem_of_singleton in Hc as ->. by_evaluation.
Defined.


(** X13 on the header of the file of countries. *)
Lemma suggest_relations_spec_witness :
  ["country_code"; "Country_Name"]
  ∈ suggest_relations toLowerCaseDec ["country_code"; "Country_Name"; "zip"].
Proof.
  apply (proj2 (suggest_relations_spec toLowerCaseDec
                  ["country_code"; "Country_Name"; "zip"]
                  ["country_code"; "Country_Name"])).
  exists "country_code", "Country_Name", ["country_code"], ["zip"].
  split; [done|]. split; [by_evaluation|]. split; [done|]. split; [done|].
  split; [done|]. split; [by vm_compute|].
  constructor; [by vm_compute | constructor].
Defined.


(** X15 on the file of countries: [zip] is suggested as [int] and is
    numeric for the generators. *)
Lemma numeric_suggestion_is_numeric_column_witness :
  name (mkColumn "zip" numeric [Some "10001"; Some "75001"]) = "zip"
  ∧ type (mkColumn "zip" numeric [Some "10001"; Some "75001"]) = numeric.
Proof.
  apply (numeric_suggestion_is_numeric_column NumberDec toLowerCaseDec country_csv 2
           (DType.mk "zip" int_type (Suggestions.mk int_type (Some 10001%Q) (Some 75001%Q)))).
  - by vm_compute.
  - by vm_compute.
  - by vm_compute.
  - discriminate.
Defined.

(** X16 on the table of people. *)
Lemma parse_table_text_witness :
  jsParseCSV NumberDec (table_text people_headers people_rows)
  = mkParsed people_headers people_rows (jsColumns NumberDec people_headers people_rows)
  ∧ Str.split Str.LF (table_text people_headers people_rows)
    = ["name,age"; "Alice,30"; "Bob,40"; "Carol,50"].
Proof.
  apply (parse_table_text NumberDec people_headers people_rows).
  - cbn. lia.
  - repeat constructor.
  - repeat constructor.
Defined.


(** X18 on the table of people, the ages synthesized between 25 and
    60. *)
Lemma controlled_text_shows_table_witness :
  shows_table NumberDec
    (generate_controlled NumberDec StringDec random_half people_csv 3
       ["age"] age_25_60 []).1
    ["name"; "age"] 3.
Proof.
  apply (controlled_text_shows_table NumberDec StringDec random_half people_csv 3
           ["age"] age_25_60 []).
  - vm_compute. lia.
  - exact StringDec_clean.
Defined.

(** X19 on the file of scores. *)
Lemma generate_text_shows_table_witness :
  shows_table NumberDec
    (generate NumberDec StringDec random_half sqrtDec scores_csv 3).1
    ["id"; "score"] 3.
Proof.
  apply (generate_text_shows_table NumberDec StringDec random_half sqrtDec
           scores_csv 3).
  - vm_compute. lia.
  - exact StringDec_clean.
Defined.


(** ** From a blank file to the download *)

Section BlankFile.

Context {P : Type}.
Variable Number : string → option Q.
Variable String_ : Q → string.
Variable random : nat → Q.

(** X24. A file that is blank is stored with no row, and the
    controlled fallback answers the empty text for it.  The run is
    stored as completed, but neither download route sends it: an
    empty text counts as no data, and both answer 404. *)
Theorem blank_file_run_cannot_be_downloaded (originalname fileData : string)
    (cols_to_synthesize : list string) (constraints : gmap string User.t)
    (relations : list (list string))
    (generationId : string) (created : Z) (datasetId modelType : string)
    (parameters : P) (completed : Z) (evaluationId : string) (evaluated : Z)
    (st : Store.t P Evaluation) :
  Str.trim fileData = "" →
  Store.getGeneration generationId st = None →
  (∀ g, g ∈ Store.generations st → Generation.datasetId g = datasetId →
        (Generation.generatedAt g < created)%Z) →
  let rowCount := InsertDataset.rowCount (upload Number originalname fileData) in
  let run := generate_controlled Number String_ random fileData rowCount
               cols_to_synthesize constraints relations in
  let '(updated, ev, st') :=
    Store.store_fallback_run generationId created datasetId modelType parameters
      run.1 completed evaluationId evaluated run.2 st in
  rowCount = 0%nat
  ∧ run.1 = ""
  ∧ (∃ g, updated = Some g
          ∧ Store.getGeneration generationId st' = Some g
          ∧ Generation.status g = "completed"
          ∧ Generation.syntheticData g = Some "")
  ∧ Store.download generationId st' = None
  ∧ Store.download_synthetic datasetId st' = None.
Proof.
  intros Hblank Hfresh Hnewer. cbv zeta.
  assert (Hcount : InsertDataset.rowCount (upload Number originalname fileData) = 0%nat).
  { by rewrite upload_rowCount, blank_file_parse. }
  rewrite Hcount, blank_file_text by done.
  rewrite store_fallback_run_fresh by done. cbv zeta.
  set (g' := Generation.mk generationId created datasetId modelType "completed"
               parameters (Some "") None (Some completed)).
  set (ev := StoredEvaluation.mk _ _ _ _).
  assert (Hget : Store.getGeneration generationId
                   (Store.mk (Store.datasets st) (Store.generations st ++ [g'])
                      (Store.evaluations st ++ [ev]))
                 = Some g').
  { unfold Store.getGeneration in *. cbn [Store.generations].
    rewrite find_snoc, Hfresh. cbn. by rewrite bool_decide_eq_true_2. }
  split; [done|]. split; [done|]. split; [by exists g'|]. split.
  - unfold Store.download. by rewrite Hget.
  - unfold Store.download_synthetic, Store.getGenerationsByDataset.
    cbn [Store.generations]. rewrite filter_app, filter_cons, decide_True by done.
    rewrite filter_nil.
    pose proof (sort_desc_head_snoc Generation.generatedAt
                  (filter (λ g : Generation.t P, Generation.datasetId g = datasetId)
                          (Store.generations st)) g') as Hh.
    destruct (Store.sort_desc _ _) as [|latest rest].
    + discriminate Hh. apply Forall_forall. intros g Hg.
      apply list_elem_of_filter in Hg as [Hd Hg]. by apply Hnewer.
    + cbn [head] in Hh. injection Hh as ->; [done|].
      apply Forall_forall. intros g Hg.
      apply list_elem_of_filter in Hg as [Hd Hg]. by apply Hnewer.
Qed.

End BlankFile.

(** X24 on the demonstration store: a run on a file of blanks, stored
    for [d1] at time 5000, is not sent by [/api/download/g9]. *)
Lemma blank_file_run_cannot_be_downloaded_witness :
  Store.download "g9"
    (Store.store_fallback_run "g9" 5000%Z "d1" "auto" demo_parameters
       "" 5001%Z "e9" 5002%Z (jsEvaluate [mkColumn "" numeric []] []) demo_store).2
  = None.
Proof.
  pose proof (blank_file_run_cannot_be_downloaded NumberDec StringDec random_half
                "blank.csv" "  " ["age"] ∅ []
                "g9" 5000%Z "d1" "auto" demo_parameters 5001%Z "e9" 5002%Z
                demo_store) as H.
  cbv zeta in H.
  change (generate_controlled NumberDec StringDec random_half "  "
            (InsertDataset.rowCount (upload NumberDec "blank.csv" "  "))
            ["age"] ∅ [])
    with ("", jsEvaluate [mkColumn "" numeric []] []) in H.
  cbn [fst snd] in H.
  destruct (Store.store_fallback_run _ _ _ _ _ _ _ _ _ _ _) as [[updated ev] st'].
  apply H.
  - reflexivity.
  - reflexivity.
  - intros g Hg Hd. apply list_elem_of_In in Hg. cbn in Hg.
    destruct Hg as [<-|[<-|[<-|[]]]]; cbn in *; (lia || discriminate).
Defined.

(** X21 on the ragged table: the pool of [b] holds [undefined], so
    some row has no cell for [b]. *)
Lemma pool_of_column_witness :
  ∃ row, row ∈ rows (jsParseCSV NumberDec ragged_csv) ∧ (length row ≤ 1)%nat.
Proof.
  destruct (pool_of_column NumberDec ragged_csv 1
              (mkColumn "b" categorical [Some "y"; None])) as (_ & Hnone & _).
  - by vm_compute.
  - apply Hnone. by_evaluation.
Defined.


(** X25 on the table of people, nothing ticked: the bounds in force
    for [age], 30 and 50, are the observed ones. *)
Lemma seeded_constraints_effect_witness :
  ∃ idx col,
    columns (jsParseCSV NumberDec people_csv) !! idx = Some col ∧ name col = "age"
    ∧ (Str.contains_ci "year" "age" = true →
       Meta.min (Meta.mk 30 50 true)
       = Qmax 1900 (inject_Z (Qfloor (min_or 1900 (nums_of NumberDec (values col)))))
       ∧ Meta.max (Meta.mk 30 50 true)
         = Qmin 2025 (inject_Z (Qceiling (max_or 2025 (nums_of NumberDec (values col))))))
    ∧ (Str.contains_ci "year" "age" = false →
       Meta.min (Meta.mk 30 50 true) = min_or 0 (nums_of NumberDec (values col))
       ∧ Meta.max (Meta.mk 30 50 true) = max_or 1 (nums_of NumberDec (values col))).
Proof.
  destruct (seeded_constraints_effect NumberDec toLowerCaseDec people_csv [] "age"
              (Meta.mk 30 50 true)) as [_ H].
  - by_evaluation.
  - apply H. by vm_compute.
Defined.

(** X26 on the demonstration store: while a new run for [d1] is
    being processed, the download of [d1] answers 404, although two
    older generations of [d1] have tables. *)
Lemma download_synthetic_serves_newest_witness :
  Store.download_synthetic "d1"
    (Store.createGeneration "g9" 4000%Z
       (InsertGeneration.mk "d1" "auto" "processing" demo_parameters None None)
       demo_store).2
  = None.
Proof.
  destruct (download_synthetic_serves_newest "d1"
              (Store.createGeneration "g9" 4000%Z
                 (InsertGeneration.mk "d1" "auto" "processing" demo_parameters None None)
                 demo_store).2) as (_ & H & _).
  apply (H (Store.generations demo_store)
           (Generation.mk "g9" 4000%Z "d1" "auto" "processing" demo_parameters
              None None None) []).
  - reflexivity.
  - reflexivity.
  - by left.
  - rewrite app_nil_r. repeat constructor; cbn; (lia || discriminate).
Defined.

